(** * Classification metrics of mmcls/metrics/single_label.py

    A shallow embedding of [_precision_recall_f1_support], [Accuracy] and
    [SingleLabelMetric], and the properties of the specification proved
    about it.

    Conventions of the embedding.
    - An int64 tensor holds [Z] values (counts never reach 2^63, so the
      wrap-around is not written out).
    - A float tensor holds [tfloat] values: an exact rational, or one of
      the IEEE specials [PInf], [NInf], [NaN].  [Accuracy] and
      [SingleLabelMetric] compute over the exact values, division by zero
      included; where a statement depends on the rounding of float32, the
      module [Float32] gives the same lines with every operation rounded
      to nearest-even.
    - A Python exception is a value of [exn]; a function that can raise
      returns [result A]. *)

From Stdlib Require Import ZArith QArith Qabs Qminmax Qpower String List Bool
  Lia Lqa.
From Stdlib Require Import DecimalString.
Import ListNotations.

Open Scope Z_scope.

(** ** Exceptions *)

Inductive exn : Type :=
| AssertionError (msg : string)
| ValueError (msg : string)
| KeyError (key : string)
| RuntimeError (msg : string)
| ZeroDivisionError (msg : string).

Definition result (A : Type) : Type := (exn + A)%type.

Definition ret {A} (a : A) : result A := inr a.
Definition raise {A} (e : exn) : result A := inl e.

Definition bind {A B} (m : result A) (f : A -> result B) : result B :=
  match m with
  | inl e => inl e
  | inr a => f a
  end.

Notation "x <- m ;; k" := (bind m (fun x => k))
  (at level 61, m at next level, right associativity).
Notation "' pat <- m ;; k" := (bind m (fun x => match x with pat => k end))
  (at level 61, pat pattern, m at next level, right associativity).

(** [for x in l: out.append(f x)], stopping at the first exception. *)
Fixpoint mapM {A B} (f : A -> result B) (l : list A) : result (list B) :=
  match l with
  | [] => ret []
  | a :: l' => b <- f a ;; bs <- mapM f l' ;; ret (b :: bs)
  end.

(** [for x in l: acc = f acc x], stopping at the first exception. *)
Fixpoint foldM {A S} (f : S -> A -> result S) (s : S) (l : list A) : result S :=
  match l with
  | [] => ret s
  | a :: l' => s' <- f s a ;; foldM f s' l'
  end.

(** ** Python helpers *)

Definition str_of_int (z : Z) : string := NilZero.string_of_int (Z.to_int z).

(** [max(seq)] on a sequence of ints. *)
Definition py_max (l : list Z) : result Z :=
  match l with
  | [] => raise (ValueError "max() arg is an empty sequence")
  | a :: l' => ret (fold_left Z.max l' a)
  end.

(** [l[:k]]: a negative [k] counts from the end. *)
Definition slice_to {A} (k : Z) (l : list A) : list A :=
  if k <? 0 then firstn (Z.to_nat (Z.of_nat (length l) + k)) l
  else firstn (Z.to_nat k) l.

(** [a / b] on Python numbers, the dividend a float. *)
Definition py_div (a : Q) (b : Z) : result Q :=
  if b =? 0 then raise (ZeroDivisionError "float division by zero")
  else ret (a / inject_Z b)%Q.

(** Banker's rounding of a non-negative rational to an integer. *)
Definition round_half_even (q : Q) : Z :=
  let n := Qnum q in
  let d := Zpos (Qden q) in
  let fl := n / d in
  let r2 := 2 * (n mod d) in
  if r2 <? d then fl
  else if d <? r2 then fl + 1
  else if Z.even fl then fl else fl + 1.

Definition two_digits (z : Z) : string :=
  if z <? 10 then ("0" ++ str_of_int z)%string else str_of_int z.

(** [f'{thr:.2f}'] on the exact value of the float. *)
Definition format_2f (q : Q) : string :=
  let n := round_half_even (Qabs q * 100)%Q in
  ((if Qlt_le_dec q 0 then "-" else "")
     ++ str_of_int (n / 100) ++ "." ++ two_digits (n mod 100))%string.

(** ** Floats of a tensor *)

Inductive tfloat : Type :=
| Fin (q : Q)
| PInf
| NInf
| NaN.

Definition inf_of_sign (negative : bool) : tfloat :=
  if negative then NInf else PInf.

Definition Qneg_bool (q : Q) : bool := negb (Qle_bool 0 q).

Definition tadd (x y : tfloat) : tfloat :=
  match x, y with
  | NaN, _ | _, NaN => NaN
  | Fin a, Fin b => Fin (a + b)%Q
  | PInf, NInf | NInf, PInf => NaN
  | PInf, _ | _, PInf => PInf
  | NInf, _ | _, NInf => NInf
  end.

Definition tmul (x y : tfloat) : tfloat :=
  match x, y with
  | NaN, _ | _, NaN => NaN
  | Fin a, Fin b => Fin (a * b)%Q
  | Fin a, PInf | PInf, Fin a =>
      if Qeq_bool a 0 then NaN else inf_of_sign (Qneg_bool a)
  | Fin a, NInf | NInf, Fin a =>
      if Qeq_bool a 0 then NaN else inf_of_sign (negb (Qneg_bool a))
  | PInf, PInf | NInf, NInf => PInf
  | PInf, NInf | NInf, PInf => NInf
  end.

Definition tdiv (x y : tfloat) : tfloat :=
  match x, y with
  | NaN, _ | _, NaN => NaN
  | Fin a, Fin b =>
      if Qeq_bool b 0
      then (if Qeq_bool a 0 then NaN else inf_of_sign (Qneg_bool a))
      else Fin (a / b)%Q
  | Fin _, (PInf | NInf) => Fin 0
  | PInf, Fin b => inf_of_sign (Qneg_bool b)
  | NInf, Fin b => inf_of_sign (negb (Qneg_bool b))
  | (PInf | NInf), (PInf | NInf) => NaN
  end.

(** [torch.clamp(x, min=m)] on one float. *)
Definition tclamp_min (m : Q) (x : tfloat) : tfloat :=
  match x with
  | Fin q => Fin (Qmax q m)
  | PInf => PInf
  | NInf => Fin m
  | NaN => NaN
  end.

(** ** torch.finfo *)

Inductive dtype : Type := float16 | bfloat16 | float32 | float64.

Record finfo_t : Type := {
  bits : Z;
  eps : Q;   (* gap between 1.0 and the next representable float *)
  tiny : Q   (* smallest positive normal number *)
}.

Definition pow2_neg (n : positive) : Q := 1 # (2 ^ n)%positive.

Definition finfo (d : dtype) : finfo_t :=
  match d with
  | float16 => {| bits := 16; eps := pow2_neg 10; tiny := pow2_neg 14 |}
  | bfloat16 => {| bits := 16; eps := pow2_neg 7; tiny := pow2_neg 126 |}
  | float32 => {| bits := 32; eps := pow2_neg 23; tiny := pow2_neg 126 |}
  | float64 => {| bits := 64; eps := pow2_neg 52; tiny := pow2_neg 1022 |}
  end.

(** The smallest positive value a dtype represents (its least subnormal). *)
Definition smallest_positive (d : dtype) : Q :=
  match d with
  | float16 => pow2_neg 24
  | bfloat16 => pow2_neg 133
  | float32 => pow2_neg 149
  | float64 => pow2_neg 1074
  end.

(** ** Tensors *)

(** A 0-dim tensor or a 1-D tensor. *)
Inductive tensor (A : Type) : Type :=
| Scalar (a : A)
| Vec (l : list A).
Arguments Scalar {A} a.
Arguments Vec {A} l.

Definition tmap {A B} (f : A -> B) (t : tensor A) : tensor B :=
  match t with
  | Scalar a => Scalar (f a)
  | Vec l => Vec (map f l)
  end.

Definition zip_with {A B C} (f : A -> B -> C) (l1 : list A) (l2 : list B)
  : list C :=
  map (fun p => f (fst p) (snd p)) (combine l1 l2).

(** Elementwise operation on two tensors of one shape. *)
Definition tmap2 {A B C} (f : A -> B -> C) (t1 : tensor A) (t2 : tensor B)
  : tensor C :=
  match t1, t2 with
  | Scalar a, Scalar b => Scalar (f a b)
  | Scalar a, Vec l => Vec (map (f a) l)
  | Vec l, Scalar b => Vec (map (fun a => f a b) l)
  | Vec l1, Vec l2 => Vec (zip_with f l1 l2)
  end.

Definition zsum (l : list Z) : Z := fold_right Z.add 0 l.

Definition fsum (l : list tfloat) : tfloat := fold_right tadd (Fin 0) l.

(** [t.mean(0)]: the mean of an empty tensor is 0/0. *)
Definition tmean0 (t : tensor tfloat) : tensor tfloat :=
  match t with
  | Scalar a => Scalar a
  | Vec l => Scalar (tdiv (fsum l) (Fin (inject_Z (Z.of_nat (length l)))))
  end.

(** [t.sum(0)] on an int tensor. *)
Definition tsum0 (t : tensor Z) : tensor Z :=
  match t with
  | Scalar a => Scalar a
  | Vec l => Scalar (zsum l)
  end.

(** A 2-D int64 tensor of shape (N, ncols). *)
Record matrix : Type := {
  ncols : Z;
  rows : list (list Z)
}.

Definition zrange (n : Z) : list Z := map Z.of_nat (seq 0 (Z.to_nat n)).

(** [m.sum()] *)
Definition mat_sum (m : matrix) : Z := zsum (map zsum (rows m)).

(** [m.sum(0)] *)
Definition mat_sum0 (m : matrix) : list Z :=
  fold_right (zip_with Z.add) (map (fun _ => 0) (zrange (ncols m))) (rows m).

(** [a & b] on two matrices of one shape. *)
Definition mat_and (a b : matrix) : matrix :=
  {| ncols := ncols a;
     rows := zip_with (zip_with Z.land) (rows a) (rows b) |}.

Definition one_hot_row (num_classes : Z) (label : Z) : list Z :=
  map (fun j => if j =? label then 1 else 0) (zrange num_classes).

Definition zmax_list (l : list Z) : Z :=
  match l with
  | [] => 0
  | a :: l' => fold_left Z.max l' a
  end.

(** [F.one_hot(labels, num_classes)] *)
Definition one_hot (labels : list Z) (num_classes : Z) : result matrix :=
  match labels with
  | [] =>
      if num_classes <=? 0
      then raise (RuntimeError
                    "Can not infer total number of classes from empty tensor.")
      else ret {| ncols := num_classes; rows := [] |}
  | _ :: _ =>
      if existsb (fun l => l <? 0) labels
      then raise (RuntimeError "Class values must be non-negative.")
      else if num_classes =? -1
      then let c := zmax_list labels + 1 in
           ret {| ncols := c; rows := map (one_hot_row c) labels |}
      else if num_classes <=? zmax_list labels
      then raise (RuntimeError
                    "Class values must be smaller than num_classes.")
      else ret {| ncols := num_classes;
                  rows := map (one_hot_row num_classes) labels |}
  end.

(** ** The confusion reduction *)

Definition average_options_ok (average : option string) : bool :=
  match average with
  | None => true
  | Some s => (s =? "micro")%string || (s =? "macro")%string
  end.

Definition average_is (average : option string) (s : string) : bool :=
  match average with
  | None => false
  | Some a => (a =? s)%string
  end.

Definition invalid_average_msg : string :=
  "Invalid `average` argument, please specicy from ['micro', 'macro', None].".

Definition of_int (z : Z) : tfloat := Fin (inject_Z z).

(** [torch.clamp(t, min=1.)] on an int tensor gives a float tensor. *)
Definition clamp_min_int (m : Q) (t : tensor Z) : tensor tfloat :=
  tmap (fun z => tclamp_min m (of_int z)) t.

(** The epsilon of line 44: [torch.finfo(torch.float32).eps]. *)
Definition f1_eps : Q := eps (finfo float32).

(** Lines 31-44: the counts and the values before averaging. *)
Definition confusion_sums (pred_positive gt_positive : matrix)
  (average : option string) : tensor Z * tensor Z * tensor Z :=
  let class_correct := mat_and pred_positive gt_positive in
  if average_is average "micro"
  then (Scalar (mat_sum class_correct),
        Scalar (mat_sum pred_positive),
        Scalar (mat_sum gt_positive))
  else (Vec (mat_sum0 class_correct),
        Vec (mat_sum0 pred_positive),
        Vec (mat_sum0 gt_positive)).

Definition precision_of (tp_sum pred_sum : tensor Z) : tensor tfloat :=
  tmap (fun x => tmul x (Fin 100))
    (tmap2 tdiv (tmap of_int tp_sum) (clamp_min_int 1 pred_sum)).

Definition recall_of (tp_sum gt_sum : tensor Z) : tensor tfloat :=
  tmap (fun x => tmul x (Fin 100))
    (tmap2 tdiv (tmap of_int tp_sum) (clamp_min_int 1 gt_sum)).

Definition f1_denominator (precision recall : tensor tfloat) : tensor tfloat :=
  tmap (tclamp_min f1_eps) (tmap2 tadd precision recall).

Definition f1_score_of (precision recall : tensor tfloat) : tensor tfloat :=
  tmap2 tdiv
    (tmap2 tmul (tmap (tmul (Fin 2)) precision) recall)
    (f1_denominator precision recall).

Definition _precision_recall_f1_support
  (pred_positive gt_positive : matrix) (average : option string)
  : result (tensor tfloat * tensor tfloat * tensor tfloat * tensor Z) :=
  if negb (average_options_ok average)
  then raise (AssertionError invalid_average_msg)
  else
    let '(tp_sum, pred_sum, gt_sum) :=
      confusion_sums pred_positive gt_positive average in
    let precision := precision_of tp_sum pred_sum in
    let recall := recall_of tp_sum gt_sum in
    let f1_score := f1_score_of precision recall in
    if average_is average "macro" || average_is average "micro"
    then ret (tmean0 precision, tmean0 recall, tmean0 f1_score, tsum0 gt_sum)
    else ret (precision, recall, f1_score, gt_sum).

(** ** Score tensors and torch.topk *)

(** A 2-D float tensor of shape (N, size1). *)
Record score_matrix : Type := {
  size1 : Z;
  srows : list (list Q)
}.

(** What [to_tensor] gives for [pred]: labels (N,) or scores (N, C). *)
Inductive prediction : Type :=
| Labels (l : list Z)
| Scores (s : score_matrix).

(** [pred.size(0)] *)
Definition size0 (pred : prediction) : Z :=
  match pred with
  | Labels l => Z.of_nat (length l)
  | Scores s => Z.of_nat (length (srows s))
  end.

(** Insertion of a (score, index) pair into a list sorted by decreasing
    score; the inserted pair goes before the pairs of equal score. *)
Fixpoint insert_desc (x : Q * Z) (l : list (Q * Z)) : list (Q * Z) :=
  match l with
  | [] => [x]
  | y :: l' =>
      if Qle_bool (fst y) (fst x) then x :: l else y :: insert_desc x l'
  end.

(** Scores of a row with their class index, highest score first.  torch
    leaves the order of equal scores open; here the lower index wins. *)
Definition sort_desc (row : list Q) : list (Q * Z) :=
  fold_right insert_desc [] (combine row (zrange (Z.of_nat (length row)))).

Definition topk_row (k : Z) (row : list Q) : list Q * list Z :=
  split (firstn (Z.to_nat k) (sort_desc row)).

(** [t.topk(k, dim=1)]: values and indices, both of shape (N, k). *)
Definition tensor_topk (t : score_matrix) (k : Z)
  : result (list (list Q) * list (list Z)) :=
  if (k <? 0) || (size1 t <? k)
  then raise (RuntimeError "selected index k out of range")
  else let r := map (topk_row k) (srows t) in
       ret (map fst r, map snd r).

(** [m.t()] of a matrix with [k] columns. *)
Definition transpose {A} (k : Z) (m : list (list A)) : list (list A) :=
  map (fun j => flat_map (fun r => firstn 1 (skipn j r)) m)
      (seq 0 (Z.to_nat k)).

Definition count_true (l : list bool) : Z :=
  Z.of_nat (length (filter (fun b => b) l)).

Definition size_mismatch_msg (n m : Z) : string :=
  ("The size of pred (" ++ str_of_int n ++ ") doesn't match the target ("
     ++ str_of_int m ++ ").")%string.

(** ** Stored records and dicts *)

(** A label field of a data sample: [score], [label], [num_classes]. *)
Record LabelData : Type := {
  ld_score : option (list Q);
  ld_label : option (list Z);
  ld_num_classes : option Z
}.

(** One element of [predictions]. *)
Record PredDict : Type := {
  p_pred_label : option LabelData;
  p_gt_label : option LabelData
}.

(** [data['data_sample']] *)
Record DataSample : Type := {
  ds_gt_label : option LabelData;
  ds_num_classes : option Z
}.

(** One element of [data_batch]. *)
Record DataDict : Type := {
  d_data_sample : option DataSample
}.

(** One element of [self.results]. *)
Record ResultDict : Type := {
  r_pred_score : option (list Q);
  r_pred_label : option (list Z);
  r_num_classes : option Z;
  r_gt_label : list Z
}.

(** [d[key]] *)
Definition getitem {A} (key : string) (field : option A) : result A :=
  match field with
  | Some a => ret a
  | None => raise (KeyError key)
  end.

(** A dict with string keys, in insertion order. *)
Definition dict (V : Type) : Type := list (string * V).

(** [d[k] = v] *)
Fixpoint dict_set {V} (k : string) (v : V) (d : dict V) : dict V :=
  match d with
  | [] => [(k, v)]
  | (k', v') :: d' =>
      if (k' =? k)%string then (k, v) :: d' else (k', v') :: dict_set k v d'
  end.

(** [torch.cat] of 1-D tensors. *)
Definition torch_cat {A} (l : list (list A)) : result (list A) :=
  match l with
  | [] => raise (RuntimeError "torch.cat(): expected a non-empty list of Tensors")
  | _ :: _ => ret (concat l)
  end.

(** [torch.stack] of 1-D float tensors. *)
Definition torch_stack (l : list (list Q)) : result score_matrix :=
  match l with
  | [] => raise (RuntimeError "stack expects a non-empty TensorList")
  | r :: l' =>
      if forallb (fun r' => Nat.eqb (length r') (length r)) l'
      then ret {| size1 := Z.of_nat (length r); srows := l |}
      else raise (RuntimeError "stack expects each tensor to be equal size")
  end.

(** [enumerate(l)] *)
Definition enumerate {A} (l : list A) : list (nat * A) :=
  combine (seq 0 (length l)) l.

(** [l[i]] *)
Definition index {A} (l : list A) (i : nat) : result A :=
  match nth_error l i with
  | Some a => ret a
  | None => raise (RuntimeError "list index out of range")
  end.

(** The threshold part of a metric name. *)
Definition thr_suffix (thr : option Q) : string :=
  match thr with
  | None => "_no-thr"
  | Some t => ("_thr-" ++ format_2f t)%string
  end.

(** [for data, pred in zip(data_batch, predictions)] with a body that
    appends one record to [self.results]. *)
Definition process_with (step : DataDict -> PredDict -> result ResultDict)
  (results : list ResultDict) (data_batch : list DataDict)
  (predictions : list PredDict) : result (list ResultDict) :=
  foldM (fun rs dp => r <- step (fst dp) (snd dp) ;; ret (rs ++ [r]))
        results (combine data_batch predictions).

(** ** Accuracy *)

Module Accuracy.

Record config : Type := {
  topk : list Z;
  thrs : list (option Q)
}.

Inductive acc_result : Type :=
| AccTensor (acc : Q)                (* shape (1,), label input *)
| AccTable (accs : list (list Q)).   (* [topk][thrs], each of shape (1,) *)

Definition topk_unavailable_msg (maxk c : Z) : string :=
  ("Top-" ++ str_of_int maxk
     ++ " accuracy is unavailable since the number of categories is "
     ++ str_of_int c ++ ".")%string.

(** [correct & (pred_score.t() > thr)] *)
Definition apply_thr (thr : option Q) (correct : list (list bool))
  (pred_score_t : list (list Q)) : list (list bool) :=
  match thr with
  | None => correct
  | Some t =>
      zip_with (zip_with (fun c s => c && negb (Qle_bool s t)))
               correct pred_score_t
  end.

Definition calculate (pred : prediction) (target : list Z)
  (topk : list Z) (thrs : list (option Q)) : result acc_result :=
  let num := size0 pred in
  if negb (num =? Z.of_nat (length target))
  then raise (AssertionError
                (size_mismatch_msg num (Z.of_nat (length target))))
  else
    match pred with
    | Labels pred =>
        let correct := count_true (zip_with Z.eqb pred target) in
        d <- py_div 100 num ;;
        ret (AccTensor (inject_Z correct * d)%Q)
    | Scores pred =>
        maxk <- py_max topk ;;
        if size1 pred <? maxk
        then raise (ValueError (topk_unavailable_msg maxk (size1 pred)))
        else
          '(pred_score, pred_label) <- tensor_topk pred maxk ;;
          let pred_label := transpose maxk pred_label in
          let correct := map (fun row => zip_with Z.eqb row target) pred_label in
          let pred_score_t := transpose maxk pred_score in
          results <-
            mapM (fun k =>
              mapM (fun thr =>
                let _correct := apply_thr thr correct pred_score_t in
                let correct_k := count_true (concat (slice_to k _correct)) in
                d <- py_div 100 num ;;
                ret (inject_Z correct_k * d)%Q) thrs) topk ;;
          ret (AccTable results)
    end.

Definition process_one (data : DataDict) (pred : PredDict) : result ResultDict :=
  pred_label <- getitem "pred_label" (p_pred_label pred) ;;
  data_sample <- getitem "data_sample" (d_data_sample data) ;;
  default <- getitem "gt_label" (ds_gt_label data_sample) ;;
  let gt_label := match p_gt_label pred with Some g => g | None => default end in
  match ld_score pred_label with
  | Some score =>
      gt <- getitem "label" (ld_label gt_label) ;;
      ret {| r_pred_score := Some score; r_pred_label := None;
             r_num_classes := None; r_gt_label := gt |}
  | None =>
      label <- getitem "label" (ld_label pred_label) ;;
      gt <- getitem "label" (ld_label gt_label) ;;
      ret {| r_pred_score := None; r_pred_label := Some label;
             r_num_classes := None; r_gt_label := gt |}
  end.

Definition process := process_with process_one.

Definition check_config_msg : string :=
  " Please check the `val_evaluator` and `test_evaluator` fields in your config file.".

Definition metric_name (multi_thrs : bool) (k : Z) (thr : option Q) : string :=
  (("top" ++ str_of_int k) ++ (if multi_thrs then thr_suffix thr else ""))%string.

Definition compute_metrics (self : config) (results : list ResultDict)
  : result (dict Q) :=
  target <- torch_cat (map r_gt_label results) ;;
  first <- index results 0 ;;
  match r_pred_score first with
  | Some _ =>
      scores <- mapM (fun res => getitem "pred_score" (r_pred_score res)) results ;;
      pred <- torch_stack scores ;;
      acc <- match calculate (Scores pred) target (topk self) (thrs self) with
             | inl (ValueError e) => raise (ValueError (e ++ check_config_msg))
             | other => other
             end ;;
      match acc with
      | AccTensor _ => raise (RuntimeError "acc is not a table")
      | AccTable acc =>
          let multi_thrs := (1 <? length (thrs self))%nat in
          foldM (fun metrics ik =>
            foldM (fun metrics jthr =>
              row <- index acc (fst ik) ;;
              a <- index row (fst jthr) ;;
              ret (dict_set (metric_name multi_thrs (snd ik) (snd jthr)) a metrics))
              metrics (enumerate (thrs self)))
            [] (enumerate (topk self))
      end
  | None =>
      labels <- mapM (fun res => getitem "pred_label" (r_pred_label res)) results ;;
      pred <- torch_cat labels ;;
      acc <- calculate (Labels pred) target (topk self) (thrs self) ;;
      match acc with
      | AccTensor a => ret (dict_set "top1" a [])
      | AccTable _ => raise (RuntimeError "acc is not a tensor")
      end
  end.

(** A run: every batch is processed in turn into [self.results], then
    the metrics are computed from the accumulated records. *)
Definition evaluate (self : config)
  (batches : list (list DataDict * list PredDict)) : result (dict Q) :=
  results <- foldM (fun rs b => process rs (fst b) (snd b)) [] batches ;;
  compute_metrics self results.

End Accuracy.

(** ** SingleLabelMetric *)

Module SingleLabelMetric.

Record config : Type := {
  thrs : list (option Q);
  items : list string;
  average : option string
}.

(** precision, recall, f1-score, support *)
Definition prfs : Type :=
  (tensor tfloat * tensor tfloat * tensor tfloat * tensor Z)%type.

Inductive calc_result : Type :=
| Single (r : prfs)            (* label input *)
| PerThr (rs : list prfs).     (* score input, one tuple per threshold *)

(** A tensor held in the [metrics] dict. *)
Inductive mval : Type :=
| FloatT (t : tensor tfloat)
| IntT (t : tensor Z).

(** A value of the returned dict. *)
Inductive pyval : Type :=
| PyFloat (x : tfloat)
| PyInt (z : Z)
| PyFloatList (l : list tfloat)
| PyIntList (l : list Z).

Definition num_classes_msg : string :=
  "Please specicy the `num_classes` if the `pred` is labels intead of scores.".

(** [pred_positive[pred_score <= thr] = 0] *)
Definition mask_rows (thr : Q) (pred_positive : matrix) (pred_score : list Q)
  : matrix :=
  {| ncols := ncols pred_positive;
     rows := zip_with (fun row s =>
                         if Qle_bool s thr then map (fun _ => 0) row else row)
                      (rows pred_positive) pred_score |}.

Definition calculate (pred : prediction) (target : list Z)
  (thrs : list (option Q)) (average : option string)
  (num_classes : option Z) : result calc_result :=
  if negb (average_options_ok average)
  then raise (AssertionError invalid_average_msg)
  else if negb (size0 pred =? Z.of_nat (length target))
  then raise (AssertionError
                (size_mismatch_msg (size0 pred) (Z.of_nat (length target))))
  else
    match pred with
    | Labels pred =>
        match num_classes with
        | None => raise (AssertionError num_classes_msg)
        | Some num_classes =>
            gt_positive <- one_hot target num_classes ;;
            pred_positive <- one_hot pred num_classes ;;
            r <- _precision_recall_f1_support pred_positive gt_positive average ;;
            ret (Single r)
        end
    | Scores pred =>
        let num_classes := size1 pred in
        '(pred_score, pred_label) <- tensor_topk pred 1 ;;
        let pred_score := concat pred_score in
        let pred_label := concat pred_label in
        gt_positive <- one_hot target num_classes ;;
        results <-
          mapM (fun thr =>
            pred_positive <- one_hot pred_label num_classes ;;
            let pred_positive :=
              match thr with
              | Some t => mask_rows t pred_positive pred_score
              | None => pred_positive
              end in
            _precision_recall_f1_support pred_positive gt_positive average)
            thrs ;;
        ret (PerThr results)
    end.

Definition missing_score_msg : string :=
  "The `pred_label` in predictions do not have neither `score` nor `num_classes`.".

Definition process_one (data : DataDict) (pred : PredDict) : result ResultDict :=
  pred_label <- getitem "pred_label" (p_pred_label pred) ;;
  data_sample <- getitem "data_sample" (d_data_sample data) ;;
  default <- getitem "gt_label" (ds_gt_label data_sample) ;;
  let gt_label := match p_gt_label pred with Some g => g | None => default end in
  match ld_score pred_label with
  | Some score =>
      gt <- getitem "label" (ld_label gt_label) ;;
      ret {| r_pred_score := Some score; r_pred_label := None;
             r_num_classes := None; r_gt_label := gt |}
  | None =>
      match ld_num_classes pred_label, ds_num_classes data_sample with
      | None, None => raise (ValueError missing_score_msg)
      | own, _ =>
          label <- getitem "label" (ld_label pred_label) ;;
          num_classes <-
            match own with
            | Some n => if n =? 0
                        then getitem "num_classes" (ds_num_classes data_sample)
                        else ret n
            | None => getitem "num_classes" (ds_num_classes data_sample)
            end ;;
          gt <- getitem "label" (ld_label gt_label) ;;
          ret {| r_pred_score := None; r_pred_label := Some label;
                 r_num_classes := Some num_classes; r_gt_label := gt |}
      end
  end.

Definition process := process_with process_one.

Definition has_item (self : config) (item : string) : bool :=
  existsb (String.eqb item) (items self).

Definition pack_results (self : config) (r : prfs) : dict mval :=
  let '(precision, recall, f1_score, support) := r in
  let m := [] in
  let m := if has_item self "precision"
           then dict_set "precision" (FloatT precision) m else m in
  let m := if has_item self "recall"
           then dict_set "recall" (FloatT recall) m else m in
  let m := if has_item self "f1-score"
           then dict_set "f1-score" (FloatT f1_score) m else m in
  if has_item self "support"
  then dict_set "support" (IntT support) m else m.

(** [v.item()] *)
Definition item (v : mval) : result pyval :=
  match v with
  | FloatT (Scalar x) | FloatT (Vec [x]) => ret (PyFloat x)
  | IntT (Scalar z) | IntT (Vec [z]) => ret (PyInt z)
  | _ => raise (RuntimeError
                  "a Tensor with several elements cannot be converted to Scalar")
  end.

(** [v.cpu().detach().tolist()] *)
Definition tolist (v : mval) : pyval :=
  match v with
  | FloatT (Scalar x) => PyFloat x
  | FloatT (Vec l) => PyFloatList l
  | IntT (Scalar z) => PyInt z
  | IntT (Vec l) => PyIntList l
  end.

Definition compute_metrics (self : config) (results : list ResultDict)
  : result (dict pyval) :=
  target <- torch_cat (map r_gt_label results) ;;
  first <- index results 0 ;;
  metrics <-
    match r_pred_score first with
    | Some _ =>
        scores <- mapM (fun res => getitem "pred_score" (r_pred_score res)) results ;;
        pred <- torch_stack scores ;;
        metrics_list <- calculate (Scores pred) target (thrs self) (average self) None ;;
        match metrics_list with
        | Single _ => raise (RuntimeError "metrics_list is not a list")
        | PerThr metrics_list =>
            let multi_thrs := (1 <? length (thrs self))%nat in
            foldM (fun metrics ithr =>
              let suffix := if multi_thrs then thr_suffix (snd ithr) else ""%string in
              r <- index metrics_list (fst ithr) ;;
              ret (fold_left (fun metrics kv =>
                               dict_set (fst kv ++ suffix)%string (snd kv) metrics)
                             (pack_results self r) metrics))
              [] (enumerate (thrs self))
        end
    | None =>
        labels <- mapM (fun res => getitem "pred_label" (r_pred_label res)) results ;;
        pred <- torch_cat labels ;;
        num_classes <- getitem "num_classes" (r_num_classes first) ;;
        res <- calculate (Labels pred) target [Some 0%Q] (average self)
                         (Some num_classes) ;;
        match res with
        | Single r => ret (pack_results self r)
        | PerThr _ => raise (RuntimeError "res is not a tuple")
        end
    end ;;
  foldM (fun result_metrics kv =>
    match average self with
    | None =>
        ret (dict_set (fst kv ++ "_classwise")%string (tolist (snd kv))
                      result_metrics)
    | Some a =>
        v <- item (snd kv) ;;
        if (a =? "micro")%string
        then ret (dict_set (fst kv ++ "_" ++ a)%string v result_metrics)
        else ret (dict_set (fst kv) v result_metrics)
    end) [] metrics.

Definition evaluate (self : config)
  (batches : list (list DataDict * list PredDict)) : result (dict pyval) :=
  results <- foldM (fun rs b => process rs (fst b) (snd b)) [] batches ;;
  compute_metrics self results.

End SingleLabelMetric.

(** ** Notions used in the statements *)

(** The stored records of a run on score predictions with [c] classes:
    every record holds a score vector of [c] entries and one true label. *)
Definition score_record (c : nat) (r : ResultDict) : Prop :=
  (exists s, r_pred_score r = Some s /\ length s = c)
  /\ length (r_gt_label r) = 1%nat.

(** One entry of [tp_sum / torch.clamp(sum, min=1.) * 100]. *)
Definition ratio100 (tp s : Z) : Q :=
  (inject_Z tp / Qmax (inject_Z s) 1 * 100)%Q.

(** One entry of [2 * precision * recall / torch.clamp(precision + recall,
    min=eps)] on finite precision and recall. *)
Definition f1_value (p r : Q) : Q := (2 * p * r / Qmax (p + r) f1_eps)%Q.

(** [t[c]] on a 1-D tensor. *)
Definition tensor_get {A} (t : tensor A) (c : nat) : option A :=
  match t with
  | Scalar _ => None
  | Vec l => nth_error l c
  end.

(** [correct] of line 251, of shape (maxk, N). *)
Definition topk_correct (pred : score_matrix) (target : list Z) (maxk : Z)
  : list (list bool) :=
  map (fun row => zip_with Z.eqb row target)
      (transpose maxk (map snd (map (topk_row maxk) (srows pred)))).

(** [pred_score.t()], of shape (maxk, N). *)
Definition topk_scores_t (pred : score_matrix) (maxk : Z) : list (list Q) :=
  transpose maxk (map fst (map (topk_row maxk) (srows pred))).

(** The number of correct predictions among the first [k] ranks under the
    threshold [thr]. *)
Definition correct_k (pred : score_matrix) (target topk : list Z)
  (k : Z) (thr : option Q) : Z :=
  count_true
    (concat
       (slice_to k
          (Accuracy.apply_thr thr (topk_correct pred target (zmax_list topk))
                         (topk_scores_t pred (zmax_list topk))))).

(** [below l1 l2]: same length, and true in [l1] only where true in [l2]. *)
Definition below (l1 l2 : list bool) : Prop :=
  Forall2 (fun a b => a = true -> b = true) l1 l2.

(** The two sequences [process] receives for a list of samples. *)
Definition as_batch (samples : list (DataDict * PredDict))
  : list DataDict * list PredDict :=
  (map fst samples, map snd samples).

(** ** Constructors *)


(** The [thrs] argument of both constructors: a float, None or a
    sequence. *)
Inductive thrs_arg : Type :=
| ThrsFloat (t : Q)
| ThrsNone
| ThrsSeq (l : list (option Q)).

(** Lines 121-124 and 376-379. *)
Definition init_thrs (thrs : thrs_arg) : list (option Q) :=
  match thrs with
  | ThrsFloat t => [Some t]
  | ThrsNone => [None]
  | ThrsSeq l => l
  end.


Definition supported_items : list string :=
  ["precision"; "recall"; "f1-score"; "support"]%string.

Definition dquote : string := String (Ascii.ascii_of_nat 34) EmptyString.

Definition unsupported_item_msg (item : string) : string :=
  ("The metric " ++ item
     ++ " is not supported by `SingleLabelMetric`, please specicy from "
     ++ dquote ++ "precision" ++ dquote ++ ", "
     ++ dquote ++ "recall" ++ dquote ++ ", "
     ++ dquote ++ "f1-score" ++ dquote ++ " and "
     ++ dquote ++ "support" ++ dquote ++ ".")%string.

(** [SingleLabelMetric.__init__]: the first unsupported item fails the
    assertion; [average] is stored as given. *)
Definition SingleLabelMetric_init (thrs : thrs_arg) (items : list string)
  (average : option string) : result SingleLabelMetric.config :=
  match find (fun item => negb (existsb (String.eqb item) supported_items))
             items with
  | Some item => raise (AssertionError (unsupported_item_msg item))
  | None => ret {| SingleLabelMetric.thrs := init_thrs thrs;
                   SingleLabelMetric.items := items;
                   SingleLabelMetric.average := average |}
  end.

(** ** Counts behind the confusion reduction *)

(** The number of entries of [labels] equal to the class [c]. *)
Definition count_label (labels : list Z) (c : Z) : Z :=
  count_true (map (fun l => l =? c) labels).

(** The number of samples predicted as [c] whose target is [c]. *)
Definition count_hit (pred target : list Z) (c : Z) : Z :=
  count_true (zip_with (fun p t => (p =? c) && (t =? c)) pred target).

Definition qsum (l : list Q) : Q := fold_right Qplus 0%Q l.

(** The class of the highest score of every sample. *)
Definition argmax_labels (pred : score_matrix) : list Z :=
  concat (map snd (map (topk_row 1) (srows pred))).

(** Every row of a score tensor has [size1] entries. *)
Definition well_shaped (pred : score_matrix) : Prop :=
  0 <= size1 pred
  /\ Forall (fun row => length row = Z.to_nat (size1 pred)) (srows pred).

(** The stored records of a run on label predictions: no score, one
    predicted label and one true label per record. *)
Definition label_record (r : ResultDict) : Prop :=
  r_pred_score r = None
  /\ (exists l, r_pred_label r = Some [l])
  /\ length (r_gt_label r) = 1%nat.

(** ** The tensors [compute_metrics] builds from the stored records *)

(** [torch.cat([res['gt_label'] for res in results])] *)
Definition stored_targets (results : list ResultDict) : list Z :=
  concat (map r_gt_label results).

(** The rows of [torch.stack([res['pred_score'] for res in results])]. *)
Definition stored_scores (results : list ResultDict) : list (list Q) :=
  map (fun r => match r_pred_score r with Some s => s | None => [] end)
      results.

(** [torch.cat([res['pred_label'] for res in results])] *)
Definition stored_labels (results : list ResultDict) : list Z :=
  concat (map (fun r => match r_pred_label r with Some l => l | None => [] end)
              results).

(** The (k, thr) pairs of the naming loop of lines 177-182, in order. *)
Definition topk_thr_pairs (self : Accuracy.config) : list (Z * option Q) :=
  flat_map (fun k => map (fun thr => (k, thr)) (Accuracy.thrs self))
           (Accuracy.topk self).

(** A finite float between 0 and 100. *)
Definition percent (x : tfloat) : Prop :=
  exists q, x = Fin q /\ (0 <= q <= 100)%Q.

(** Every entry of a tensor satisfies [P]. *)
Definition tensor_all {A} (P : A -> Prop) (t : tensor A) : Prop :=
  match t with
  | Scalar a => P a
  | Vec l => Forall P l
  end.

(** Column [j] of a list of rows. *)
Definition column {A} (j : nat) (m : list (list A)) : list A :=
  flat_map (fun r => firstn 1 (skipn j r)) m.

(** The highest score of every sample. *)
Definition top_scores (pred : score_matrix) : list Q :=
  concat (map fst (map (topk_row 1) (srows pred))).

(** A threshold that no highest score fails: None, or a value below all of
    them. *)
Definition thr_inactive (pred : score_matrix) (thr : option Q) : Prop :=
  match thr with
  | None => True
  | Some t => Forall (fun s => (t < s)%Q) (top_scores pred)
  end.

(** The name [SingleLabelMetric.compute_metrics] gives to an item (with a
    single threshold or on label records). *)
Definition item_name (average : option string) (item : string) : string :=
  match average with
  | None => (item ++ "_classwise")%string
  | Some a => if (a =? "micro")%string then (item ++ "_" ++ a)%string else item
  end.

(** The label every sample counts as predicted under a threshold: the class
    of its highest score, or -1 (no class) when that score does not exceed
    the threshold. *)
Definition gated_labels (pred : score_matrix) (thr : option Q) : list Z :=
  match thr with
  | None => argmax_labels pred
  | Some t =>
      zip_with (fun l s => if Qle_bool s t then -1 else l)
               (argmax_labels pred) (top_scores pred)
  end.

(** The per-class tuple of counts of predicted labels against targets. *)
Definition classwise_by_counts (pred target : list Z) (num_classes : Z)
  : SingleLabelMetric.prfs :=
  let precision c := ratio100 (count_hit pred target c) (count_label pred c) in
  let recall c := ratio100 (count_hit pred target c) (count_label target c) in
  (Vec (map Fin (map precision (zrange num_classes))),
   Vec (map Fin (map recall (zrange num_classes))),
   Vec (map Fin (map (fun c => f1_value (precision c) (recall c))
                     (zrange num_classes))),
   Vec (map (count_label target) (zrange num_classes))).

(** ** Binary floating-point rounding *)

(** 2^k for an integer k of either sign. *)
Definition pow2 (k : Z) : Q := (2 ^ k)%Q.

(** floor(log2 |x|) of a non-zero rational. *)
Definition ilog2 (x : Q) : Z :=
  let k := Z.log2 (Z.abs (Qnum x)) - Z.log2 (Zpos (Qden x)) in
  if Qle_bool (pow2 k) (Qabs x) then k else k - 1.

(** Significand bits, least exponent (of the last subnormal bit) and the
    exponent of the overflow threshold of the IEEE-754 formats. *)
Definition mant_bits (d : dtype) : Z :=
  match d with float16 => 11 | bfloat16 => 8 | float32 => 24 | float64 => 53 end.

Definition min_exp (d : dtype) : Z :=
  match d with
  | float16 => -24 | bfloat16 => -133 | float32 => -149 | float64 => -1074
  end.

Definition max_exp (d : dtype) : Z :=
  match d with
  | float16 => 16 | bfloat16 => 128 | float32 => 128 | float64 => 1024
  end.

(** Rounding to nearest, ties to even, with the exponent unbounded above. *)
Definition round_to (d : dtype) (x : Q) : Q :=
  if Qeq_bool x 0 then 0
  else
    let e := Z.max (ilog2 x - (mant_bits d - 1)) (min_exp d) in
    (inject_Z (round_half_even (x / pow2 e)) * pow2 e)%Q.

(** The value a float operation stores: the exact result rounded to the
    format, an infinity beyond the largest finite value. *)
Definition tround (d : dtype) (x : tfloat) : tfloat :=
  match x with
  | Fin q =>
      let y := round_to d q in
      if Qle_bool (pow2 (max_exp d)) (Qabs y) then inf_of_sign (Qneg_bool y)
      else Fin y
  | other => other
  end.

(** ** The float32 arithmetic of the tensors *)

Module Float32.

(** What a float32 tensor stores of an exact result. *)
Definition rnd : tfloat -> tfloat := tround float32.

(** [t.float()] on an entry of an int64 tensor. *)
Definition of_int (z : Z) : tfloat := rnd (Fin (inject_Z z)).

Definition add (x y : tfloat) : tfloat := rnd (tadd x y).
Definition mul (x y : tfloat) : tfloat := rnd (tmul x y).
Definition div (x y : tfloat) : tfloat := rnd (tdiv x y).

(** A Python float (binary64) as an operand of a float32 tensor
    operation: the scalar is taken in the dtype of the tensor. *)
Definition of_py_float (x : Q) : tfloat := rnd (tround float64 (Fin x)).

(** [torch.clamp(t, min=1).float()] on an int tensor. *)
Definition clamp_min_int (m : Z) (t : tensor Z) : tensor tfloat :=
  tmap (fun z => of_int (Z.max z m)) t.

Definition precision_of (tp_sum pred_sum : tensor Z) : tensor tfloat :=
  tmap (fun x => mul x (Fin 100))
    (tmap2 div (tmap of_int tp_sum) (clamp_min_int 1 pred_sum)).

Definition recall_of (tp_sum gt_sum : tensor Z) : tensor tfloat :=
  tmap (fun x => mul x (Fin 100))
    (tmap2 div (tmap of_int tp_sum) (clamp_min_int 1 gt_sum)).

Definition f1_score_of (precision recall : tensor tfloat) : tensor tfloat :=
  tmap2 div
    (tmap2 mul (tmap (mul (Fin 2)) precision) recall)
    (tmap (tclamp_min f1_eps) (tmap2 add precision recall)).

(** [t.mean(0)].  torch does not fix the order in which the entries of a
    1-D tensor are added; they are added from left to right here.  A 0-dim
    tensor is its own mean. *)
Definition mean0 (t : tensor tfloat) : tensor tfloat :=
  match t with
  | Scalar a => Scalar a
  | Vec l =>
      Scalar (div (fold_left add l (Fin 0)) (of_int (Z.of_nat (length l))))
  end.

(** Lines 24-52 with the float32 operations written out. *)
Definition _precision_recall_f1_support
  (pred_positive gt_positive : matrix) (average : option string)
  : result (tensor tfloat * tensor tfloat * tensor tfloat * tensor Z) :=
  if negb (average_options_ok average)
  then raise (AssertionError invalid_average_msg)
  else
    let '(tp_sum, pred_sum, gt_sum) :=
      confusion_sums pred_positive gt_positive average in
    let precision := precision_of tp_sum pred_sum in
    let recall := recall_of tp_sum gt_sum in
    let f1_score := f1_score_of precision recall in
    if average_is average "macro" || average_is average "micro"
    then ret (mean0 precision, mean0 recall, mean0 f1_score, tsum0 gt_sum)
    else ret (precision, recall, f1_score, gt_sum).

(** [correct.mul_(100. / num)] of lines 237 and 263: the quotient is a
    Python float. *)
Definition scale (correct : tfloat) (num : Z) : result tfloat :=
  d <- py_div 100 num ;;
  ret (mul correct (of_py_float d)).

(** The label branch of [Accuracy.calculate] (lines 226-238).  The sum of
    the 0/1 floats is the count itself as long as it is below 2^24, which
    holds for N <= 2^24 samples. *)
Definition calculate (pred target : list Z)
  (topk : list Z) (thrs : list (option Q)) : result tfloat :=
  let num := Z.of_nat (length pred) in
  if negb (num =? Z.of_nat (length target))
  then raise (AssertionError
                (size_mismatch_msg num (Z.of_nat (length target))))
  else
    let correct := of_int (count_true (zip_with Z.eqb pred target)) in
    scale correct num.

End Float32.

(** The unit roundoff of float32 and its complement. *)
Definition u32 : Q := 1 # 16777216.
Definition w32 : Q := 16777215 # 16777216.

Fixpoint wpow (k : nat) : Q :=
  match k with
  | O => 1
  | S k' => w32 * wpow k'
  end.

(** [y] is [x] up to [k] float32 roundings. *)
Definition near (k : nat) (x y : Q) : Prop :=
  (x * wpow k <= y /\ y * wpow k <= x)%Q.

(** One float32 rounding, and the expressions of lines 41-44 on it. *)
Definition f32 (x : Q) : Q := round_to float32 x.

Definition ratio100_f32 (tp s : Z) : Q :=
  f32 (f32 (f32 (inject_Z tp) / f32 (inject_Z (Z.max s 1))) * 100)%Q.

Definition f1_value_f32 (p r : Q) : Q :=
  f32 (f32 (f32 (2 * p) * r) / Qmax (f32 (p + r)) f1_eps)%Q.

(** [correct.mul_(100. / num)] on a count. *)
Definition scale_f32 (c n : Z) : Q :=
  f32 (f32 (inject_Z c) * f32 (round_to float64 (100 / inject_Z n)))%Q.

(** 2^100, a bound far below the overflow threshold of float32. *)
Definition two_100 : Q := 1267650600228229401496703205376%Q.

Local Open Scope Q_scope.

(** What the float32 proofs need of the values behind
    [ratio100_f32 tp n]. *)
Record ratio_facts (tp n : Z) : Prop := {
  rf_a : 0 <= f32 (inject_Z tp) <= two_100;
  rf_b : 0 < f32 (inject_Z (Z.max n 1)) <= two_100;
  rf_ab : 0 <= f32 (inject_Z tp) / f32 (inject_Z (Z.max n 1)) <= 2;
  rf_q : 0 <= f32 (f32 (inject_Z tp) / f32 (inject_Z (Z.max n 1))) <= 3;
  rf_p : 0 <= ratio100_f32 tp n <= 128;
  rf_p0 : tp = 0%Z -> ratio100_f32 tp n = 0;
  rf_p1 : (1 <= tp)%Z ->
          (1 # 1152921504606846976) <= ratio100_f32 tp n;
  rf_near : (1 <= tp)%Z ->
            near 4 (inject_Z tp / inject_Z (Z.max n 1) * 100)
                 (ratio100_f32 tp n)
}.

Local Close Scope Q_scope.

(** * Properties *)

(** ** Generic lemmas on the helpers *)

Lemma bind_ret_inv {A B} (m : result A) (f : A -> result B) (b : B) :
  bind m f = inr b -> exists a, m = inr a /\ f a = inr b.
Proof.
  destruct m as [e | a]; simpl; intros H; [discriminate | eauto].
Qed.

Lemma py_max_nonempty (l : list Z) :
  l <> [] -> py_max l = inr (zmax_list l).
Proof.
  destruct l as [| a l']; [congruence | reflexivity].
Qed.

Lemma py_div_nonzero (a : Q) (b : Z) :
  b <> 0 -> py_div a b = inr (a / inject_Z b)%Q.
Proof.
  intros Hb. unfold py_div.
  destruct (Z.eqb_spec b 0); [contradiction | reflexivity].
Qed.

Lemma inject_Z_nonzero (z : Z) : z <> 0 -> ~ (inject_Z z == 0)%Q.
Proof.
  intros Hz H. apply Hz. unfold Qeq in H. simpl in H.
  rewrite Z.mul_1_r in H. exact H.
Qed.

Lemma count_true_nonneg (l : list bool) : 0 <= count_true l.
Proof. unfold count_true. lia. Qed.

Lemma count_true_cons (b : bool) (l : list bool) :
  count_true (b :: l) = (if b then 1 else 0) + count_true l.
Proof.
  unfold count_true. destruct b; cbn [filter length]; lia.
Qed.

Lemma count_true_app (l1 l2 : list bool) :
  count_true (l1 ++ l2) = count_true l1 + count_true l2.
Proof.
  unfold count_true. rewrite filter_app, length_app. lia.
Qed.

Lemma zip_with_cons {A B C} (f : A -> B -> C) a b l1 l2 :
  zip_with f (a :: l1) (b :: l2) = f a b :: zip_with f l1 l2.
Proof. reflexivity. Qed.

Lemma zip_with_length {A B C} (f : A -> B -> C) l1 l2 :
  length (zip_with f l1 l2) = Nat.min (length l1) (length l2).
Proof.
  unfold zip_with. rewrite length_map. apply length_combine.
Qed.

Lemma count_true_eqb_same (l : list Z) :
  count_true (zip_with Z.eqb l l) = Z.of_nat (length l).
Proof.
  induction l as [| a l IH].
  - reflexivity.
  - rewrite zip_with_cons, count_true_cons, IH, Z.eqb_refl.
    simpl length. lia.
Qed.

(** ** Accuracy on label input *)


(** The empty label input is outside the quotient's domain: the division
    [100. / num] raises. *)
Lemma accuracy_labels_empty topk thrs :
  Accuracy.calculate (Labels []) [] topk thrs
  = inl (ZeroDivisionError "float division by zero").
Proof. reflexivity. Qed.

(** ** Sample-count mismatch *)

Lemma accuracy_size_mismatch (pred : prediction) (target : list Z) topk thrs :
  size0 pred <> Z.of_nat (length target) ->
  Accuracy.calculate pred target topk thrs
  = inl (AssertionError
           (size_mismatch_msg (size0 pred) (Z.of_nat (length target)))).
Proof.
  intros Hsize. apply Z.eqb_neq in Hsize.
  unfold Accuracy.calculate. rewrite Hsize. reflexivity.
Qed.

(** C9.  When the number of prediction samples differs from the number of
    target samples, [Accuracy.calculate] and [SingleLabelMetric.calculate]
    both raise an AssertionError and return no metric value. *)
Theorem calculate_size_mismatch_fails
  (pred : prediction) (target : list Z)
  (Hsize : size0 pred <> Z.of_nat (length target)) :
  (forall topk thrs,
      Accuracy.calculate pred target topk thrs
      = inl (AssertionError
               (size_mismatch_msg (size0 pred) (Z.of_nat (length target)))))
  /\ (forall thrs average num_classes,
         exists msg,
           SingleLabelMetric.calculate pred target thrs average num_classes
           = inl (AssertionError msg)).
Proof.
  split.
  - intros topk thrs. apply accuracy_size_mismatch. exact Hsize.
  - apply Z.eqb_neq in Hsize.
    intros thrs average num_classes. unfold SingleLabelMetric.calculate.
    destruct (average_options_ok average); simpl negb; cbv iota.
    + rewrite Hsize. simpl. eauto.
    + eauto.
Qed.

Lemma calculate_size_mismatch_fails_witness :
  Accuracy.calculate (Labels [0; 1; 2]) [0; 1] [1] [Some 0%Q]
  = inl (AssertionError "The size of pred (3) doesn't match the target (2).")
  /\ exists msg,
      SingleLabelMetric.calculate (Labels [0; 1; 2]) [0; 1] [Some 0%Q]
        (Some "macro"%string) (Some 3)
      = inl (AssertionError msg).
Proof.
  destruct (calculate_size_mismatch_fails (Labels [0; 1; 2]) [0; 1])
    as [Hacc Hslm]; [simpl; lia |].
  split; [apply (Hacc [1] [Some 0%Q]) | apply Hslm].
Defined.

(** ** Top-k larger than the class count *)

Lemma accuracy_topk_too_large (pred : score_matrix) target topk thrs :
  topk <> [] -> size1 pred < zmax_list topk ->
  Z.of_nat (length (srows pred)) = Z.of_nat (length target) ->
  Accuracy.calculate (Scores pred) target topk thrs
  = inl (ValueError
           (Accuracy.topk_unavailable_msg (zmax_list topk) (size1 pred))).
Proof.
  intros Hne Hk Hlen. unfold Accuracy.calculate. simpl size0.
  rewrite Hlen, Z.eqb_refl. simpl negb. cbv iota.
  rewrite (py_max_nonempty _ Hne). simpl bind.
  apply Z.ltb_lt in Hk. rewrite Hk. reflexivity.
Qed.

Lemma mapM_getitem_some {A B} (key : string) (f : A -> option B)
  (g : A -> B) (l : list A) :
  Forall (fun a => f a = Some (g a)) l ->
  mapM (fun a => getitem key (f a)) l = inr (map g l).
Proof.
  induction 1 as [| a l Ha _ IH]; simpl.
  - reflexivity.
  - rewrite Ha, IH. reflexivity.
Qed.

Lemma length_concat_singletons {A B} (f : A -> list B) (l : list A) :
  Forall (fun a => length (f a) = 1%nat) l ->
  length (concat (map f l)) = length l.
Proof.
  induction 1 as [| a l Ha _ IH]; simpl.
  - reflexivity.
  - rewrite length_app, Ha, IH. reflexivity.
Qed.

Lemma score_records_stack (c : nat) (results : list ResultDict) :
  results <> [] -> Forall (score_record c) results ->
  exists scores,
    mapM (fun res => getitem "pred_score" (r_pred_score res)) results
    = inr scores
    /\ torch_stack scores
       = inr {| size1 := Z.of_nat c; srows := scores |}
    /\ length scores = length results.
Proof.
  intros Hne Hall.
  assert (Hm : exists scores,
             mapM (fun res => getitem "pred_score" (r_pred_score res)) results
             = inr scores
             /\ Forall (fun s => length s = c) scores
             /\ length scores = length results).
  { clear Hne. induction Hall as [| r l [[s [Hs Hc]] _] _ IH].
    - exists []. repeat split. constructor.
    - destruct IH as [scores (Hm & Hf & Hl)].
      exists (s :: scores). simpl. rewrite Hs, Hm. simpl.
      repeat split; [constructor; assumption | congruence]. }
  destruct Hm as [scores (Hm & Hf & Hl)].
  exists scores. split; [exact Hm |]. split; [| exact Hl].
  destruct scores as [| s scores].
  - destruct results; [congruence | discriminate].
  - unfold torch_stack. inversion Hf as [| ? ? Hs Hrest]; subst.
    assert (Hb : forallb (fun r' => Nat.eqb (length r') (length s)) scores
                 = true).
    { apply forallb_forall. intros x Hx. apply Nat.eqb_eq.
      rewrite Forall_forall in Hrest. apply Hrest. exact Hx. }
    rewrite Hb. reflexivity.
Qed.

(** C7.  On a score input with C classes, a non-empty [topk] whose maximum
    exceeds C makes [Accuracy.calculate] fail: always with an exception,
    and with the ValueError naming the top-k and C whenever the sample
    counts agree.  At [compute_metrics] that ValueError is raised again,
    its message extended by the request to check the [val_evaluator] and
    [test_evaluator] fields; it is not swallowed. *)
Theorem accuracy_topk_exceeds_classes
  (pred : score_matrix) (target : list Z) (topk : list Z)
  (thrs : list (option Q))
  (Hne : topk <> []) (Hk : size1 pred < zmax_list topk) :
  (exists e, Accuracy.calculate (Scores pred) target topk thrs = inl e)
  /\ (Z.of_nat (length (srows pred)) = Z.of_nat (length target) ->
      Accuracy.calculate (Scores pred) target topk thrs
      = inl (ValueError
               (Accuracy.topk_unavailable_msg (zmax_list topk) (size1 pred))))
  /\ (forall results : list ResultDict,
         results <> [] ->
         Forall (score_record (Z.to_nat (size1 pred))) results ->
         0 <= size1 pred ->
         Accuracy.compute_metrics
           {| Accuracy.topk := topk; Accuracy.thrs := thrs |} results
         = inl (ValueError
                  (Accuracy.topk_unavailable_msg (zmax_list topk) (size1 pred)
                     ++ Accuracy.check_config_msg))).
Proof.
  split; [| split].
  - destruct (Z.eq_dec (Z.of_nat (length (srows pred)))
                       (Z.of_nat (length target))) as [Heq | Hneq].
    + eexists. apply accuracy_topk_too_large; assumption.
    + eexists. apply accuracy_size_mismatch. exact Hneq.
  - intros Hlen. apply accuracy_topk_too_large; assumption.
  - intros results Hres Hall Hc.
    destruct (score_records_stack _ _ Hres Hall) as [scores (Hm & Hst & Hl)].
    unfold Accuracy.compute_metrics.
    destruct results as [| r0 results']; [congruence |].
    unfold torch_cat. cbn [map]. cbv beta iota. cbn [bind ret].
    unfold index. cbn [nth_error bind ret].
    inversion Hall as [| ? ? [[s0 [Hs0 _]] _] _]; subst.
    rewrite Hs0, Hm. cbn [bind]. rewrite Hst. cbn [bind Accuracy.topk Accuracy.thrs].
    rewrite Z2Nat.id by exact Hc.
    rewrite (accuracy_topk_too_large
               {| size1 := size1 pred; srows := scores |}); try assumption.
    + reflexivity.
    + cbn [srows]. rewrite Hl.
      change (r_gt_label r0 :: map r_gt_label results')
        with (map r_gt_label (r0 :: results')).
      rewrite (length_concat_singletons r_gt_label).
      * reflexivity.
      * eapply Forall_impl; [| exact Hall]. intros a [_ Ha]. exact Ha.
Qed.

Lemma accuracy_topk_exceeds_classes_witness :
  Accuracy.calculate
    (Scores {| size1 := 3; srows := [[0.1; 0.7; 0.2]; [0.5; 0.3; 0.2]]%Q |})
    [1; 0] [1; 5] [Some 0%Q]
  = inl (ValueError
           "Top-5 accuracy is unavailable since the number of categories is 3.")
  /\ Accuracy.compute_metrics
       {| Accuracy.topk := [1; 5]; Accuracy.thrs := [Some 0%Q] |}
       [ {| r_pred_score := Some [0.1; 0.7; 0.2]%Q; r_pred_label := None;
            r_num_classes := None; r_gt_label := [1] |} ]
     = inl (ValueError
              "Top-5 accuracy is unavailable since the number of categories is 3. Please check the `val_evaluator` and `test_evaluator` fields in your config file.").
Proof.
  destruct (accuracy_topk_exceeds_classes
              {| size1 := 3; srows := [[0.1; 0.7; 0.2]; [0.5; 0.3; 0.2]]%Q |}
              [1; 0] [1; 5] [Some 0%Q])
    as (_ & Hcalc & Hfin); [discriminate | reflexivity |].
  split.
  - apply Hcalc. reflexivity.
  - apply Hfin.
    + discriminate.
    + repeat constructor. exists [0.1; 0.7; 0.2]%Q. split; reflexivity.
    + simpl. lia.
Defined.

(** ** The macro example on labels *)

(** C1.  For pred=[0,1,1,3], target=[0,2,1,3], num_classes=4 and the macro
    average, [SingleLabelMetric.calculate] returns precision 62.5, recall
    75, f1 200/3 (66.6667 to four decimals) and support 4. *)
Theorem single_label_macro_example :
  exists precision recall f1,
    SingleLabelMetric.calculate (Labels [0; 1; 1; 3]) [0; 2; 1; 3]
      [Some 0%Q] (Some "macro"%string) (Some 4)
    = inr (SingleLabelMetric.Single
             (Scalar (Fin precision), Scalar (Fin recall),
              Scalar (Fin f1), Scalar 4))
    /\ (precision == 62.5)%Q
    /\ (recall == 75)%Q
    /\ (f1 == 200 # 3)%Q
    /\ (Qabs (f1 - 66.6667) < 0.0001)%Q.
Proof.
  do 3 eexists. split; [vm_compute; reflexivity |].
  repeat split; vm_compute; reflexivity.
Qed.

(** ** The confusion reduction: finite values *)

Lemma nth_error_zip_with {A B C} (f : A -> B -> C) l1 l2 (c : nat) a b :
  nth_error l1 c = Some a -> nth_error l2 c = Some b ->
  nth_error (zip_with f l1 l2) c = Some (f a b).
Proof.
  revert l2 c. induction l1 as [| x l1 IH]; intros l2 c H1 H2.
  - destruct c; discriminate.
  - destruct l2 as [| y l2]; [destruct c; discriminate |].
    destruct c as [| c]; simpl in *.
    + congruence.
    + apply IH; assumption.
Qed.

Lemma nth_error_zip_with_inv {A B C} (f : A -> B -> C) l1 l2 (c : nat) z :
  nth_error (zip_with f l1 l2) c = Some z ->
  exists a b, nth_error l1 c = Some a /\ nth_error l2 c = Some b /\ z = f a b.
Proof.
  revert l2 c. induction l1 as [| x l1 IH]; intros l2 c H.
  - destruct c; discriminate.
  - destruct l2 as [| y l2]; [destruct c; discriminate |].
    destruct c as [| c]; simpl in *.
    + inversion H. eauto.
    + apply IH. exact H.
Qed.

Lemma f1_eps_pos : (0 < f1_eps)%Q.
Proof. reflexivity. Qed.

Lemma Qmax_eps_nonzero (q : Q) : Qeq_bool (Qmax q f1_eps) 0 = false.
Proof.
  destruct (Qeq_bool (Qmax q f1_eps) 0) eqn:E; [| reflexivity].
  apply Qeq_bool_iff in E.
  pose proof (Q.le_max_r q f1_eps) as Hle. pose proof f1_eps_pos as Hpos.
  rewrite E in Hle. exfalso. apply (Qlt_not_le _ _ Hpos Hle).
Qed.

Lemma Qmax_one_nonzero (q : Q) : Qeq_bool (Qmax q 1) 0 = false.
Proof.
  destruct (Qeq_bool (Qmax q 1) 0) eqn:E; [| reflexivity].
  apply Qeq_bool_iff in E.
  pose proof (Q.le_max_r q 1) as Hle.
  rewrite E in Hle. exfalso. apply (Qlt_not_le 0 1); [reflexivity | exact Hle].
Qed.

Lemma ratio_entry (tp s : Z) :
  tmul (tdiv (of_int tp) (tclamp_min 1 (of_int s))) (Fin 100)
  = Fin (ratio100 tp s).
Proof.
  unfold of_int, tclamp_min, tdiv. rewrite Qmax_one_nonzero. reflexivity.
Qed.

Lemma f1_entry (p r : Q) :
  tdiv (tmul (tmul (Fin 2) (Fin p)) (Fin r))
       (tclamp_min f1_eps (tadd (Fin p) (Fin r)))
  = Fin (f1_value p r).
Proof.
  unfold tmul, tadd, tclamp_min, tdiv. rewrite Qmax_eps_nonzero. reflexivity.
Qed.

Lemma f1_value_zero (p r : Q) : (p == 0 -> r == 0 -> f1_value p r == 0)%Q.
Proof.
  intros Hp Hr. unfold f1_value. rewrite Hp, Hr.
  unfold Qdiv. rewrite !Qmult_0_r, Qmult_0_l. reflexivity.
Qed.

Lemma precision_vec (tp ps : list Z) :
  precision_of (Vec tp) (Vec ps) = Vec (map Fin (zip_with ratio100 tp ps)).
Proof.
  unfold precision_of, clamp_min_int. cbn [tmap tmap2]. f_equal.
  revert ps. induction tp as [| a tp IH]; intros [| b ps]; try reflexivity.
  cbn [map]. rewrite !zip_with_cons. cbn [map].
  rewrite ratio_entry. f_equal. apply IH.
Qed.

Lemma recall_vec (tp gs : list Z) :
  recall_of (Vec tp) (Vec gs) = Vec (map Fin (zip_with ratio100 tp gs)).
Proof. apply precision_vec. Qed.

Lemma f1_vec (P R : list Q) :
  f1_score_of (Vec (map Fin P)) (Vec (map Fin R))
  = Vec (map Fin (zip_with f1_value P R)).
Proof.
  unfold f1_score_of, f1_denominator. cbn [tmap tmap2]. f_equal.
  revert R. induction P as [| p P IH]; intros [| r R]; try reflexivity.
  cbn [map]. rewrite !zip_with_cons. cbn [map]. rewrite !zip_with_cons.
  rewrite f1_entry. f_equal. apply IH.
Qed.

Lemma precision_scalar (tp s : Z) :
  precision_of (Scalar tp) (Scalar s) = Scalar (Fin (ratio100 tp s)).
Proof.
  unfold precision_of, clamp_min_int. cbn [tmap tmap2].
  rewrite ratio_entry. reflexivity.
Qed.

Lemma recall_scalar (tp s : Z) :
  recall_of (Scalar tp) (Scalar s) = Scalar (Fin (ratio100 tp s)).
Proof. apply precision_scalar. Qed.

Lemma f1_scalar (p r : Q) :
  f1_score_of (Scalar (Fin p)) (Scalar (Fin r)) = Scalar (Fin (f1_value p r)).
Proof.
  unfold f1_score_of, f1_denominator. cbn [tmap tmap2].
  rewrite f1_entry. reflexivity.
Qed.

(** The per-class vectors the reduction returns without averaging. *)
Lemma prfs_classwise (pp gp : matrix) :
  let tp := mat_sum0 (mat_and pp gp) in
  let P := zip_with ratio100 tp (mat_sum0 pp) in
  let R := zip_with ratio100 tp (mat_sum0 gp) in
  _precision_recall_f1_support pp gp None
  = inr (Vec (map Fin P), Vec (map Fin R),
         Vec (map Fin (zip_with f1_value P R)), Vec (mat_sum0 gp)).
Proof.
  intros tp P R. unfold _precision_recall_f1_support, confusion_sums.
  cbn [average_options_ok average_is negb orb].
  rewrite precision_vec, recall_vec, f1_vec. reflexivity.
Qed.

(** The scalars the reduction returns under the micro average. *)
Lemma prfs_micro (pp gp : matrix) :
  let tp := mat_sum (mat_and pp gp) in
  let p := ratio100 tp (mat_sum pp) in
  let r := ratio100 tp (mat_sum gp) in
  _precision_recall_f1_support pp gp (Some "micro"%string)
  = inr (Scalar (Fin p), Scalar (Fin r), Scalar (Fin (f1_value p r)),
         Scalar (mat_sum gp)).
Proof.
  intros tp p r. unfold _precision_recall_f1_support, confusion_sums.
  change (average_options_ok (Some "micro"%string)) with true.
  change (average_is (Some "micro"%string) "micro") with true.
  cbn [negb orb].
  rewrite precision_scalar, recall_scalar, f1_scalar. reflexivity.
Qed.

Lemma nth_error_zeros (n : Z) (c : nat) :
  (c < Z.to_nat n)%nat ->
  nth_error (map (fun _ : Z => 0) (zrange n)) c = Some 0.
Proof.
  intros Hc. unfold zrange.
  destruct (nth_error (map Z.of_nat (seq 0 (Z.to_nat n))) c) eqn:E.
  - apply (map_nth_error (fun _ : Z => 0)) in E. exact E.
  - apply nth_error_None in E. rewrite length_map, length_seq in E. lia.
Qed.

(** A class without members has a zero column sum. *)
Lemma mat_sum0_zero_column (m : matrix) (c : nat) :
  (c < Z.to_nat (ncols m))%nat ->
  Forall (fun row => nth_error row c = Some 0) (rows m) ->
  nth_error (mat_sum0 m) c = Some 0.
Proof.
  intros Hc Hrows. unfold mat_sum0.
  induction Hrows as [| row l Hrow _ IH]; cbn [fold_right].
  - apply nth_error_zeros. exact Hc.
  - rewrite (nth_error_zip_with Z.add _ _ c 0 0 Hrow IH). reflexivity.
Qed.

Lemma mat_and_zero_column (a b : matrix) (c : nat) :
  Forall (fun row => nth_error row c = Some 0) (rows a) ->
  Forall (fun row => nth_error row c = Some 0) (rows b) ->
  Forall (fun row => nth_error row c = Some 0) (rows (mat_and a b)).
Proof.
  unfold mat_and. cbn [rows]. intros Ha. revert b.
  induction Ha as [| ra la Hra _ IH]; intros b Hb.
  - constructor.
  - destruct Hb as [| rb lb Hrb Hlb]; [constructor |].
    rewrite zip_with_cons. constructor.
    + rewrite (nth_error_zip_with Z.land _ _ c 0 0 Hra Hrb). reflexivity.
    + apply (IH {| ncols := ncols b; rows := lb |}). exact Hlb.
Qed.

(** C3.  For a class c that no sample is predicted as and no sample
    belongs to, the per-class reduction divides by max(0, 1) = 1 for
    precision and recall and by max(0, eps) = eps > 0 for f1, and gives
    precision[c] = recall[c] = f1[c] = 0, finite values; without averaging
    these are the entries the reduction returns. *)
Theorem degenerate_class_is_zero
  (pred_positive gt_positive : matrix) (average : option string) (c : nat)
  (Hmicro : average_is average "micro" = false)
  (Hcp : (c < Z.to_nat (ncols pred_positive))%nat)
  (Hcg : (c < Z.to_nat (ncols gt_positive))%nat)
  (Hp : Forall (fun row => nth_error row c = Some 0) (rows pred_positive))
  (Hg : Forall (fun row => nth_error row c = Some 0) (rows gt_positive)) :
  exists tp_sum pred_sum gt_sum,
    confusion_sums pred_positive gt_positive average
    = (tp_sum, pred_sum, gt_sum)
    /\ tensor_get pred_sum c = Some 0
    /\ tensor_get gt_sum c = Some 0
    /\ tensor_get (clamp_min_int 1 pred_sum) c = Some (Fin 1)
    /\ tensor_get (clamp_min_int 1 gt_sum) c = Some (Fin 1)
    /\ (let precision := precision_of tp_sum pred_sum in
        let recall := recall_of tp_sum gt_sum in
        tensor_get precision c = Some (Fin 0)
        /\ tensor_get recall c = Some (Fin 0)
        /\ tensor_get (f1_denominator precision recall) c = Some (Fin f1_eps)
        /\ (0 < f1_eps)%Q
        /\ tensor_get (f1_score_of precision recall) c = Some (Fin 0)
        /\ (average = None ->
            _precision_recall_f1_support pred_positive gt_positive average
            = inr (precision, recall, f1_score_of precision recall, gt_sum))).
Proof.
  pose proof (mat_sum0_zero_column _ c Hcp Hp) as Hps.
  pose proof (mat_sum0_zero_column _ c Hcg Hg) as Hgs.
  assert (Htp : nth_error (mat_sum0 (mat_and pred_positive gt_positive)) c
                = Some 0).
  { apply mat_sum0_zero_column; [exact Hcp |].
    apply mat_and_zero_column; assumption. }
  unfold confusion_sums. rewrite Hmicro.
  do 3 eexists. split; [reflexivity |].
  split; [exact Hps |]. split; [exact Hgs |].
  split; [| split].
  - unfold clamp_min_int. cbn [tmap tensor_get].
    apply (map_nth_error (fun z => tclamp_min 1 (of_int z))) in Hps. exact Hps.
  - unfold clamp_min_int. cbn [tmap tensor_get].
    apply (map_nth_error (fun z => tclamp_min 1 (of_int z))) in Hgs. exact Hgs.
  - cbv zeta. rewrite precision_vec, recall_vec, f1_vec.
    assert (HP : nth_error
                   (zip_with ratio100
                      (mat_sum0 (mat_and pred_positive gt_positive))
                      (mat_sum0 pred_positive)) c = Some 0%Q).
    { apply (nth_error_zip_with ratio100 _ _ c 0 0 Htp Hps). }
    assert (HR : nth_error
                   (zip_with ratio100
                      (mat_sum0 (mat_and pred_positive gt_positive))
                      (mat_sum0 gt_positive)) c = Some 0%Q).
    { apply (nth_error_zip_with ratio100 _ _ c 0 0 Htp Hgs). }
    cbn [tensor_get].
    split; [apply (map_nth_error Fin) in HP; exact HP |].
    split; [apply (map_nth_error Fin) in HR; exact HR |].
    split; [| split; [exact f1_eps_pos | split]].
    + unfold f1_denominator. cbn [tmap tmap2 tensor_get].
      change (Fin f1_eps) with (tclamp_min f1_eps (tadd (Fin 0) (Fin 0))).
      apply (map_nth_error (tclamp_min f1_eps)).
      apply (nth_error_zip_with tadd _ _ c (Fin 0) (Fin 0)).
      * apply (map_nth_error Fin) in HP. exact HP.
      * apply (map_nth_error Fin) in HR. exact HR.
    + apply (map_nth_error Fin).
      apply (nth_error_zip_with f1_value _ _ c 0%Q 0%Q HP HR).
    + intros ->. rewrite prfs_classwise. cbv zeta. reflexivity.
Qed.

Lemma degenerate_class_is_zero_witness :
  let pred_positive := {| ncols := 5; rows := map (one_hot_row 5) [0; 1; 1; 3] |} in
  let gt_positive := {| ncols := 5; rows := map (one_hot_row 5) [0; 2; 1; 3] |} in
  exists precision recall f1_score support,
    _precision_recall_f1_support pred_positive gt_positive None
    = inr (precision, recall, f1_score, support)
    /\ tensor_get precision 4 = Some (Fin 0)
    /\ tensor_get recall 4 = Some (Fin 0)
    /\ tensor_get f1_score 4 = Some (Fin 0).
Proof.
  intros pred_positive gt_positive.
  destruct (degenerate_class_is_zero pred_positive gt_positive None 4%nat)
    as (tp & ps & gs & Hsums & _ & _ & _ & _ & HP & HR & _ & _ & HF & Hret).
  - reflexivity.
  - vm_compute. lia.
  - vm_compute. lia.
  - repeat constructor.
  - repeat constructor.
  - exists (precision_of tp ps), (recall_of tp gs),
      (f1_score_of (precision_of tp ps) (recall_of tp gs)), gs.
    split; [apply Hret; reflexivity |].
    split; [exact HP |]. split; [exact HR | exact HF].
Defined.

(** ** The epsilon of the f1 score *)

(** C2, as the code has it.  The f1 score is 2*precision*recall divided by
    max(precision + recall, eps), where eps is the machine epsilon of
    float32, 2^-23, a constant that does not follow the dtype of the
    tensors; the quotient is the finite value 0 when precision and recall
    are both 0. *)
Theorem f1_floor_is_float32_machine_epsilon
  (pred_positive gt_positive : matrix) (p0 r0 : Q)
  (Hp0 : (p0 == 0)%Q) (Hr0 : (r0 == 0)%Q) :
  f1_eps = eps (finfo float32)
  /\ (f1_eps == 1 # 8388608)%Q
  /\ (exists P R support,
         _precision_recall_f1_support pred_positive gt_positive None
         = inr (Vec (map Fin P), Vec (map Fin R),
                Vec (map Fin
                       (zip_with
                          (fun p r => 2 * p * r / Qmax (p + r) f1_eps)%Q P R)),
                support))
  /\ (exists p r support,
         _precision_recall_f1_support pred_positive gt_positive
           (Some "micro"%string)
         = inr (Scalar (Fin p), Scalar (Fin r),
                Scalar (Fin (2 * p * r / Qmax (p + r) f1_eps)%Q), support))
  /\ (exists f,
         f1_score_of (Scalar (Fin p0)) (Scalar (Fin r0)) = Scalar (Fin f)
         /\ (f == 0)%Q).
Proof.
  split; [reflexivity |]. split; [reflexivity |].
  split; [| split].
  - do 3 eexists. rewrite prfs_classwise. cbv zeta. reflexivity.
  - do 3 eexists. rewrite prfs_micro. cbv zeta. reflexivity.
  - exists (f1_value p0 r0). split; [apply f1_scalar |].
    apply f1_value_zero; assumption.
Qed.

Lemma f1_floor_is_float32_machine_epsilon_witness :
  (exists f,
      f1_score_of (Scalar (Fin 0)) (Scalar (Fin (0 # 5))) = Scalar (Fin f)
      /\ (f == 0)%Q)
  /\ tdiv (Fin 0) (tadd (Fin 0) (Fin (0 # 5))) = NaN.
Proof.
  destruct (f1_floor_is_float32_machine_epsilon
              {| ncols := 2; rows := [[1; 0]; [0; 1]] |}
              {| ncols := 2; rows := [[1; 0]; [1; 0]] |} 0 (0 # 5))
    as (_ & _ & _ & _ & f & Hf & Hz); [reflexivity | reflexivity |].
  split; [exists f; split; assumption | reflexivity].
Defined.

(** C2, as the specification words it, does not hold: the floor is neither
    the least positive value nor the least positive normal value of any
    float dtype, and it is not the epsilon of float64 either.  At
    precision = recall = 2^-30 the code gives f1 = 2^-36, where a floor at
    the least positive float32 would give 2^-30. *)
Lemma f1_floor_is_not_smallest_positive :
  (forall d, ~ (f1_eps == smallest_positive d)%Q)
  /\ (forall d, ~ (f1_eps == tiny (finfo d))%Q)
  /\ ~ (f1_eps == eps (finfo float64))%Q
  /\ exists f,
      f1_score_of (Scalar (Fin (pow2_neg 30))) (Scalar (Fin (pow2_neg 30)))
      = Scalar (Fin f)
      /\ (f == pow2_neg 36)%Q
      /\ (2 * pow2_neg 30 * pow2_neg 30
          / Qmax (pow2_neg 30 + pow2_neg 30) (smallest_positive float32)
          == pow2_neg 30)%Q.
Proof.
  split; [intros []; vm_compute; discriminate |].
  split; [intros []; vm_compute; discriminate |].
  split; [vm_compute; discriminate |].
  eexists. split; [apply f1_scalar |].
  split; vm_compute; reflexivity.
Qed.

(** ** Accuracy on score input *)

Lemma mapM_nth_error {A B} (f : A -> result B) (l : list A) (out : list B)
  (i : nat) (x : A) (y : B) :
  mapM f l = inr out -> nth_error l i = Some x -> nth_error out i = Some y ->
  f x = inr y.
Proof.
  revert out i. induction l as [| a l IH]; intros out i Hm Hx Hy.
  - destruct i; discriminate.
  - cbn [mapM] in Hm.
    apply bind_ret_inv in Hm. destruct Hm as [b [Hb Hm]].
    apply bind_ret_inv in Hm. destruct Hm as [bs [Hbs Hm]].
    inversion Hm; subst out. destruct i as [| i]; simpl in Hx, Hy.
    + congruence.
    + apply (IH bs i); assumption.
Qed.

Lemma mapM_length {A B} (f : A -> result B) (l : list A) (out : list B) :
  mapM f l = inr out -> length out = length l.
Proof.
  revert out. induction l as [| a l IH]; intros out Hm.
  - inversion Hm. reflexivity.
  - cbn [mapM] in Hm.
    apply bind_ret_inv in Hm. destruct Hm as [b [Hb Hm]].
    apply bind_ret_inv in Hm. destruct Hm as [bs [Hbs Hm]].
    inversion Hm; subst out. simpl. f_equal. apply IH. exact Hbs.
Qed.

Lemma mapM_pure {A B} (f : A -> result B) (g : A -> B) (l : list A) :
  (forall a, f a = inr (g a)) -> mapM f l = inr (map g l).
Proof.
  intros Hf. induction l as [| a l IH]; cbn [mapM map].
  - reflexivity.
  - rewrite Hf, IH. reflexivity.
Qed.

(** What a successful call on scores has computed. *)
Lemma accuracy_scores_inv (pred : score_matrix) target topk thrs accs :
  Accuracy.calculate (Scores pred) target topk thrs
  = inr (Accuracy.AccTable accs) ->
  mapM (fun k =>
          mapM (fun thr =>
                  d <- py_div 100 (Z.of_nat (length (srows pred))) ;;
                  ret (inject_Z (correct_k pred target topk k thr) * d)%Q)
               thrs) topk
  = inr accs.
Proof.
  unfold Accuracy.calculate. simpl size0.
  destruct (negb _); [discriminate |].
  destruct topk as [| k0 topk']; [discriminate |].
  rewrite py_max_nonempty by discriminate. cbn [bind].
  destruct (size1 pred <? zmax_list (k0 :: topk')); [discriminate |].
  unfold tensor_topk.
  destruct ((zmax_list (k0 :: topk') <? 0)
            || (size1 pred <? zmax_list (k0 :: topk'))); [discriminate |].
  cbn [bind ret]. intros H.
  apply bind_ret_inv in H. destruct H as [results [Hm H]].
  inversion H; subst accs. exact Hm.
Qed.

(** A valid call on scores returns the whole table. *)
Lemma accuracy_scores_value (pred : score_matrix) target topk thrs :
  length (srows pred) = length target -> target <> [] -> topk <> [] ->
  0 <= zmax_list topk <= size1 pred ->
  Accuracy.calculate (Scores pred) target topk thrs
  = inr (Accuracy.AccTable
           (map (fun k =>
                   map (fun thr =>
                          (inject_Z (correct_k pred target topk k thr)
                           * (100 / inject_Z (Z.of_nat (length target))))%Q)
                       thrs) topk)).
Proof.
  intros Hlen Hne Htopk [Hlo Hhi].
  unfold Accuracy.calculate. simpl size0.
  rewrite Hlen, Z.eqb_refl. cbn [negb].
  rewrite (py_max_nonempty _ Htopk). cbn [bind].
  destruct (Z.ltb_spec (size1 pred) (zmax_list topk)) as [Hlt | _]; [lia |].
  unfold tensor_topk.
  destruct (Z.ltb_spec (zmax_list topk) 0) as [Hlt | _]; [lia |].
  destruct (Z.ltb_spec (size1 pred) (zmax_list topk)) as [Hlt | _]; [lia |].
  cbn [orb bind ret].
  rewrite (mapM_pure _
             (fun k =>
                map (fun thr =>
                       (inject_Z (correct_k pred target topk k thr)
                        * (100 / inject_Z (Z.of_nat (length target))))%Q)
                    thrs)).
  - reflexivity.
  - intros k. apply mapM_pure. intros thr.
    rewrite py_div_nonzero; [reflexivity |].
    destruct target; [congruence | cbn [length]; lia].
Qed.

Lemma py_div_100_nonneg (n : nat) (d : Q) :
  py_div 100 (Z.of_nat n) = inr d -> (0 <= d)%Q.
Proof.
  unfold py_div. destruct (Z.eqb_spec (Z.of_nat n) 0) as [| Hn]; [discriminate |].
  intros H. inversion H; subst d.
  apply Qle_shift_div_l.
  - change 0%Q with (inject_Z 0). rewrite <- Zlt_Qlt. lia.
  - rewrite Qmult_0_l. discriminate.
Qed.

(** The entry of the table at a requested [k] and threshold. *)
Lemma accuracy_table_entry (pred : score_matrix) target topk thrs accs
  (i j : nat) (k : Z) (thr : option Q) (row : list Q) (a : Q) :
  Accuracy.calculate (Scores pred) target topk thrs
  = inr (Accuracy.AccTable accs) ->
  nth_error topk i = Some k -> nth_error thrs j = Some thr ->
  nth_error accs i = Some row -> nth_error row j = Some a ->
  exists d, (0 <= d)%Q
            /\ a = (inject_Z (correct_k pred target topk k thr) * d)%Q
            /\ py_div 100 (Z.of_nat (length (srows pred))) = inr d.
Proof.
  intros Hcalc Hk Hthr Hrow Ha.
  apply accuracy_scores_inv in Hcalc.
  pose proof (mapM_nth_error _ _ _ _ _ _ Hcalc Hk Hrow) as Hinner.
  pose proof (mapM_nth_error _ _ _ _ _ _ Hinner Hthr Ha) as Hcell.
  apply bind_ret_inv in Hcell. destruct Hcell as [d [Hd Hcell]].
  inversion Hcell. exists d.
  split; [apply (py_div_100_nonneg _ _ Hd) |]. split; [reflexivity | exact Hd].
Qed.

(** *** Counting under a pointwise weaker mask *)

Lemma count_true_below (l1 l2 : list bool) :
  below l1 l2 -> count_true l1 <= count_true l2.
Proof.
  induction 1 as [| a b l1 l2 Hab _ IH].
  - reflexivity.
  - rewrite !count_true_cons.
    destruct a, b; try lia; discriminate (Hab eq_refl).
Qed.

Lemma below_concat (m1 m2 : list (list bool)) :
  Forall2 below m1 m2 -> below (concat m1) (concat m2).
Proof.
  induction 1 as [| r1 r2 m1 m2 Hr _ IH]; cbn [concat].
  - constructor.
  - apply Forall2_app; assumption.
Qed.

Lemma Forall2_firstn {A B} (R : A -> B -> Prop) (n : nat) l1 l2 :
  Forall2 R l1 l2 -> Forall2 R (firstn n l1) (firstn n l2).
Proof.
  intros H. revert n. induction H as [| a b l1 l2 Hab _ IH]; intros [| n];
    cbn [firstn]; constructor; auto.
Qed.

Lemma Forall2_slice_to {A B} (R : A -> B -> Prop) (k : Z) l1 l2 :
  Forall2 R l1 l2 -> Forall2 R (slice_to k l1) (slice_to k l2).
Proof.
  intros H. unfold slice_to. rewrite (Forall2_length H).
  destruct (k <? 0); apply Forall2_firstn; exact H.
Qed.

Lemma thr_row_below (t1 t2 : Q) (c : list bool) (s : list Q) :
  (t1 <= t2)%Q ->
  below (zip_with (fun c s => c && negb (Qle_bool s t2)) c s)
        (zip_with (fun c s => c && negb (Qle_bool s t1)) c s).
Proof.
  intros Ht. revert s. induction c as [| b c IH]; intros [| x s];
    try (constructor; fail).
  rewrite !zip_with_cons. constructor; [| apply IH].
  destruct b; cbn [andb]; [| intros H; discriminate H].
  destruct (Qle_bool x t1) eqn:E1; [| reflexivity].
  apply Qle_bool_iff in E1.
  assert (E2 : Qle_bool x t2 = true).
  { apply Qle_bool_iff. apply (Qle_trans _ t1); assumption. }
  rewrite E2. intros H; discriminate H.
Qed.

Lemma thr_below (t1 t2 : Q) (correct : list (list bool))
  (scores : list (list Q)) :
  (t1 <= t2)%Q ->
  Forall2 below (Accuracy.apply_thr (Some t2) correct scores)
                (Accuracy.apply_thr (Some t1) correct scores).
Proof.
  intros Ht. unfold Accuracy.apply_thr. revert scores.
  induction correct as [| c correct IH]; intros [| s scores];
    try (constructor; fail).
  rewrite !zip_with_cons. constructor; [| apply IH].
  apply thr_row_below. exact Ht.
Qed.

Lemma correct_k_threshold_mono (pred : score_matrix) target topk k t1 t2 :
  (t1 <= t2)%Q ->
  correct_k pred target topk k (Some t2)
  <= correct_k pred target topk k (Some t1).
Proof.
  intros Ht. unfold correct_k. apply count_true_below, below_concat.
  apply Forall2_slice_to, thr_below. exact Ht.
Qed.

(** *** Counting over a longer prefix of ranks *)

Lemma count_true_concat_firstn (m : list (list bool)) (n1 n2 : nat) :
  (n1 <= n2)%nat ->
  count_true (concat (firstn n1 m)) <= count_true (concat (firstn n2 m)).
Proof.
  revert n1 n2. induction m as [| r m IH]; intros n1 n2 Hn.
  - rewrite !firstn_nil. reflexivity.
  - destruct n1 as [| n1].
    + cbn [firstn concat]. apply count_true_nonneg.
    + destruct n2 as [| n2]; [lia |].
      cbn [firstn concat]. rewrite !count_true_app.
      specialize (IH n1 n2 ltac:(lia)). lia.
Qed.

Lemma correct_k_rank_mono (pred : score_matrix) target topk k1 k2 thr :
  0 <= k1 <= k2 ->
  correct_k pred target topk k1 thr <= correct_k pred target topk k2 thr.
Proof.
  intros [H0 H12]. unfold correct_k, slice_to.
  destruct (Z.ltb_spec k1 0) as [Hlt | _]; [lia |].
  destruct (Z.ltb_spec k2 0) as [Hlt | _]; [lia |].
  apply count_true_concat_firstn. lia.
Qed.

Lemma scaled_count_le (c1 c2 : Z) (d : Q) :
  c1 <= c2 -> (0 <= d)%Q -> (inject_Z c1 * d <= inject_Z c2 * d)%Q.
Proof.
  intros Hc Hd. apply Qmult_le_compat_r; [| exact Hd].
  rewrite <- Zle_Qle. exact Hc.
Qed.

(** In a returned table, a larger threshold gives no larger entry. *)
Lemma accuracy_table_threshold_mono
  (pred : score_matrix) (target topk : list Z) (thrs : list (option Q))
  (accs : list (list Q)) (i j1 j2 : nat) (k : Z) (thr1 thr2 : Q)
  (row : list Q) (a1 a2 : Q) :
  Accuracy.calculate (Scores pred) target topk thrs
  = inr (Accuracy.AccTable accs) ->
  nth_error topk i = Some k -> nth_error accs i = Some row ->
  nth_error thrs j1 = Some (Some thr1) ->
  nth_error thrs j2 = Some (Some thr2) ->
  nth_error row j1 = Some a1 -> nth_error row j2 = Some a2 ->
  (thr1 <= thr2)%Q -> (a2 <= a1)%Q.
Proof.
  intros Hcalc Hk Hrow Hthr1 Hthr2 Ha1 Ha2 Hle.
  destruct (accuracy_table_entry _ _ _ _ _ _ _ _ _ _ _ Hcalc Hk Hthr1 Hrow Ha1)
    as [d1 (Hd1 & -> & Hdiv1)].
  destruct (accuracy_table_entry _ _ _ _ _ _ _ _ _ _ _ Hcalc Hk Hthr2 Hrow Ha2)
    as [d2 (_ & -> & Hdiv2)].
  assert (d2 = d1) by congruence. subst d2.
  apply scaled_count_le; [| exact Hd1].
  apply correct_k_threshold_mono. exact Hle.
Qed.

(** In a returned table, a larger non-negative k gives no smaller entry. *)
Lemma accuracy_table_rank_mono
  (pred : score_matrix) (target topk : list Z) (thrs : list (option Q))
  (accs : list (list Q)) (i1 i2 j : nat) (k1 k2 : Z) (thr : option Q)
  (row1 row2 : list Q) (a1 a2 : Q) :
  Accuracy.calculate (Scores pred) target topk thrs
  = inr (Accuracy.AccTable accs) ->
  nth_error topk i1 = Some k1 -> nth_error topk i2 = Some k2 ->
  nth_error accs i1 = Some row1 -> nth_error accs i2 = Some row2 ->
  nth_error thrs j = Some thr ->
  nth_error row1 j = Some a1 -> nth_error row2 j = Some a2 ->
  0 <= k1 <= k2 -> (a1 <= a2)%Q.
Proof.
  intros Hcalc Hk1 Hk2 Hrow1 Hrow2 Hthr Ha1 Ha2 Hle.
  destruct (accuracy_table_entry _ _ _ _ _ _ _ _ _ _ _ Hcalc Hk1 Hthr Hrow1 Ha1)
    as [d1 (Hd1 & -> & Hdiv1)].
  destruct (accuracy_table_entry _ _ _ _ _ _ _ _ _ _ _ Hcalc Hk2 Hthr Hrow2 Ha2)
    as [d2 (_ & -> & Hdiv2)].
  assert (d2 = d1) by congruence. subst d2.
  apply scaled_count_le; [| exact Hd1].
  apply correct_k_rank_mono. exact Hle.
Qed.

(** The table of a valid call holds an entry for every requested k and
    threshold. *)
Lemma accuracy_table_defined
  (pred : score_matrix) (target topk : list Z) (thrs : list (option Q))
  (i j : nat) (k : Z) (thr : option Q) :
  length (srows pred) = length target -> target <> [] -> topk <> [] ->
  0 <= zmax_list topk <= size1 pred ->
  nth_error topk i = Some k -> nth_error thrs j = Some thr ->
  exists accs row a,
    Accuracy.calculate (Scores pred) target topk thrs
    = inr (Accuracy.AccTable accs)
    /\ nth_error accs i = Some row /\ nth_error row j = Some a.
Proof.
  intros Hlen Hne Htopk Hmax Hk Hthr.
  rewrite (accuracy_scores_value _ _ _ _ Hlen Hne Htopk Hmax).
  do 3 eexists. split; [reflexivity |]. split.
  - apply (map_nth_error _ _ _ Hk).
  - apply (map_nth_error _ _ _ Hthr).
Qed.

(** C5.  On a score input whose sample count N > 0 agrees with the target,
    with 0 <= max(topk) <= C, [Accuracy.calculate] returns a table, and for
    a fixed k of [topk] its entry at a threshold thr2 is at most its entry
    at a threshold thr1 <= thr2: the accuracy does not increase with the
    threshold. *)
Theorem accuracy_nonincreasing_in_threshold
  (pred : score_matrix) (target topk : list Z) (thrs : list (option Q))
  (i j1 j2 : nat) (k : Z) (thr1 thr2 : Q)
  (Hlen : length (srows pred) = length target)
  (Hne : target <> []) (Htopk : topk <> [])
  (Hmax : 0 <= zmax_list topk <= size1 pred)
  (Hk : nth_error topk i = Some k)
  (Hthr1 : nth_error thrs j1 = Some (Some thr1))
  (Hthr2 : nth_error thrs j2 = Some (Some thr2))
  (Hle : (thr1 <= thr2)%Q) :
  exists accs row a1 a2,
    Accuracy.calculate (Scores pred) target topk thrs
    = inr (Accuracy.AccTable accs)
    /\ nth_error accs i = Some row
    /\ nth_error row j1 = Some a1
    /\ nth_error row j2 = Some a2
    /\ (a2 <= a1)%Q.
Proof.
  destruct (accuracy_table_defined _ _ _ _ _ _ _ _ Hlen Hne Htopk Hmax Hk Hthr1)
    as (accs & row & a1 & Hcalc & Hrow & Ha1).
  destruct (accuracy_table_defined _ _ _ _ _ _ _ _ Hlen Hne Htopk Hmax Hk Hthr2)
    as (accs' & row' & a2 & Hcalc' & Hrow' & Ha2).
  assert (accs' = accs) by congruence. subst accs'.
  assert (row' = row) by congruence. subst row'.
  exists accs, row, a1, a2.
  split; [exact Hcalc |]. split; [exact Hrow |].
  split; [exact Ha1 |]. split; [exact Ha2 |].
  exact (accuracy_table_threshold_mono _ _ _ _ _ _ _ _ _ _ _ _ _ _
           Hcalc Hk Hrow Hthr1 Hthr2 Ha1 Ha2 Hle).
Qed.

Lemma accuracy_nonincreasing_in_threshold_witness :
  exists a1 a2,
    Accuracy.calculate
      (Scores {| size1 := 3;
                 srows := [[0.1; 0.7; 0.2]; [0.5; 0.3; 0.2]; [0.2; 0.2; 0.6]]%Q |})
      [1; 1; 0] [2] [Some 0.25%Q; Some 0.5%Q]
    = inr (Accuracy.AccTable [[a1; a2]])
    /\ (a2 <= a1)%Q.
Proof.
  destruct (accuracy_nonincreasing_in_threshold
              {| size1 := 3;
                 srows := [[0.1; 0.7; 0.2]; [0.5; 0.3; 0.2]; [0.2; 0.2; 0.6]]%Q |}
              [1; 1; 0] [2] [Some 0.25%Q; Some 0.5%Q] 0%nat 0%nat 1%nat 2
              0.25%Q 0.5%Q)
    as (accs & row & a1 & a2 & Hcalc & Hrow & Ha1 & Ha2 & Hle);
    try reflexivity; try discriminate; [simpl; lia |].
  vm_compute in Hcalc. inversion Hcalc; subst accs.
  simpl in Hrow. inversion Hrow; subst row.
  simpl in Ha1, Ha2. inversion Ha1; subst a1. inversion Ha2; subst a2.
  do 2 eexists. split; [vm_compute; reflexivity | exact Hle].
Defined.

(** C10.  On a score input whose sample count N > 0 agrees with the
    target, with 0 <= max(topk) <= C, [Accuracy.calculate] returns a table,
    and for a fixed threshold its entry in the row of k2 is at least its
    entry in the row of k1 whenever 0 <= k1 <= k2 are both in [topk]: the
    accuracy does not decrease with k. *)
Theorem accuracy_nondecreasing_in_k
  (pred : score_matrix) (target topk : list Z) (thrs : list (option Q))
  (i1 i2 j : nat) (k1 k2 : Z) (thr : option Q)
  (Hlen : length (srows pred) = length target)
  (Hne : target <> []) (Htopk : topk <> [])
  (Hmax : 0 <= zmax_list topk <= size1 pred)
  (Hk1 : nth_error topk i1 = Some k1)
  (Hk2 : nth_error topk i2 = Some k2)
  (Hthr : nth_error thrs j = Some thr)
  (Hle : 0 <= k1 <= k2) :
  exists accs row1 row2 a1 a2,
    Accuracy.calculate (Scores pred) target topk thrs
    = inr (Accuracy.AccTable accs)
    /\ nth_error accs i1 = Some row1
    /\ nth_error accs i2 = Some row2
    /\ nth_error row1 j = Some a1
    /\ nth_error row2 j = Some a2
    /\ (a1 <= a2)%Q.
Proof.
  destruct (accuracy_table_defined _ _ _ _ _ _ _ _ Hlen Hne Htopk Hmax Hk1 Hthr)
    as (accs & row1 & a1 & Hcalc & Hrow1 & Ha1).
  destruct (accuracy_table_defined _ _ _ _ _ _ _ _ Hlen Hne Htopk Hmax Hk2 Hthr)
    as (accs' & row2 & a2 & Hcalc' & Hrow2 & Ha2).
  assert (accs' = accs) by congruence. subst accs'.
  exists accs, row1, row2, a1, a2.
  split; [exact Hcalc |]. split; [exact Hrow1 |]. split; [exact Hrow2 |].
  split; [exact Ha1 |]. split; [exact Ha2 |].
  exact (accuracy_table_rank_mono _ _ _ _ _ _ _ _ _ _ _ _ _ _ _
           Hcalc Hk1 Hk2 Hrow1 Hrow2 Hthr Ha1 Ha2 Hle).
Qed.

Lemma accuracy_nondecreasing_in_k_witness :
  exists a1 a2,
    Accuracy.calculate
      (Scores {| size1 := 3;
                 srows := [[0.1; 0.7; 0.2]; [0.5; 0.3; 0.2]; [0.2; 0.2; 0.6]]%Q |})
      [1; 1; 0] [1; 3] [None]
    = inr (Accuracy.AccTable [[a1]; [a2]])
    /\ (a1 <= a2)%Q.
Proof.
  destruct (accuracy_nondecreasing_in_k
              {| size1 := 3;
                 srows := [[0.1; 0.7; 0.2]; [0.5; 0.3; 0.2]; [0.2; 0.2; 0.6]]%Q |}
              [1; 1; 0] [1; 3] [None] 0%nat 1%nat 0%nat 1 3 None)
    as (accs & row1 & row2 & a1 & a2 & Hcalc & Hrow1 & Hrow2 & Ha1 & Ha2 & Hle);
    try reflexivity; try discriminate; [simpl; lia | lia |].
  vm_compute in Hcalc. inversion Hcalc; subst accs.
  simpl in Hrow1, Hrow2. inversion Hrow1; subst row1. inversion Hrow2; subst row2.
  simpl in Ha1, Ha2. inversion Ha1; subst a1. inversion Ha2; subst a2.
  do 2 eexists. split; [vm_compute; reflexivity | exact Hle].
Defined.

(** With a negative entry in [topk] the slice [_correct[:k]] counts from
    the end, and the order of the accuracies can be reversed. *)
Lemma accuracy_negative_k_example :
  Accuracy.calculate
    (Scores {| size1 := 3;
               srows := [[0.1; 0.7; 0.2]; [0.5; 0.3; 0.2]; [0.2; 0.2; 0.6]]%Q |})
    [1; 1; 0] [-1; 0; 3] [None]
  = inr (Accuracy.AccTable [[300 # 3]; [0 # 3]; [300 # 3]])%Q.
Proof. vm_compute. reflexivity. Qed.

(** ** Batches *)

Lemma combine_fst_snd {A B} (l : list (A * B)) :
  combine (map fst l) (map snd l) = l.
Proof.
  induction l as [| [a b] l IH]; simpl; [reflexivity | rewrite IH; reflexivity].
Qed.

Lemma foldM_app {A S} (f : S -> A -> result S) (s : S) (l1 l2 : list A) :
  foldM f s (l1 ++ l2) = (s' <- foldM f s l1 ;; foldM f s' l2).
Proof.
  revert s. induction l1 as [| a l1 IH]; intros s; cbn [app foldM bind ret].
  - reflexivity.
  - destruct (f s a) as [e | s1]; cbn [bind]; [reflexivity | apply IH].
Qed.

Lemma bind_ret_r {A} (m : result A) : bind m ret = m.
Proof. destruct m; reflexivity. Qed.

Section Batching.

Variable step : DataDict -> PredDict -> result ResultDict.

Lemma process_with_as_batch
  (samples : list (DataDict * PredDict)) (results : list ResultDict) :
  process_with step results (fst (as_batch samples)) (snd (as_batch samples))
  = foldM (fun rs dp => r <- step (fst dp) (snd dp) ;; ret (rs ++ [r]))
          results samples.
Proof.
  unfold process_with, as_batch. cbn [fst snd].
  rewrite combine_fst_snd. reflexivity.
Qed.

(** Accumulating batch after batch stores the records of the samples in
    their order, whatever the cuts between batches. *)
Lemma process_batches_concat
  (batches : list (list (DataDict * PredDict))) (results : list ResultDict) :
  foldM (fun rs b => process_with step rs (fst b) (snd b)) results
        (map as_batch batches)
  = foldM (fun rs dp => r <- step (fst dp) (snd dp) ;; ret (rs ++ [r]))
          results (concat batches).
Proof.
  revert results. induction batches as [| b batches IH]; intros results.
  - reflexivity.
  - cbn [map foldM concat]. rewrite process_with_as_batch, foldM_app.
    destruct (foldM _ results b) as [e | rs]; cbn [bind]; [reflexivity |].
    apply IH.
Qed.

Lemma process_single_batch
  (samples : list (DataDict * PredDict)) (results : list ResultDict) :
  foldM (fun rs b => process_with step rs (fst b) (snd b)) results
        [as_batch samples]
  = foldM (fun rs dp => r <- step (fst dp) (snd dp) ;; ret (rs ++ [r]))
          results samples.
Proof.
  cbn [foldM]. rewrite process_with_as_batch. apply bind_ret_r.
Qed.

End Batching.

(** C8.  Cutting an ordered list of samples into any number of batches,
    processing the batches in turn and computing the metrics gives the same
    result (the same metric dict, or the same exception) as processing all
    the samples as one batch, for [Accuracy] and for [SingleLabelMetric]. *)
Theorem metrics_independent_of_batching
  (acc_cfg : Accuracy.config) (slm_cfg : SingleLabelMetric.config)
  (batches : list (list (DataDict * PredDict))) :
  Accuracy.evaluate acc_cfg (map as_batch batches)
  = Accuracy.evaluate acc_cfg [as_batch (concat batches)]
  /\ SingleLabelMetric.evaluate slm_cfg (map as_batch batches)
     = SingleLabelMetric.evaluate slm_cfg [as_batch (concat batches)].
Proof.
  unfold Accuracy.evaluate, SingleLabelMetric.evaluate,
    Accuracy.process, SingleLabelMetric.process.
  rewrite !process_batches_concat, !process_single_batch. split; reflexivity.
Qed.

(** A run of three samples cut as 2 + 1 and as one batch. *)
Example batching_example :
  let sample (s : list Q) (g : Z) : DataDict * PredDict :=
    ({| d_data_sample :=
          Some {| ds_gt_label :=
                    Some {| ld_score := None; ld_label := Some [g];
                            ld_num_classes := None |};
                  ds_num_classes := None |} |},
     {| p_pred_label :=
          Some {| ld_score := Some s; ld_label := None;
                  ld_num_classes := None |};
        p_gt_label := None |}) in
  let b1 := [sample [0.1; 0.7; 0.2]%Q 1; sample [0.5; 0.3; 0.2]%Q 1] in
  let b2 := [sample [0.2; 0.2; 0.6]%Q 0] in
  let cfg := {| Accuracy.topk := [1; 2]; Accuracy.thrs := [None; Some 0.5%Q] |} in
  Accuracy.evaluate cfg [as_batch b1; as_batch b2]
  = inr [("top1_no-thr"%string, 100 # 3); ("top1_thr-0.50"%string, 100 # 3);
         ("top2_no-thr"%string, 300 # 3); ("top2_thr-0.50"%string, 100 # 3)]%Q
  /\ Accuracy.evaluate cfg [as_batch (b1 ++ b2)]
     = Accuracy.evaluate cfg [as_batch b1; as_batch b2].
Proof. split; vm_compute; reflexivity. Qed.

(** ** The micro average on one-hot matrices *)

Lemma zsum_indicator_seq (l : Z) (s n : nat) :
  zsum (map (fun j => if Z.of_nat j =? l then 1 else 0) (seq s n))
  = if (Z.of_nat s <=? l) && (l <? Z.of_nat (s + n)) then 1 else 0.
Proof.
  revert s. induction n as [| n IH]; intros s.
  - cbn [seq map zsum fold_right].
    destruct (Z.leb_spec (Z.of_nat s) l), (Z.ltb_spec l (Z.of_nat (s + 0)));
      cbn [andb]; lia.
  - cbn [seq map]. unfold zsum in *. cbn [fold_right]. rewrite IH.
    destruct (Z.eqb_spec (Z.of_nat s) l),
      (Z.leb_spec (Z.of_nat (S s)) l), (Z.ltb_spec l (Z.of_nat (S s + n))),
      (Z.leb_spec (Z.of_nat s) l), (Z.ltb_spec l (Z.of_nat (s + S n)));
      cbn [andb]; lia.
Qed.

Lemma one_hot_row_sum (c l : Z) :
  0 <= l < c -> zsum (one_hot_row c l) = 1.
Proof.
  intros Hl. unfold one_hot_row, zrange. rewrite map_map.
  rewrite zsum_indicator_seq.
  destruct (Z.leb_spec (Z.of_nat 0) l), (Z.ltb_spec l (Z.of_nat (0 + Z.to_nat c)));
    cbn [andb]; lia.
Qed.

Lemma zip_with_map_same {A B C D} (f : B -> C -> D) (g : A -> B) (h : A -> C)
  (l : list A) :
  zip_with f (map g l) (map h l) = map (fun x => f (g x) (h x)) l.
Proof.
  induction l as [| a l IH]; [reflexivity |].
  cbn [map]. rewrite zip_with_cons, IH. reflexivity.
Qed.

Lemma zsum_zeros {A} (l : list A) : zsum (map (fun _ => 0) l) = 0.
Proof.
  induction l as [| a l IH]; [reflexivity |].
  cbn [map]. unfold zsum in *. cbn [fold_right]. rewrite IH. reflexivity.
Qed.

(** A predicted row and a true row share their positive entry exactly when
    the two labels agree. *)
Lemma one_hot_rows_and_sum (c a b : Z) :
  0 <= a < c ->
  zsum (zip_with Z.land (one_hot_row c a) (one_hot_row c b))
  = if a =? b then 1 else 0.
Proof.
  intros Ha. unfold one_hot_row at 1 2. rewrite zip_with_map_same.
  destruct (Z.eqb_spec a b) as [<- | Hab].
  - rewrite (map_ext _ (fun j => if j =? a then 1 else 0)).
    + apply one_hot_row_sum. exact Ha.
    + intros j. destruct (j =? a); reflexivity.
  - rewrite (map_ext _ (fun _ => 0)).
    + apply zsum_zeros.
    + intros j. destruct (Z.eqb_spec j a), (Z.eqb_spec j b);
        try reflexivity. congruence.
Qed.

Lemma mat_sum_one_hot (c : Z) (labels : list Z) :
  Forall (fun l => 0 <= l < c) labels ->
  mat_sum {| ncols := c; rows := map (one_hot_row c) labels |}
  = Z.of_nat (length labels).
Proof.
  unfold mat_sum. cbn [rows]. induction 1 as [| l labels Hl _ IH].
  - reflexivity.
  - cbn [map length]. unfold zsum at 1. cbn [fold_right].
    fold (zsum (map zsum (map (one_hot_row c) labels))).
    rewrite IH, (one_hot_row_sum _ _ Hl). lia.
Qed.

Lemma mat_sum_one_hot_and (c : Z) (pred target : list Z) :
  Forall (fun l => 0 <= l < c) pred ->
  mat_sum (mat_and {| ncols := c; rows := map (one_hot_row c) pred |}
                   {| ncols := c; rows := map (one_hot_row c) target |})
  = count_true (zip_with Z.eqb pred target).
Proof.
  unfold mat_sum, mat_and. cbn [rows ncols]. intros Hp. revert target.
  induction Hp as [| a pred Ha _ IH]; intros [| b target]; try reflexivity.
  cbn [map]. rewrite !zip_with_cons. cbn [map].
  unfold zsum at 1. cbn [fold_right].
  fold (zsum (map zsum (zip_with (zip_with Z.land)
                          (map (one_hot_row c) pred)
                          (map (one_hot_row c) target)))).
  rewrite IH, (one_hot_rows_and_sum _ _ b Ha), count_true_cons. reflexivity.
Qed.

Lemma fold_left_max_ge (l : list Z) (a : Z) :
  a <= fold_left Z.max l a /\ Forall (fun x => x <= fold_left Z.max l a) l.
Proof.
  revert a. induction l as [| x l IH]; intros a; cbn [fold_left].
  - split; [lia | constructor].
  - destruct (IH (Z.max a x)) as [H1 H2]. split; [lia |].
    constructor; [lia | exact H2].
Qed.

Lemma zmax_list_ge (l : list Z) : Forall (fun x => x <= zmax_list l) l.
Proof.
  destruct l as [| a l]; [constructor |].
  destruct (fold_left_max_ge l a) as [H1 H2].
  constructor; assumption.
Qed.

(** What a successful [F.one_hot] returns. *)
Lemma one_hot_inv (labels : list Z) (num_classes : Z) (m : matrix) :
  one_hot labels num_classes = inr m ->
  rows m = map (one_hot_row (ncols m)) labels
  /\ Forall (fun l => 0 <= l < ncols m) labels
  /\ (num_classes <> -1 -> ncols m = num_classes).
Proof.
  unfold one_hot. destruct labels as [| l0 labels'].
  - destruct (num_classes <=? 0); [discriminate |].
    intros Hm. inversion Hm. cbn. repeat split. constructor.
  - set (labels := l0 :: labels').
    destruct (existsb (fun l => l <? 0) labels) eqn:Hneg; [discriminate |].
    assert (Hnn : Forall (fun l => 0 <= l) labels).
    { apply Forall_forall. intros x Hx.
      destruct (Z.ltb_spec x 0) as [Hlt | Hge]; [| exact Hge].
      assert (existsb (fun l => l <? 0) labels = true).
      { apply existsb_exists. exists x. split; [exact Hx |].
        apply Z.ltb_lt. exact Hlt. }
      congruence. }
    pose proof (zmax_list_ge labels) as Hmax.
    destruct (Z.eqb_spec num_classes (-1)) as [Heq | Hneq].
    + intros Hm. inversion Hm. cbn [rows ncols].
      split; [reflexivity |]. split; [| congruence].
      apply Forall_forall. intros x Hx.
      rewrite Forall_forall in Hnn, Hmax.
      specialize (Hnn x Hx). specialize (Hmax x Hx). cbv beta in Hnn, Hmax.
      change (zmax_list labels) with (fold_left Z.max labels' l0) in *. lia.
    + destruct (Z.leb_spec num_classes (zmax_list labels)) as [Hle | Hgt];
        [discriminate |].
      intros Hm. inversion Hm. cbn [rows ncols].
      split; [reflexivity |]. split; [| reflexivity].
      apply Forall_forall. intros x Hx.
      rewrite Forall_forall in Hnn, Hmax.
      specialize (Hnn x Hx). specialize (Hmax x Hx). cbv beta in Hnn, Hmax.
      change (zmax_list labels) with (fold_left Z.max labels' l0) in *. lia.
Qed.

(** The micro reduction of two one-hot matrices of N rows each: both
    precision and recall are 100 * tp / max(N, 1). *)
Lemma micro_on_one_hot (c : Z) (pred target : list Z) :
  Forall (fun l => 0 <= l < c) pred ->
  Forall (fun l => 0 <= l < c) target ->
  length pred = length target ->
  let n := Z.of_nat (length target) in
  let p := ratio100 (count_true (zip_with Z.eqb pred target)) n in
  _precision_recall_f1_support
    {| ncols := c; rows := map (one_hot_row c) pred |}
    {| ncols := c; rows := map (one_hot_row c) target |}
    (Some "micro"%string)
  = inr (Scalar (Fin p), Scalar (Fin p), Scalar (Fin (f1_value p p)), Scalar n).
Proof.
  intros Hp Ht Hlen n p. rewrite prfs_micro. cbv zeta.
  rewrite (mat_sum_one_hot_and _ _ _ Hp), (mat_sum_one_hot _ _ Hp),
    (mat_sum_one_hot _ _ Ht), Hlen.
  reflexivity.
Qed.

(** *** The exact micro values *)

Local Open Scope Q_scope.

Lemma ratio100_nonneg (tp s : Z) : (0 <= tp)%Z -> 0 <= ratio100 tp s.
Proof.
  intros Htp. unfold ratio100.
  assert (Hm : 0 < Qmax (inject_Z s) 1).
  { apply (Qlt_le_trans _ 1); [reflexivity | apply Q.le_max_r]. }
  apply Qmult_le_0_compat; [| discriminate].
  apply Qle_shift_div_l; [exact Hm |]. rewrite Qmult_0_l.
  change 0 with (inject_Z 0). rewrite <- Zle_Qle. exact Htp.
Qed.

Lemma Qmax_inject_pos (n : Z) : (1 <= n)%Z -> Qmax (inject_Z n) 1 == inject_Z n.
Proof.
  intros Hn. apply Q.max_l. change 1 with (inject_Z 1). rewrite <- Zle_Qle. exact Hn.
Qed.

Local Close Scope Q_scope.

Lemma fold_left_max_lt (l : list Z) (a c : Z) :
  a < c -> Forall (fun x => x < c) l -> fold_left Z.max l a < c.
Proof.
  intros Ha Hl. revert a Ha. induction Hl as [| x l Hx _ IH]; intros a Ha.
  - exact Ha.
  - cbn [fold_left]. apply IH. lia.
Qed.

(** [F.one_hot] succeeds on labels within the class range. *)
Lemma one_hot_in_range (labels : list Z) (c : Z) :
  labels <> [] -> c <> -1 -> Forall (fun l => 0 <= l < c) labels ->
  one_hot labels c = inr {| ncols := c; rows := map (one_hot_row c) labels |}.
Proof.
  intros Hne Hc Hall. unfold one_hot.
  destruct labels as [| l0 labels']; [congruence |].
  set (labels := l0 :: labels') in *.
  assert (Hneg : existsb (fun l => l <? 0) labels = false).
  { destruct (existsb (fun l => l <? 0) labels) eqn:E; [| reflexivity].
    apply existsb_exists in E. destruct E as [x [Hx Hlt]].
    rewrite Forall_forall in Hall. specialize (Hall x Hx). cbv beta in Hall.
    apply Z.ltb_lt in Hlt. lia. }
  rewrite Hneg.
  destruct (Z.eqb_spec c (-1)) as [Heq | _]; [contradiction |].
  assert (Hmax : zmax_list labels < c).
  { inversion Hall as [| ? ? H0 Hrest]; subst.
    apply fold_left_max_lt; [lia |].
    eapply Forall_impl; [| exact Hrest]. intros x Hx. cbv beta in Hx. lia. }
  destruct (Z.leb_spec c (zmax_list labels)) as [Hle | _]; [lia |].
  reflexivity.
Qed.

Lemma count_true_le_length (l : list bool) :
  count_true l <= Z.of_nat (length l).
Proof.
  unfold count_true. pose proof (filter_length_le (fun b : bool => b) l). lia.
Qed.

(** ** Float32 rounding *)

(** *** Powers of two and the binary logarithm *)

Lemma pow2_pos k : (0 < pow2 k)%Q.
Proof. apply Qpower_0_lt. reflexivity. Qed.

Lemma pow2_add a b : (pow2 (a + b) == pow2 a * pow2 b)%Q.
Proof. apply Qpower_plus. discriminate. Qed.

Lemma pow2_le a b : a <= b -> (pow2 a <= pow2 b)%Q.
Proof. intros H. apply Qpower_le_compat_l; [exact H | discriminate]. Qed.

Lemma pow2_lt_inv a b : (pow2 a < pow2 b)%Q -> a < b.
Proof. intros H. apply (Qpower_lt_compat_l_inv 2); [exact H | reflexivity]. Qed.

Lemma pow2_of_Z n : 0 <= n -> (pow2 n == inject_Z (2 ^ n))%Q.
Proof. intros H. unfold pow2. rewrite Zpower_Qpower by exact H. reflexivity. Qed.

Lemma pow2_sub a b : (pow2 (a - b) == pow2 a / pow2 b)%Q.
Proof. apply Qpower_minus. discriminate. Qed.

Lemma pow2_succ a : (pow2 (a + 1) == 2 * pow2 a)%Q.
Proof. rewrite pow2_add. change (pow2 1) with 2%Q. ring. Qed.

Lemma pow2_pred a : (pow2 (a - 1) == (1 # 2) * pow2 a)%Q.
Proof. rewrite pow2_sub. change (pow2 1) with 2%Q. field. Qed.

Lemma log2_bracket (n : Z) :
  0 < n ->
  (inject_Z (2 ^ Z.log2 n) <= inject_Z n
   /\ inject_Z n < 2 * inject_Z (2 ^ Z.log2 n))%Q.
Proof.
  intros Hn. destruct (Z.log2_spec n Hn) as [Hlo Hhi].
  rewrite Z.pow_succ_r in Hhi by apply Z.log2_nonneg.
  split.
  - rewrite <- Zle_Qle. exact Hlo.
  - change 2%Q with (inject_Z 2). rewrite <- inject_Z_mult, <- Zlt_Qlt.
    exact Hhi.
Qed.

Lemma quotient_bracket (X D A B : Q) :
  (0 < A -> 0 < B -> 0 < D -> A <= X -> X < 2 * A -> B <= D -> D < 2 * B ->
   X / D < 2 * (A / B) /\ (1 # 2) * (A / B) <= X / D)%Q.
Proof.
  intros HA HB HD Hn1 Hn2 Hd1 Hd2.
  assert (HR : (A / B * B == A)%Q) by (field; lra).
  assert (HRpos : (0 < A / B)%Q) by (apply Qlt_shift_div_l; lra).
  generalize dependent (A / B)%Q. intros R HR HRpos.
  split.
  - apply Qlt_shift_div_r; [exact HD |].
    assert (HRD : (R * B <= R * D)%Q) by (apply Qmult_le_l; lra).
    lra.
  - apply Qle_shift_div_l; [exact HD |].
    assert (HRD : (R * D <= R * (2 * B))%Q) by (apply Qmult_le_l; lra).
    nra.
Qed.

Lemma ilog2_spec (x : Q) :
  ~ (x == 0)%Q ->
  (pow2 (ilog2 x) <= Qabs x /\ Qabs x < pow2 (ilog2 x + 1))%Q.
Proof.
  intros Hx. unfold ilog2.
  set (n := Z.abs (Qnum x)). set (d := Zpos (Qden x)).
  set (k := Z.log2 n - Z.log2 d).
  assert (Hn : 0 < n).
  { unfold n. destruct x as [xn xd]. unfold Qeq in Hx. cbn in *. lia. }
  assert (Hd : 0 < d) by (unfold d; lia).
  assert (Habs : (Qabs x == inject_Z n / inject_Z d)%Q).
  { destruct x as [xn xd]. unfold n, d. cbn [Qabs Qnum Qden].
    apply Qmake_Qdiv. }
  destruct (log2_bracket n Hn) as [Hn1 Hn2].
  destruct (log2_bracket d Hd) as [Hd1 Hd2].
  assert (Hk : (pow2 k == inject_Z (2 ^ Z.log2 n) / inject_Z (2 ^ Z.log2 d))%Q).
  { unfold k. rewrite pow2_sub, !pow2_of_Z by apply Z.log2_nonneg.
    reflexivity. }
  assert (HA : (0 < inject_Z (2 ^ Z.log2 n))%Q).
  { change 0%Q with (inject_Z 0). rewrite <- Zlt_Qlt.
    apply Z.pow_pos_nonneg; [lia | apply Z.log2_nonneg]. }
  assert (HB : (0 < inject_Z (2 ^ Z.log2 d))%Q).
  { change 0%Q with (inject_Z 0). rewrite <- Zlt_Qlt.
    apply Z.pow_pos_nonneg; [lia | apply Z.log2_nonneg]. }
  assert (HD : (0 < inject_Z d)%Q).
  { change 0%Q with (inject_Z 0). rewrite <- Zlt_Qlt. exact Hd. }
  set (A := inject_Z (2 ^ Z.log2 n)) in *.
  set (B := inject_Z (2 ^ Z.log2 d)) in *.
  set (X := inject_Z n) in *. set (D := inject_Z d) in *.
  clearbody A B X D.
  destruct (quotient_bracket X D A B HA HB HD Hn1 Hn2 Hd1 Hd2) as [Hup Hlow].
  destruct (Qle_bool (pow2 k) (Qabs x)) eqn:Ht.
  - apply Qle_bool_iff in Ht. split; [exact Ht |].
    rewrite pow2_succ, Hk, Habs. exact Hup.
  - assert (Hlt : (Qabs x < pow2 k)%Q).
    { apply Qnot_le_lt. intros Hle. apply Qle_bool_iff in Hle. congruence. }
    split.
    + rewrite pow2_pred, Hk, Habs. exact Hlow.
    + replace (k - 1 + 1) with k by lia. exact Hlt.
Qed.

(** *** The error of one rounding *)

Lemma round_half_even_err (q : Q) :
  (Qabs (inject_Z (round_half_even q) - q) <= 1 # 2)%Q.
Proof.
  destruct q as [n d]. unfold round_half_even. cbn [Qnum Qden].
  set (D := Zpos d).
  assert (HD : 0 < D) by (unfold D; lia).
  pose proof (Z.div_mod n D ltac:(lia)) as Hdm.
  pose proof (Z.mod_pos_bound n D HD) as Hmod.
  set (fl := n / D) in *. set (r := n mod D) in *.
  assert (Hgen : forall z, - D <= 2 * (z * D - n) <= D ->
                 (Qabs (inject_Z z - (n # d)) <= 1 # 2)%Q).
  { intros z Hz. apply Qabs_Qle_condition.
    unfold Qle, Qminus, Qplus, Qopp, inject_Z. cbn.
    fold D. split; nia. }
  destruct (Z.ltb_spec (2 * r) D); [apply Hgen; nia |].
  destruct (Z.ltb_spec D (2 * r)); [apply Hgen; nia |].
  destruct (Z.even fl); apply Hgen; nia.
Qed.

Lemma round_half_even_nonneg (q : Q) :
  (0 <= q)%Q -> 0 <= round_half_even q.
Proof.
  destruct q as [n d]. unfold Qle, round_half_even. cbn [Qnum Qden].
  intros Hn. assert (Hn' : 0 <= n) by lia.
  assert (Hfl : 0 <= n / Zpos d) by (apply Z.div_pos; lia).
  destruct (_ <? _); [exact Hfl |].
  destruct (_ <? _); [lia |]. destruct (Z.even _); lia.
Qed.

Lemma round_to_err_exp (d : dtype) (x : Q) :
  ~ (x == 0)%Q ->
  (Qabs (round_to d x - x)
   <= pow2 (Z.max (ilog2 x - (mant_bits d - 1)) (min_exp d) - 1))%Q.
Proof.
  intros Hx. unfold round_to.
  destruct (Qeq_bool x 0) eqn:Hz; [apply Qeq_bool_iff in Hz; contradiction |].
  cbv zeta. set (e := Z.max _ _).
  pose proof (pow2_pos e) as He.
  pose proof (round_half_even_err (x / pow2 e)) as Herr.
  set (z := inject_Z (round_half_even (x / pow2 e))) in *.
  assert (Heq : (z * pow2 e - x == (z - x / pow2 e) * pow2 e)%Q)
    by (field; lra).
  rewrite Heq, Qabs_Qmult, (Qabs_pos (pow2 e)) by lra.
  rewrite pow2_pred.
  apply Qabs_Qle_condition in Herr.
  set (w := Qabs (z - x / pow2 e)) in *.
  assert (Hw : (w <= 1 # 2)%Q) by (apply Qabs_Qle_condition; exact Herr).
  nra.
Qed.

Lemma round_to_zero (d : dtype) (x : Q) : (x == 0)%Q -> round_to d x = 0%Q.
Proof.
  intros Hx. unfold round_to. apply Qeq_bool_iff in Hx. rewrite Hx. reflexivity.
Qed.

Lemma round_to_nonneg (d : dtype) (x : Q) : (0 <= x)%Q -> (0 <= round_to d x)%Q.
Proof.
  intros Hx. unfold round_to. destruct (Qeq_bool x 0); [apply Qle_refl |].
  cbv zeta. set (e := Z.max _ _). pose proof (pow2_pos e) as He.
  apply Qmult_le_0_compat; [| lra].
  change 0%Q with (inject_Z 0). rewrite <- Zle_Qle.
  apply round_half_even_nonneg. apply Qle_shift_div_l; [exact He | lra].
Qed.

Lemma Qabs_nonzero_pos (x : Q) : ~ (x == 0)%Q -> (0 < Qabs x)%Q.
Proof.
  intros Hx. destruct (Qlt_le_dec 0 (Qabs x)) as [H | H]; [exact H |].
  exfalso. apply Hx. pose proof (Qabs_nonneg x) as H0.
  apply Qabs_Qle_condition in H. lra.
Qed.

(** The error of one rounding: half a unit in the last place. *)
Lemma round_to_err (d : dtype) (x : Q) :
  (Qabs (round_to d x - x)
   <= pow2 (- mant_bits d) * Qabs x + pow2 (min_exp d - 1))%Q.
Proof.
  pose proof (pow2_pos (- mant_bits d)) as Hu.
  pose proof (pow2_pos (min_exp d - 1)) as Heta.
  pose proof (Qabs_nonneg x) as Hax.
  destruct (Qeq_dec x 0) as [Hz | Hnz].
  - rewrite (round_to_zero d x Hz).
    setoid_replace (0 - x)%Q with 0%Q by (rewrite Hz; ring).
    change (Qabs 0) with 0%Q. nra.
  - eapply Qle_trans; [apply round_to_err_exp; exact Hnz |].
    destruct (ilog2_spec x Hnz) as [Hlo _].
    destruct (Z.max_spec (ilog2 x - (mant_bits d - 1)) (min_exp d))
      as [[_ ->] | [_ ->]].
    + nra.
    + replace (ilog2 x - (mant_bits d - 1) - 1)
        with (- mant_bits d + ilog2 x) by lia.
      rewrite pow2_add. nra.
Qed.

(** In the normal range the error is relative. *)
Lemma round_to_rel (d : dtype) (x : Q) :
  (pow2 (min_exp d + mant_bits d - 1) <= Qabs x)%Q ->
  (Qabs (round_to d x - x) <= pow2 (- mant_bits d) * Qabs x)%Q.
Proof.
  intros Hnormal.
  pose proof (pow2_pos (min_exp d + mant_bits d - 1)) as Hp.
  assert (Hnz : ~ (x == 0)%Q).
  { intros Hz. rewrite Hz in Hnormal. change (Qabs 0) with 0%Q in Hnormal. lra. }
  eapply Qle_trans; [apply round_to_err_exp; exact Hnz |].
  destruct (ilog2_spec x Hnz) as [Hlo Hhi].
  assert (Hl : min_exp d + mant_bits d - 1 < ilog2 x + 1).
  { apply pow2_lt_inv. lra. }
  rewrite Z.max_l by lia.
  replace (ilog2 x - (mant_bits d - 1) - 1)
    with (- mant_bits d + ilog2 x) by lia.
  rewrite pow2_add. pose proof (pow2_pos (- mant_bits d)) as Hu. nra.
Qed.

Lemma tround_fin (d : dtype) (x : Q) :
  (Qabs (round_to d x) < pow2 (max_exp d))%Q ->
  tround d (Fin x) = Fin (round_to d x).
Proof.
  intros H. unfold tround.
  destruct (Qle_bool _ _) eqn:Hb; [| reflexivity].
  apply Qle_bool_iff in Hb. lra.
Qed.

Local Open Scope Q_scope.

(** *** Values up to k roundings *)

Lemma qmul_le_l (c a b : Q) : 0 <= c -> a <= b -> c * a <= c * b.
Proof. intros Hc Hab. nra. Qed.

Lemma wpow_pos (k : nat) : 0 < wpow k.
Proof.
  induction k as [| k IH]; cbn [wpow]; [reflexivity |].
  unfold w32. nra.
Qed.

Lemma wpow_le_1 (k : nat) : wpow k <= 1.
Proof.
  induction k as [| k IH]; cbn [wpow]; [apply Qle_refl |].
  pose proof (wpow_pos k). unfold w32. nra.
Qed.

Lemma wpow_add (j k : nat) : wpow (j + k) == wpow j * wpow k.
Proof.
  induction j as [| j IH]; cbn [wpow Nat.add]; [ring |].
  rewrite IH. ring.
Qed.

Lemma near_refl (x : Q) : near 0 x x.
Proof. unfold near. cbn [wpow]. split; lra. Qed.

Lemma near_sym (k : nat) (x y : Q) : near k x y -> near k y x.
Proof. intros [H1 H2]. split; assumption. Qed.

Lemma near_trans (j k : nat) (x y z : Q) :
  near j x y -> near k y z -> near (j + k) x z.
Proof.
  intros [H1 H2] [H3 H4]. unfold near. rewrite wpow_add.
  pose proof (wpow_pos j). pose proof (wpow_pos k).
  generalize dependent (wpow j). generalize dependent (wpow k).
  intros wk H3 H4 Hk wj H1 H2 Hj. split; nra.
Qed.

Lemma near_weaken (j k : nat) (x y : Q) :
  (j <= k)%nat -> 0 <= x -> 0 <= y -> near j x y -> near k x y.
Proof.
  intros Hjk Hx Hy [H1 H2]. replace k with (j + (k - j))%nat by lia.
  unfold near. rewrite wpow_add.
  pose proof (wpow_pos j). pose proof (wpow_pos (k - j)).
  pose proof (wpow_le_1 (k - j)).
  generalize dependent (wpow j). generalize dependent (wpow (k - j)%nat).
  intros wk Hk Hk1 wj H1 H2 Hj. split; nra.
Qed.

Lemma near_mul (j k : nat) (x x' y y' : Q) :
  0 <= x -> 0 <= x' -> 0 <= y -> 0 <= y' ->
  near j x x' -> near k y y' -> near (j + k) (x * y) (x' * y').
Proof.
  intros Hx Hx' Hy Hy' [H1 H2] [H3 H4]. unfold near. rewrite wpow_add.
  pose proof (wpow_pos j). pose proof (wpow_pos k).
  generalize dependent (wpow j). generalize dependent (wpow k).
  intros wk H3 H4 Hk wj H1 H2 Hj. split.
  - setoid_replace (x * y * (wj * wk)) with ((x * wj) * (y * wk)) by ring.
    apply Qmult_le_compat_nonneg; split; nra.
  - setoid_replace (x' * y' * (wj * wk)) with ((x' * wj) * (y' * wk)) by ring.
    apply Qmult_le_compat_nonneg; split; nra.
Qed.

Lemma near_div (j k : nat) (x x' y y' : Q) :
  0 <= x -> 0 <= x' -> 0 < y -> 0 < y' ->
  near j x x' -> near k y y' -> near (j + k) (x / y) (x' / y').
Proof.
  intros Hx Hx' Hy Hy' [H1 H2] [H3 H4]. unfold near. rewrite wpow_add.
  pose proof (wpow_pos j). pose proof (wpow_pos k).
  assert (Hq : x / y * y == x) by (field; lra).
  assert (Hq' : x' / y' * y' == x') by (field; lra).
  assert (Hq0 : 0 <= x / y) by (apply Qle_shift_div_l; lra).
  assert (Hq0' : 0 <= x' / y') by (apply Qle_shift_div_l; lra).
  generalize dependent (x / y). intros q Hq Hq0.
  generalize dependent (x' / y'). intros q' Hq' Hq0'.
  generalize dependent (wpow j). generalize dependent (wpow k).
  intros wk H3 H4 Hk wj H1 H2 Hj.
  split.
  - (* q wj wk <= q' : multiply by y' *)
    apply (Qmult_le_r _ _ y'); [exact Hy' |].
    assert (Ha : q * (wj * wk) * y' <= q * wj * y).
    { setoid_replace (q * (wj * wk) * y') with ((q * wj) * (y' * wk)) by ring.
      apply qmul_le_l; nra. }
    nra.
  - apply (Qmult_le_r _ _ y); [exact Hy |].
    assert (Ha : q' * (wj * wk) * y <= q' * wj * y').
    { setoid_replace (q' * (wj * wk) * y) with ((q' * wj) * (y * wk)) by ring.
      apply qmul_le_l; nra. }
    nra.
Qed.

Lemma Qabs_bounds (x b : Q) : Qabs x <= b -> - b <= x <= b.
Proof. intros H. apply Qabs_Qle_condition. exact H. Qed.

(** One float32 rounding of a normal number. *)
Lemma f32_near (x : Q) : pow2 (-126) <= x -> near 1 x (f32 x).
Proof.
  intros Hx. pose proof (pow2_pos (-126)) as Hp.
  pose proof (round_to_rel float32 x) as H.
  change (min_exp float32 + mant_bits float32 - 1)%Z with (-126)%Z in H.
  change (pow2 (- mant_bits float32)) with (pow2 (-24)) in H.
  assert (Hu : pow2 (-24) == u32) by reflexivity.
  rewrite Hu, (Qabs_pos x) in H by lra.
  specialize (H Hx). apply Qabs_bounds in H.
  fold (f32 x) in H. generalize dependent (f32 x). intros r H.
  unfold near. cbn [wpow]. unfold u32, w32 in *. split; nra.
Qed.

Lemma f64_near (x : Q) : pow2 (-1022) <= x -> near 1 x (round_to float64 x).
Proof.
  intros Hx. pose proof (pow2_pos (-1022)) as Hp.
  pose proof (round_to_rel float64 x) as H.
  change (min_exp float64 + mant_bits float64 - 1)%Z with (-1022)%Z in H.
  change (pow2 (- mant_bits float64)) with (pow2 (-53)) in H.
  assert (Hu : pow2 (-53) == 1 # 9007199254740992) by reflexivity.
  rewrite Hu, (Qabs_pos x) in H by lra.
  specialize (H Hx). apply Qabs_bounds in H.
  generalize dependent (round_to float64 x). intros r H.
  unfold near. cbn [wpow]. unfold w32 in *. split; nra.
Qed.

Lemma near_pos (k : nat) (x y : Q) : 0 < x -> near k x y -> 0 < y.
Proof.
  intros Hx [H1 _]. pose proof (wpow_pos k) as Hw.
  generalize dependent (wpow k). intros w H1 Hw. nra.
Qed.

(** Any rounding of a non-negative number, crudely. *)
Lemma round_to_crude (d : dtype) (x : Q) :
  0 <= x -> 0 <= round_to d x <= (9 # 8) * x + (1 # 8).
Proof.
  intros Hx. split; [apply round_to_nonneg; exact Hx |].
  pose proof (round_to_err d x) as H. rewrite (Qabs_pos x) in H by exact Hx.
  apply Qabs_bounds in H.
  assert (Hu : pow2 (- mant_bits d) <= 1 # 8).
  { setoid_replace (1 # 8) with (pow2 (-3)) by reflexivity.
    apply pow2_le. destruct d; cbn; lia. }
  assert (He : pow2 (min_exp d - 1) <= 1 # 8).
  { setoid_replace (1 # 8) with (pow2 (-3)) by reflexivity.
    apply pow2_le. destruct d; cbn; lia. }
  pose proof (pow2_pos (- mant_bits d)).
  generalize dependent (pow2 (- mant_bits d)).
  generalize dependent (pow2 (min_exp d - 1)).
  generalize dependent (round_to d x). intros. nra.
Qed.

Lemma two_100_lt (d : dtype) :
  d = float32 \/ d = float64 ->
  (9 # 8) * two_100 + (1 # 8) < pow2 (max_exp d).
Proof.
  intros Hd.
  assert (H : pow2 102 <= pow2 (max_exp d)).
  { apply pow2_le. destruct Hd as [-> | ->]; cbn; lia. }
  assert (H2 : pow2 102 == 4 * two_100) by reflexivity.
  rewrite H2 in H. unfold two_100 in *. lra.
Qed.

Lemma tround_fin_small (d : dtype) (x : Q) :
  d = float32 \/ d = float64 -> 0 <= x <= two_100 ->
  tround d (Fin x) = Fin (round_to d x).
Proof.
  intros Hd [Hx0 Hx1]. apply tround_fin.
  pose proof (round_to_crude d x Hx0) as [H0 H1].
  rewrite Qabs_pos by exact H0.
  pose proof (two_100_lt d Hd). lra.
Qed.

Lemma rnd_fin (x : Q) :
  0 <= x <= two_100 -> Float32.rnd (Fin x) = Fin (f32 x).
Proof. intros H. apply tround_fin_small; [left; reflexivity | exact H]. Qed.

(** *** The scaled count *)

Lemma pow2_m126_small : pow2 (-126) <= 1 # 1267650600228229401496703205376.
Proof.
  setoid_replace (1 # 1267650600228229401496703205376) with (pow2 (-100))
    by reflexivity.
  apply pow2_le. lia.
Qed.

Lemma pow2_m1022_small : pow2 (-1022) <= 1 # 1267650600228229401496703205376.
Proof.
  setoid_replace (1 # 1267650600228229401496703205376) with (pow2 (-100))
    by reflexivity.
  apply pow2_le. lia.
Qed.

Lemma wpow_4_bounds :
  1 - (1 # 4194304) <= wpow 4 /\ 1 <= wpow 4 * (1 + (1 # 2097152)).
Proof. cbn [wpow]. unfold w32. split; lra. Qed.

(** Four roundings stay within a relative 2^-21. *)
Lemma near_4_tolerance (x y : Q) :
  0 <= x -> near 4 x y ->
  0 <= y /\ Qabs (y - x) <= (1 # 2097152) * x.
Proof.
  intros Hx [H1 H2]. destruct wpow_4_bounds as [Hw1 Hw2].
  pose proof (wpow_pos 4) as Hw0. pose proof (wpow_le_1 4) as Hw3.
  generalize dependent (wpow 4). intros w H1 H2 Hw1 Hw2 Hw0 Hw3.
  assert (Hy : 0 <= y) by nra.
  split; [exact Hy |].
  apply Qabs_Qle_condition. split; nra.
Qed.

Lemma inject_Z_bounds (a z b : Z) :
  (a <= z <= b)%Z -> inject_Z a <= inject_Z z <= inject_Z b.
Proof. intros [H1 H2]. split; rewrite <- Zle_Qle; assumption. Qed.

Lemma hundred_over_n (n : Z) :
  (1 <= n <= 16777216)%Z ->
  (1 # 1048576) <= 100 / inject_Z n <= 100.
Proof.
  intros Hn. destruct (inject_Z_bounds 1 n 16777216 Hn) as [H1 H2].
  change (inject_Z 1) with 1 in H1.
  change (inject_Z 16777216) with 16777216 in H2.
  generalize dependent (inject_Z n). intros q H1 H2.
  split.
  - apply Qle_shift_div_l; lra.
  - apply Qle_shift_div_r; lra.
Qed.

(** The scaled count is the exact percentage up to four roundings. *)
Lemma scale_f32_near (c n : Z) :
  (1 <= c <= n)%Z -> (n <= 16777216)%Z ->
  near 4 (inject_Z c * (100 / inject_Z n)) (scale_f32 c n).
Proof.
  intros Hc Hn. unfold scale_f32.
  destruct (hundred_over_n n ltac:(lia)) as [Hx0 Hx1].
  destruct (inject_Z_bounds 1 c 16777216 ltac:(lia)) as [Hc0 Hc1].
  change (inject_Z 1) with 1 in Hc0.
  change (inject_Z 16777216) with 16777216 in Hc1.
  pose proof pow2_m126_small as Hs. pose proof pow2_m1022_small as Hs'.
  set (x0 := 100 / inject_Z n) in *. set (qc := inject_Z c) in *.
  assert (N1 : near 1 x0 (round_to float64 x0)) by (apply f64_near; lra).
  set (d := round_to float64 x0) in *.
  assert (Hd : (1 # 2097152) <= d).
  { destruct N1 as [N1 _]. cbn [wpow] in N1. unfold w32 in N1. lra. }
  assert (N2 : near 1 d (f32 d)) by (apply f32_near; lra).
  set (s := f32 d) in *.
  assert (Hs0 : (1 # 4194304) <= s).
  { destruct N2 as [N2 _]. cbn [wpow] in N2. unfold w32 in N2. lra. }
  assert (N3 : near 1 qc (f32 qc)) by (apply f32_near; lra).
  set (a := f32 qc) in *.
  assert (Ha : (1 # 2) <= a).
  { destruct N3 as [N3 _]. cbn [wpow] in N3. unfold w32 in N3. lra. }
  assert (N4 : near (1 + (1 + 1)) (qc * x0) (a * s)).
  { apply near_mul; try lra; [exact N3 |].
    apply (near_trans 1 1 x0 d s); assumption. }
  assert (N5 : near 1 (a * s) (f32 (a * s))) by (apply f32_near; nra).
  apply (near_trans 3 1 _ _ _ N4 N5).
Qed.

Lemma scale_f32_zero (n : Z) : scale_f32 0 n = 0.
Proof.
  unfold scale_f32, f32. rewrite (round_to_zero float32 (inject_Z 0)) by reflexivity.
  apply round_to_zero. ring.
Qed.

Lemma scale_f32_tolerance (c n : Z) :
  (0 <= c <= n)%Z -> (1 <= n <= 16777216)%Z ->
  0 <= scale_f32 c n
  /\ Qabs (scale_f32 c n - inject_Z c * (100 / inject_Z n))
     <= (1 # 2097152) * (inject_Z c * (100 / inject_Z n)).
Proof.
  intros Hc Hn. destruct (Z.eq_dec c 0) as [-> | Hnz].
  - rewrite scale_f32_zero. change (inject_Z 0) with 0.
    split; [apply Qle_refl |].
    assert (E : 0 * (100 / inject_Z n) == 0) by ring.
    rewrite E. unfold Qle. cbn. lia.
  - apply near_4_tolerance; [| apply scale_f32_near; lia].
    destruct (hundred_over_n n Hn) as [Hx0 _].
    destruct (inject_Z_bounds 0 c n ltac:(lia)) as [Hc0 _].
    change (inject_Z 0) with 0 in Hc0. nra.
Qed.

(** The scaling of a count of at most n <= 2^24 samples. *)
Lemma scale_of_count (c n : Z) :
  (0 <= c <= n)%Z -> (1 <= n <= 16777216)%Z ->
  Float32.scale (Float32.of_int c) n = inr (Fin (scale_f32 c n)).
Proof.
  intros Hc [Hn1 Hn].
  unfold Float32.scale. rewrite py_div_nonzero by lia. cbn [bind ret].
  destruct (hundred_over_n n ltac:(lia)) as [Hx0 Hx1].
  destruct (inject_Z_bounds 0 c 16777216 ltac:(lia)) as [Hc0 Hc1].
  change (inject_Z 0) with 0 in Hc0.
  change (inject_Z 16777216) with 16777216 in Hc1.
  unfold Float32.of_py_float, Float32.of_int, Float32.mul.
  pose proof (round_to_crude float64 (100 / inject_Z n) ltac:(lra)) as Hd.
  pose proof (round_to_crude float32 (round_to float64 (100 / inject_Z n))
                ltac:(lra)) as Hs.
  pose proof (round_to_crude float32 (inject_Z c) Hc0) as Ha.
  rewrite (tround_fin_small float64)
    by (try (right; reflexivity); unfold two_100; lra).
  rewrite !rnd_fin by (unfold two_100; lra).
  cbn [tmul]. rewrite rnd_fin; [reflexivity |].
  fold (f32 (inject_Z c)) in Ha.
  fold (f32 (round_to float64 (100 / inject_Z n))) in Hs.
  unfold two_100. split; nra.
Qed.

(** The label branch returns the scaled count. *)
Lemma calculate_f32_value (pred target : list Z) topk thrs :
  pred <> [] -> length pred = length target ->
  (Z.of_nat (length pred) <= 16777216)%Z ->
  Float32.calculate pred target topk thrs
  = inr (Fin (scale_f32 (count_true (zip_with Z.eqb pred target))
                        (Z.of_nat (length pred)))).
Proof.
  intros Hne Hlen Hn. unfold Float32.calculate.
  rewrite Hlen, Z.eqb_refl. cbn [negb]. rewrite <- Hlen.
  apply scale_of_count.
  - split; [apply count_true_nonneg |].
    eapply Z.le_trans; [apply count_true_le_length |].
    rewrite zip_with_length. lia.
  - split; [| exact Hn]. destruct pred; [congruence | cbn [length]; lia].
Qed.

(** *** The micro values in float32 *)

Lemma pow2_m126_val :
  pow2 (-126) == 1 # 85070591730234615865843651857942052864.
Proof. reflexivity. Qed.

Lemma near_lower (k : nat) (x y lo : Q) :
  (k <= 4)%nat -> 0 <= lo -> lo <= x -> near k x y ->
  (1 - (1 # 4194304)) * lo <= y.
Proof.
  intros Hk Hlo Hx Hn.
  assert (Hx0 : 0 <= x) by lra.
  assert (Hy0 : 0 <= y).
  { destruct Hn as [H1 _]. pose proof (wpow_pos k).
    generalize dependent (wpow k). intros. nra. }
  destruct (near_weaken k 4 x y Hk Hx0 Hy0 Hn) as [H1 _].
  destruct wpow_4_bounds as [Hw _].
  generalize dependent (wpow 4). intros w H1 Hw. nra.
Qed.

Lemma near_upper (k : nat) (x y hi : Q) :
  (k <= 4)%nat -> 0 <= x -> x <= hi -> 0 <= y -> near k x y ->
  y <= (1 + (1 # 2097152)) * hi.
Proof.
  intros Hk Hx0 Hx Hy0 Hn.
  destruct (near_weaken k 4 x y Hk Hx0 Hy0 Hn) as [_ H2].
  destruct wpow_4_bounds as [_ Hw]. pose proof (wpow_pos 4) as Hw0.
  generalize dependent (wpow 4). intros w H2 Hw Hw0. nra.
Qed.

Lemma ratio100_f32_facts (tp n : Z) :
  (0 <= tp <= n)%Z -> (n < 9223372036854775808)%Z -> ratio_facts tp n.
Proof.
  intros Htp Hn.
  set (m := Z.max n 1).
  assert (Hm : (1 <= m <= 9223372036854775808)%Z) by (unfold m; lia).
  destruct (inject_Z_bounds 1 m _ Hm) as [Hm1 Hm2].
  change (inject_Z 1) with 1 in Hm1.
  change (inject_Z 9223372036854775808) with 9223372036854775808 in Hm2.
  pose proof pow2_m126_val as Hs.
  assert (Nb : near 1 (inject_Z m) (f32 (inject_Z m))) by (apply f32_near; lra).
  pose proof (round_to_crude float32 (inject_Z m) ltac:(lra)) as Hb.
  fold (f32 (inject_Z m)) in Hb.
  pose proof (near_lower 1 _ _ 1 ltac:(lia) ltac:(lra) Hm1 Nb) as Hblo.
  set (qm := inject_Z m) in *. set (b := f32 qm) in *.
  destruct (Z.eq_dec tp 0) as [-> | Hnz].
  - assert (Ha : f32 (inject_Z 0) = 0) by (apply round_to_zero; reflexivity).
    assert (Hq : f32 (0 / b) = 0) by (apply round_to_zero; field; lra).
    assert (Hp : f32 (0 * 100) = 0) by (apply round_to_zero; ring).
    assert (Hab : 0 / b == 0) by (field; lra).
    constructor; unfold ratio100_f32; change (Z.max n 1) with m;
      fold qm; fold b; rewrite ?Ha, ?Hq, ?Hp, ?Hab;
      try (intros; lia); try (intros; reflexivity);
      unfold two_100 in *; lra.
  - assert (Ht : (1 <= tp <= 9223372036854775808)%Z) by lia.
    destruct (inject_Z_bounds 1 tp _ Ht) as [Ht1 Ht2].
    change (inject_Z 1) with 1 in Ht1.
    change (inject_Z 9223372036854775808) with 9223372036854775808 in Ht2.
    assert (Htm : inject_Z tp <= qm).
    { unfold qm. rewrite <- Zle_Qle. unfold m. lia. }
    set (qt := inject_Z tp) in *.
    assert (Na : near 1 qt (f32 qt)) by (apply f32_near; lra).
    pose proof (round_to_crude float32 qt ltac:(lra)) as Ha.
    fold (f32 qt) in Ha. set (a := f32 qt) in *.
    assert (Hx : (1 # 9223372036854775808) <= qt / qm <= 1).
    { split; [apply Qle_shift_div_l | apply Qle_shift_div_r]; lra. }
    assert (Nab : near (1 + 1) (qt / qm) (a / b))
      by (apply near_div; try lra; assumption).
    assert (Hab0 : 0 <= a / b) by (apply Qle_shift_div_l; lra).
    pose proof (near_lower 2 _ _ (1 # 9223372036854775808) ltac:(lia) ltac:(lra)
                  (proj1 Hx) Nab) as Hablo.
    pose proof (near_upper 2 (qt / qm) (a / b) 1 ltac:(lia) ltac:(lra)
                  (proj2 Hx) Hab0 Nab)
      as Habhi.
    assert (Nq : near 1 (a / b) (f32 (a / b))) by (apply f32_near; lra).
    pose proof (round_to_nonneg float32 (a / b) Hab0) as Hq0.
    fold (f32 (a / b)) in Hq0.
    pose proof (near_trans 2 1 _ _ _ Nab Nq) as Nq3.
    set (q := f32 (a / b)) in *.
    pose proof (near_lower 3 _ _ (1 # 9223372036854775808) ltac:(lia) ltac:(lra)
                  (proj1 Hx) Nq3) as Hqlo.
    pose proof (near_upper 3 (qt / qm) q 1 ltac:(lia) ltac:(lra)
                  (proj2 Hx) Hq0 Nq3)
      as Hqhi.
    assert (Nq100 : near (3 + 0) (qt / qm * 100) (q * 100)).
    { apply near_mul; try lra; [exact Nq3 | apply near_refl]. }
    assert (Np : near 1 (q * 100) (f32 (q * 100))) by (apply f32_near; lra).
    pose proof (round_to_nonneg float32 (q * 100) ltac:(lra)) as Hp0.
    fold (f32 (q * 100)) in Hp0.
    pose proof (near_trans 3 1 _ _ _ Nq100 Np) as Np4.
    set (p := f32 (q * 100)) in *.
    assert (Hx100 : (100 # 9223372036854775808) <= qt / qm * 100 <= 100) by lra.
    pose proof (near_lower 4 _ _ (100 # 9223372036854775808) ltac:(lia) ltac:(lra)
                  (proj1 Hx100) Np4)
      as Hplo.
    pose proof (near_upper 4 (qt / qm * 100) p 100 ltac:(lia) ltac:(lra)
                  (proj2 Hx100) Hp0 Np4)
      as Hphi.
    constructor; unfold ratio100_f32; change (Z.max n 1) with m;
      fold qm; fold b; fold qt; fold a; fold q; fold p;
      try (intros; lia); try (intros _; exact Np4);
      unfold two_100 in *; lra.
Qed.

Lemma near_proper (k : nat) (x x' y y' : Q) :
  x == x' -> y == y' -> near k x y -> near k x' y'.
Proof. intros Hx Hy [H1 H2]. unfold near. rewrite <- Hx, <- Hy. split; assumption. Qed.

Lemma f1_value_f32_zero : f1_value_f32 0 0 = 0.
Proof.
  unfold f1_value_f32.
  assert (H1 : f32 (2 * 0) = 0) by (apply round_to_zero; ring).
  rewrite H1.
  assert (H2 : f32 (0 * 0) = 0) by (apply round_to_zero; ring).
  rewrite H2. apply round_to_zero.
  assert (Hd : 0 < Qmax (f32 (0 + 0)) f1_eps).
  { eapply Qlt_le_trans; [| apply Q.le_max_r]. reflexivity. }
  field. lra.
Qed.

(** The float32 F1 of equal precision and recall is that value up to four
    roundings, or lies below it when the floor of the denominator is
    active, which needs a value below 2^-23. *)
Lemma f1_value_f32_near (p : Q) :
  (1 # 1152921504606846976) <= p -> p <= 128 ->
  0 <= f1_value_f32 p p
  /\ f1_value_f32 p p * wpow 4 <= p
  /\ (p * wpow 4 <= f1_value_f32 p p \/ p < 1 # 8388608).
Proof.
  intros Hlo Hhi. unfold f1_value_f32.
  pose proof pow2_m126_val as Hs.
  assert (NA : near 1 (2 * p) (f32 (2 * p))) by (apply f32_near; lra).
  pose proof (round_to_crude float32 (2 * p) ltac:(lra)) as HA.
  fold (f32 (2 * p)) in HA.
  pose proof (near_lower 1 (2 * p) _ (1 # 1152921504606846976) ltac:(lia)
                ltac:(lra) ltac:(lra) NA) as HAlo.
  set (A := f32 (2 * p)) in *.
  assert (NAP : near (1 + 0) (2 * p * p) (A * p)).
  { apply near_mul; try lra; [exact NA | apply near_refl]. }
  assert (HAP : (1 # 2658455991569831745807614120560689152) <= A * p) by nra.
  assert (NB' : near 1 (A * p) (f32 (A * p))) by (apply f32_near; nra).
  pose proof (near_trans 1 1 _ _ _ NAP NB') as NB.
  pose proof (round_to_crude float32 (A * p) ltac:(nra)) as HB.
  fold (f32 (A * p)) in HB.
  pose proof (near_lower 1 (A * p) _ (1 # 2658455991569831745807614120560689152)
                ltac:(lia) ltac:(lra) HAP NB') as HBlo.
  set (B := f32 (A * p)) in *.
  assert (NS : near 1 (p + p) (f32 (p + p))) by (apply f32_near; lra).
  pose proof (round_to_crude float32 (p + p) ltac:(lra)) as HS.
  fold (f32 (p + p)) in HS.
  pose proof (near_lower 1 (p + p) _ (1 # 1152921504606846976) ltac:(lia)
                ltac:(lra) ltac:(lra) NS) as HSlo.
  set (Sm := f32 (p + p)) in *.
  change f1_eps with (1 # 8388608).
  destruct (Q.max_spec Sm (1 # 8388608)) as [[Hlt Hmax] | [Hle Hmax]].
  - (* the floor is active *)
    assert (HD : B / Qmax Sm (1 # 8388608) == B * 8388608).
    { rewrite Hmax. field. }
    assert (NF : near 1 (B / Qmax Sm (1 # 8388608))
                        (f32 (B / Qmax Sm (1 # 8388608)))).
    { apply f32_near. rewrite HD. lra. }
    pose proof (round_to_nonneg float32 (B / Qmax Sm (1 # 8388608))) as HF0.
    fold (f32 (B / Qmax Sm (1 # 8388608))) in HF0.
    set (F := f32 (B / Qmax Sm (1 # 8388608))) in *.
    assert (HF : 0 <= F) by (apply HF0; rewrite HD; lra).
    destruct NF as [_ NF2]. rewrite HD in NF2.
    destruct NB as [_ NB2]. destruct NS as [NS1 _].
    cbn [wpow Nat.add] in *. unfold w32 in *. clearbody A B Sm F.
    assert (Hp : p < 1 # 8388608) by lra.
    split; [exact HF |]. split; [| right; exact Hp].
    assert (H2p : 2 * p * 8388608 * (16777215 # 16777216) <= 1) by lra.
    assert (HB2 : B * 8388608 * ((16777215 # 16777216) * (16777215 # 16777216))
                  <= p * (2 * p * 8388608)) by nra.
    nra.
  - assert (HD : B / Qmax Sm (1 # 8388608) == B / Sm) by (rewrite Hmax; reflexivity).
    assert (ND : near (2 + 1) (2 * p * p / (p + p)) (B / Sm)).
    { apply near_div; try nra; [exact NB | exact NS]. }
    assert (Hpp : 2 * p * p / (p + p) == p) by (field; lra).
    assert (HBS0 : 0 <= B / Sm) by (apply Qle_shift_div_l; lra).
    assert (N3 : near 3 p (B / Sm)).
    { apply (near_proper 3 (2 * p * p / (p + p)) p (B / Sm) (B / Sm) Hpp
               (Qeq_refl _)). exact ND. }
    pose proof (near_lower 3 p (B / Sm) (1 # 1152921504606846976) ltac:(lia)
                  ltac:(lra) Hlo N3) as HBSlo.
    assert (NF : near 1 (B / Qmax Sm (1 # 8388608))
                        (f32 (B / Qmax Sm (1 # 8388608)))).
    { apply f32_near. rewrite HD. lra. }
    pose proof (round_to_nonneg float32 (B / Qmax Sm (1 # 8388608))) as HF0.
    fold (f32 (B / Qmax Sm (1 # 8388608))) in HF0.
    set (F := f32 (B / Qmax Sm (1 # 8388608))) in *.
    assert (HF : 0 <= F) by (apply HF0; rewrite HD; exact HBS0).
    assert (N4 : near 4 p F).
    { apply (near_trans 3 1 _ (B / Sm) _ N3).
      apply (near_proper 1 _ _ F F HD (Qeq_refl F)). exact NF. }
    destruct N4 as [N41 N42].
    split; [exact HF |]. split; [exact N42 | left; exact N41].
Qed.

Lemma Qeq_bool_pos_false (x : Q) : 0 < x -> Qeq_bool x 0 = false.
Proof.
  intros Hx. destruct (Qeq_bool x 0) eqn:E; [| reflexivity].
  apply Qeq_bool_iff in E. lra.
Qed.

(** Float32 division and multiplication of finite values that stay away
    from the overflow threshold. *)
Lemma f32_div_fin (a b : Q) :
  0 < b -> 0 <= a / b <= two_100 ->
  Float32.div (Fin a) (Fin b) = Fin (f32 (a / b)).
Proof.
  intros Hb Hab. unfold Float32.div. cbn [tdiv].
  rewrite (Qeq_bool_pos_false b Hb). apply rnd_fin. exact Hab.
Qed.

Lemma f32_mul_fin (a b : Q) :
  0 <= a * b <= two_100 ->
  Float32.mul (Fin a) (Fin b) = Fin (f32 (a * b)).
Proof. intros Hab. unfold Float32.mul. cbn [tmul]. apply rnd_fin. exact Hab. Qed.

Lemma f32_add_fin (a b : Q) :
  0 <= a + b <= two_100 ->
  Float32.add (Fin a) (Fin b) = Fin (f32 (a + b)).
Proof. intros Hab. unfold Float32.add. cbn [tadd]. apply rnd_fin. exact Hab. Qed.

Lemma f32_of_int_fin (z : Z) :
  (0 <= z <= 9223372036854775808)%Z ->
  Float32.of_int z = Fin (f32 (inject_Z z)).
Proof.
  intros Hz. unfold Float32.of_int. apply rnd_fin.
  destruct (inject_Z_bounds 0 z _ Hz) as [H0 H1].
  change (inject_Z 0) with 0 in H0.
  change (inject_Z 9223372036854775808) with 9223372036854775808 in H1.
  unfold two_100. lra.
Qed.

(** The float32 F1 of two finite percentages. *)
Lemma f32_f1_fin (p r : Q) :
  0 <= p <= 128 -> 0 <= r <= 128 ->
  Float32.div
    (Float32.mul (Float32.mul (Fin 2) (Fin p)) (Fin r))
    (tclamp_min f1_eps (Float32.add (Fin p) (Fin r)))
  = Fin (f1_value_f32 p r).
Proof.
  intros Hp Hr. unfold f1_value_f32.
  rewrite (f32_mul_fin 2 p) by (unfold two_100; lra).
  pose proof (round_to_crude float32 (2 * p) ltac:(lra)) as HA.
  fold (f32 (2 * p)) in HA. set (A := f32 (2 * p)) in *. clearbody A.
  assert (HAr : 0 <= A * r <= 65536) by nra.
  rewrite (f32_mul_fin A r) by (unfold two_100; lra).
  pose proof (round_to_crude float32 (A * r) ltac:(lra)) as HB.
  fold (f32 (A * r)) in HB. set (B := f32 (A * r)) in *. clearbody B.
  rewrite (f32_add_fin p r) by (unfold two_100; lra).
  pose proof (round_to_crude float32 (p + r) ltac:(lra)) as HS.
  fold (f32 (p + r)) in HS. set (Sm := f32 (p + r)) in *. clearbody Sm.
  cbn [tclamp_min].
  assert (HD : (1 # 8388608) <= Qmax Sm f1_eps) by apply Q.le_max_r.
  apply f32_div_fin; [lra |].
  split.
  - apply Qle_shift_div_l; lra.
  - apply Qle_shift_div_r; [lra |]. unfold two_100.
    generalize dependent (Qmax Sm f1_eps). intros D HD. nra.
Qed.

(** The micro reduction of two one-hot matrices of N rows each, in
    float32. *)
Lemma micro_f32_on_one_hot (c : Z) (pred target : list Z) :
  Forall (fun l => (0 <= l < c)%Z) pred ->
  Forall (fun l => (0 <= l < c)%Z) target ->
  length pred = length target ->
  (Z.of_nat (length target) < 9223372036854775808)%Z ->
  let n := Z.of_nat (length target) in
  let p := ratio100_f32 (count_true (zip_with Z.eqb pred target)) n in
  Float32._precision_recall_f1_support
    {| ncols := c; rows := map (one_hot_row c) pred |}
    {| ncols := c; rows := map (one_hot_row c) target |}
    (Some "micro"%string)
  = inr (Scalar (Fin p), Scalar (Fin p), Scalar (Fin (f1_value_f32 p p)),
         Scalar n).
Proof.
  intros Hp Ht Hlen Hn n p.
  unfold Float32._precision_recall_f1_support, confusion_sums.
  change (average_options_ok (Some "micro"%string)) with true.
  change (average_is (Some "micro"%string) "micro") with true.
  cbn [negb orb].
  rewrite (mat_sum_one_hot_and _ _ _ Hp), (mat_sum_one_hot _ _ Hp),
    (mat_sum_one_hot _ _ Ht), Hlen.
  fold n. set (tp := count_true (zip_with Z.eqb pred target)) in *.
  assert (Htp : (0 <= tp <= n)%Z).
  { unfold tp, n. split; [apply count_true_nonneg |].
    eapply Z.le_trans; [apply count_true_le_length |].
    rewrite zip_with_length. lia. }
  destruct (ratio100_f32_facts tp n Htp Hn) as [Ha Hb Hab Hq Hp' _ _ _].
  unfold Float32.precision_of, Float32.recall_of, Float32.f1_score_of,
    Float32.clamp_min_int.
  cbn [tmap tmap2 Float32.mean0 tsum0].
  rewrite (f32_of_int_fin tp) by lia.
  rewrite (f32_of_int_fin (Z.max n 1)) by lia.
  rewrite (f32_div_fin _ _ (proj1 Hb)) by (unfold two_100; lra).
  rewrite f32_mul_fin by (unfold two_100; lra).
  fold (ratio100_f32 tp n). fold p.
  rewrite (f32_f1_fin p p Hp' Hp'). reflexivity.
Qed.

Lemma Qmax_inject_Z (n : Z) : Qmax (inject_Z n) 1 == inject_Z (Z.max n 1).
Proof.
  destruct (Z.le_ge_cases n 1) as [H | H].
  - rewrite Z.max_r by exact H. apply Q.max_r.
    change 1 with (inject_Z 1). rewrite <- Zle_Qle. exact H.
  - rewrite Z.max_l by lia. apply Q.max_l.
    change 1 with (inject_Z 1). rewrite <- Zle_Qle. lia.
Qed.

(** The float32 micro values against the exact ones. *)
Lemma micro_f32_tolerance (tp n : Z) :
  (0 <= tp <= n)%Z -> (n < 9223372036854775808)%Z ->
  let p := ratio100_f32 tp n in
  let f := f1_value_f32 p p in
  0 <= p /\ 0 <= f
  /\ Qabs (p - ratio100 tp n) <= (1 # 2097152) * ratio100 tp n
  /\ Qabs (f - p) <= (1 # 2097152) * p + (1 # 8388608).
Proof.
  intros Htp Hn p f.
  destruct (ratio100_f32_facts tp n Htp Hn) as [_ _ _ _ Hp Hp0 Hp1 Hnear].
  fold p in Hp, Hp0, Hp1, Hnear.
  destruct (Z.eq_dec tp 0) as [Hz | Hnz].
  - specialize (Hp0 Hz). unfold f. rewrite Hp0, f1_value_f32_zero. subst tp.
    assert (Hr : ratio100 0 n == 0).
    { unfold ratio100. change (inject_Z 0) with 0.
      assert (0 < Qmax (inject_Z n) 1).
      { eapply Qlt_le_trans; [| apply Q.le_max_r]. reflexivity. }
      field. lra. }
    rewrite Hr. repeat split; try apply Qle_refl; unfold Qle; cbn; lia.
  - assert (H1 : (1 <= tp)%Z) by lia.
    specialize (Hp1 H1). specialize (Hnear H1).
    destruct (f1_value_f32_near p Hp1 (proj2 Hp)) as (Hf0 & Hf1 & Hf2).
    fold f in Hf0, Hf1, Hf2.
    assert (Hx : inject_Z tp / inject_Z (Z.max n 1) * 100 == ratio100 tp n).
    { unfold ratio100. rewrite Qmax_inject_Z. reflexivity. }
    apply (near_proper 4 _ (ratio100 tp n) p p Hx (Qeq_refl p)) in Hnear.
    assert (Hr0 : 0 <= ratio100 tp n).
    { apply ratio100_nonneg. lia. }
    destruct (near_4_tolerance _ _ Hr0 Hnear) as [_ Htol].
    split; [exact (proj1 Hp) |]. split; [exact Hf0 |]. split; [exact Htol |].
    destruct wpow_4_bounds as [Hw1 Hw2]. pose proof (wpow_pos 4) as Hw0.
    destruct Hp as [Hp Hp128].
    set (w := wpow 4) in *. clearbody w p f.
    apply Qabs_Qle_condition. split.
    + destruct Hf2 as [Hf2 | Hf2]; nra.
    + nra.
Qed.

Local Close Scope Q_scope.

(** ** The accuracy of a label input in float32 *)

(** C6, as the code has it.  On a non-empty 1-D label input of N <= 2^24
    samples whose target has the same length, the float32 code returns one
    value whatever [topk] and [thrs] are: the float32 product of the count
    and the float32 value of 100/N, which lies within a relative 2^-21 of
    100 * count(pred == target) / N.  The inputs pred=[0,2,1,3],
    target=[0,1,2,3] give exactly 50; a prediction equal to its target
    gives 100 up to that rounding. *)
Theorem accuracy_label_input_float32
  (pred target : list Z) (topk topk' : list Z) (thrs thrs' : list (option Q))
  (Hne : pred <> []) (Hlen : length pred = length target)
  (Hn : Z.of_nat (length pred) <= 16777216) :
  exists acc,
    Float32.calculate pred target topk thrs = inr (Fin acc)
    /\ Float32.calculate pred target topk' thrs' = inr (Fin acc)
    /\ (0 <= acc)%Q
    /\ (Qabs (acc - inject_Z (count_true (zip_with Z.eqb pred target))
                    * (100 / inject_Z (Z.of_nat (length pred))))
        <= (1 # 2097152)
           * (inject_Z (count_true (zip_with Z.eqb pred target))
              * (100 / inject_Z (Z.of_nat (length pred)))))%Q
    /\ (pred = target -> (Qabs (acc - 100) <= 100 # 2097152)%Q)
    /\ (pred = [0; 2; 1; 3] -> target = [0; 1; 2; 3] -> (acc == 50)%Q).
Proof.
  set (c := count_true (zip_with Z.eqb pred target)).
  set (n := Z.of_nat (length pred)).
  assert (Hn1 : 1 <= n).
  { unfold n. destruct pred; [congruence | cbn [length]; lia]. }
  assert (Hc : 0 <= c <= n).
  { unfold c, n. split; [apply count_true_nonneg |].
    eapply Z.le_trans; [apply count_true_le_length |].
    rewrite zip_with_length. lia. }
  destruct (scale_f32_tolerance c n Hc (conj Hn1 Hn)) as [H0 Htol].
  exists (scale_f32 c n).
  split; [apply calculate_f32_value; assumption |].
  split; [apply calculate_f32_value; assumption |].
  split; [exact H0 |]. split; [exact Htol |]. split.
  - intros Heq. subst target.
    assert (Hcn : c = n) by (unfold c, n; apply count_true_eqb_same).
    clearbody c. subst c.
    assert (Hq : (inject_Z n * (100 / inject_Z n) == 100)%Q).
    { field. apply inject_Z_nonzero. lia. }
    rewrite Hq in Htol. lra.
  - intros Hp Ht. unfold c, n. rewrite Hp, Ht. vm_compute. reflexivity.
Qed.

Lemma accuracy_label_input_float32_witness :
  exists acc,
    Float32.calculate [0; 2; 1; 3] [0; 1; 2; 3] [1] [Some 0%Q] = inr (Fin acc)
    /\ (acc == 50)%Q.
Proof.
  destruct (accuracy_label_input_float32 [0; 2; 1; 3] [0; 1; 2; 3]
              [1] [1; 5] [Some 0%Q] [None])
    as [acc (H1 & _ & _ & _ & _ & H5)];
    [discriminate | reflexivity | simpl; lia |].
  exists acc. split; [exact H1 | apply H5; reflexivity].
Defined.

(** C6, as the specification words it, does not hold for every input: on
    45 samples that all match their target the code returns
    100.00000762939453 = 100 + 2^-17, the float32 next above 100. *)
Lemma accuracy_of_equal_labels_is_not_exactly_100 :
  exists acc,
    Float32.calculate (repeat 0 45) (repeat 0 45) [1] [Some 0%Q]
    = inr (Fin acc)
    /\ (acc == 100 + (1 # 131072))%Q
    /\ ~ (acc == 100)%Q.
Proof.
  eexists. split; [vm_compute; reflexivity |].
  split; [reflexivity | discriminate].
Qed.

(** ** The micro average in float32 *)

(** C4.  On the one-hot matrices of N < 2^63 predicted and N true labels,
    the micro reduction in float32 returns one and the same value for
    precision and recall, within a relative 2^-21 of 100 * tp / max(N, 1),
    and a micro F1 that agrees with it within the tolerance
    2^-21 * precision + 2^-23. *)
Theorem micro_precision_recall_f1_float32
  (pred target : list Z) (num_classes : Z)
  (pred_positive gt_positive : matrix)
  (Hpp : one_hot pred num_classes = inr pred_positive)
  (Hgp : one_hot target num_classes = inr gt_positive)
  (Hnc : num_classes <> -1)
  (Hlen : length pred = length target)
  (Hn : Z.of_nat (length target) < 9223372036854775808) :
  exists p f,
    Float32._precision_recall_f1_support pred_positive gt_positive
      (Some "micro"%string)
    = inr (Scalar (Fin p), Scalar (Fin p), Scalar (Fin f),
           Scalar (Z.of_nat (length target)))
    /\ (0 <= p)%Q /\ (0 <= f)%Q
    /\ (Qabs (p - ratio100 (count_true (zip_with Z.eqb pred target))
                           (Z.of_nat (length target)))
        <= (1 # 2097152)
           * ratio100 (count_true (zip_with Z.eqb pred target))
                      (Z.of_nat (length target)))%Q
    /\ (Qabs (f - p) <= (1 # 2097152) * p + (1 # 8388608))%Q.
Proof.
  destruct (one_hot_inv _ _ _ Hpp) as (Hrp & Hfp & Hcp).
  destruct (one_hot_inv _ _ _ Hgp) as (Hrg & Hfg & Hcg).
  specialize (Hcp Hnc). specialize (Hcg Hnc).
  destruct pred_positive as [cp rp], gt_positive as [cg rg].
  cbn [ncols rows] in *. subst cp cg rp rg.
  set (tp := count_true (zip_with Z.eqb pred target)).
  set (n := Z.of_nat (length target)).
  assert (Htp : 0 <= tp <= n).
  { unfold tp, n. split; [apply count_true_nonneg |].
    eapply Z.le_trans; [apply count_true_le_length |].
    rewrite zip_with_length. lia. }
  exists (ratio100_f32 tp n),
    (f1_value_f32 (ratio100_f32 tp n) (ratio100_f32 tp n)).
  split; [apply (micro_f32_on_one_hot _ _ _ Hfp Hfg Hlen Hn) |].
  apply (micro_f32_tolerance tp n Htp Hn).
Qed.

Lemma micro_precision_recall_f1_float32_witness :
  exists p f,
    Float32._precision_recall_f1_support
      {| ncols := 4; rows := map (one_hot_row 4) [0; 1; 1; 3] |}
      {| ncols := 4; rows := map (one_hot_row 4) [0; 2; 1; 3] |}
      (Some "micro"%string)
    = inr (Scalar (Fin p), Scalar (Fin p), Scalar (Fin f), Scalar 4)
    /\ (Qabs (f - p) <= (1 # 2097152) * p + (1 # 8388608))%Q.
Proof.
  destruct (micro_precision_recall_f1_float32
              [0; 1; 1; 3] [0; 2; 1; 3] 4
              {| ncols := 4; rows := map (one_hot_row 4) [0; 1; 1; 3] |}
              {| ncols := 4; rows := map (one_hot_row 4) [0; 2; 1; 3] |})
    as (p & f & Hret & _ & _ & _ & Htol);
    [reflexivity | reflexivity | discriminate | reflexivity | simpl; lia |].
  exists p, f. split; [exact Hret | exact Htol].
Defined.

(** * Further properties of the code *)

(** ** The accumulation step *)

Lemma foldM_append_mapM {A B} (f : A -> result B) (l : list A) (acc : list B) :
  foldM (fun rs a => r <- f a ;; ret (rs ++ [r])) acc l
  = (new <- mapM f l ;; ret (acc ++ new)).
Proof.
  revert acc. induction l as [| a l IH]; intros acc; cbn [foldM mapM bind ret].
  - rewrite app_nil_r. reflexivity.
  - destruct (f a) as [e | r]; cbn [bind ret]; [reflexivity |].
    rewrite IH. destruct (mapM f l) as [e | new]; cbn [bind ret];
      [reflexivity |].
    rewrite <- app_assoc. reflexivity.
Qed.

(** X1.  [process] only appends: on success the stored records are the old
    ones followed by one record per zipped (data, prediction) pair, in
    order, so min(len(data_batch), len(predictions)) records are added; on
    failure the exception is that of the first failing pair.  This holds
    for [Accuracy.process] and [SingleLabelMetric.process]. *)
Theorem process_appends_in_order
  (results : list ResultDict) (data_batch : list DataDict)
  (predictions : list PredDict) :
  let pairs := combine data_batch predictions in
  Accuracy.process results data_batch predictions
  = (new <- mapM (fun dp => Accuracy.process_one (fst dp) (snd dp)) pairs ;;
     ret (results ++ new))
  /\ SingleLabelMetric.process results data_batch predictions
     = (new <- mapM (fun dp => SingleLabelMetric.process_one (fst dp) (snd dp))
                    pairs ;;
        ret (results ++ new))
  /\ (forall results',
         Accuracy.process results data_batch predictions = inr results'
         \/ SingleLabelMetric.process results data_batch predictions
            = inr results' ->
         firstn (length results) results' = results
         /\ length results'
            = (length results
               + Nat.min (length data_batch) (length predictions))%nat).
Proof.
  intros pairs.
  assert (HA : Accuracy.process results data_batch predictions
               = (new <- mapM (fun dp => Accuracy.process_one (fst dp) (snd dp))
                              pairs ;;
                  ret (results ++ new))).
  { unfold Accuracy.process, process_with. apply foldM_append_mapM. }
  assert (HS : SingleLabelMetric.process results data_batch predictions
               = (new <- mapM (fun dp =>
                                 SingleLabelMetric.process_one (fst dp) (snd dp))
                              pairs ;;
                  ret (results ++ new))).
  { unfold SingleLabelMetric.process, process_with. apply foldM_append_mapM. }
  split; [exact HA |]. split; [exact HS |].
  intros results' [H | H]; [rewrite HA in H | rewrite HS in H];
    apply bind_ret_inv in H; destruct H as [new [Hm H]];
    inversion H; subst results';
    apply mapM_length in Hm;
    (split;
     [ rewrite firstn_app, Nat.sub_diag, firstn_all;
       cbn [firstn]; apply app_nil_r
     | rewrite length_app, Hm; unfold pairs; rewrite length_combine;
       reflexivity ]).
Qed.

Lemma process_appends_in_order_witness :
  let data := {| d_data_sample :=
                   Some {| ds_gt_label :=
                             Some {| ld_score := None; ld_label := Some [1];
                                     ld_num_classes := None |};
                           ds_num_classes := None |} |} in
  let pred := {| p_pred_label :=
                   Some {| ld_score := Some [0.2; 0.8]%Q; ld_label := None;
                           ld_num_classes := None |};
                 p_gt_label := None |} in
  let old := {| r_pred_score := Some [0.9; 0.1]%Q; r_pred_label := None;
                r_num_classes := None; r_gt_label := [0] |} in
  exists results',
    Accuracy.process [old] [data; data; data] [pred; pred] = inr results'
    /\ firstn 1 results' = [old]
    /\ length results' = 3%nat.
Proof.
  intros data pred old.
  destruct (process_appends_in_order [old] [data; data; data] [pred; pred])
    as (_ & _ & H).
  eexists. split; [vm_compute; reflexivity |].
  apply (H _ (or_introl eq_refl)).
Defined.

(** ** Ground truth of a sample *)

(** X2.  Both [process] steps take the ground truth of the prediction when
    it carries one, and that of the data sample otherwise; the default of
    [pred.get] is evaluated first, so a data sample without [gt_label]
    raises KeyError even when the prediction has its own. *)
Theorem process_ground_truth_precedence
  (data_sample : DataSample) (pred_label : LabelData)
  (own : option LabelData) (score : list Q)
  (Hscore : ld_score pred_label = Some score) :
  let data := {| d_data_sample := Some data_sample |} in
  let pred := {| p_pred_label := Some pred_label; p_gt_label := own |} in
  (ds_gt_label data_sample = None ->
   Accuracy.process_one data pred = inl (KeyError "gt_label")
   /\ SingleLabelMetric.process_one data pred = inl (KeyError "gt_label"))
  /\ (forall dflt chosen gt,
         ds_gt_label data_sample = Some dflt ->
         chosen = match own with Some g => g | None => dflt end ->
         ld_label chosen = Some gt ->
         Accuracy.process_one data pred
         = inr {| r_pred_score := Some score; r_pred_label := None;
                  r_num_classes := None; r_gt_label := gt |}
         /\ SingleLabelMetric.process_one data pred
            = inr {| r_pred_score := Some score; r_pred_label := None;
                     r_num_classes := None; r_gt_label := gt |}).
Proof.
  intros data pred. split.
  - intros Hnone.
    unfold Accuracy.process_one, SingleLabelMetric.process_one.
    cbn [data pred p_pred_label d_data_sample getitem bind ret].
    rewrite Hnone. split; reflexivity.
  - intros dflt chosen gt Hd Hc Hgt.
    unfold Accuracy.process_one, SingleLabelMetric.process_one.
    cbn [data pred p_pred_label p_gt_label d_data_sample getitem bind ret].
    rewrite Hd. cbn [getitem bind ret]. rewrite Hscore, <- Hc, Hgt.
    split; reflexivity.
Qed.

Lemma process_ground_truth_precedence_witness :
  let own := {| ld_score := None; ld_label := Some [2]; ld_num_classes := None |} in
  let pl := {| ld_score := Some [0.2; 0.8]%Q; ld_label := None;
               ld_num_classes := None |} in
  Accuracy.process_one
    {| d_data_sample := Some {| ds_gt_label := None; ds_num_classes := None |} |}
    {| p_pred_label := Some pl; p_gt_label := Some own |}
  = inl (KeyError "gt_label")
  /\ Accuracy.process_one
       {| d_data_sample :=
            Some {| ds_gt_label :=
                      Some {| ld_score := None; ld_label := Some [1];
                              ld_num_classes := None |};
                    ds_num_classes := None |} |}
       {| p_pred_label := Some pl; p_gt_label := Some own |}
     = inr {| r_pred_score := Some [0.2; 0.8]%Q; r_pred_label := None;
              r_num_classes := None; r_gt_label := [2] |}.
Proof.
  intros own pl. split.
  - apply (process_ground_truth_precedence
             {| ds_gt_label := None; ds_num_classes := None |}
             pl (Some own) [0.2; 0.8]%Q eq_refl).
    reflexivity.
  - eapply (process_ground_truth_precedence _ pl (Some own) [0.2; 0.8]%Q eq_refl);
      reflexivity.
Defined.

(** ** The class count of a label prediction *)

(** [SingleLabelMetric.process] on a prediction without scores: with no
    [num_classes] in the prediction nor in the data sample it raises
    ValueError; otherwise it stores the label with the prediction's own
    [num_classes], or the data sample's when the own one is absent or 0
    (KeyError if the data sample has none). *)
Lemma single_label_process_num_classes
  (data_sample : DataSample) (pred_label gt : LabelData)
  (label gt_label : list Z)
  (Hscore : ld_score pred_label = None)
  (Hlabel : ld_label pred_label = Some label)
  (Hgt : ds_gt_label data_sample = Some gt)
  (Hgtl : ld_label gt = Some gt_label) :
  let data := {| d_data_sample := Some data_sample |} in
  let pred := {| p_pred_label := Some pred_label; p_gt_label := None |} in
  let stored n := inr {| r_pred_score := None; r_pred_label := Some label;
                         r_num_classes := Some n; r_gt_label := gt_label |} in
  SingleLabelMetric.process_one data pred
  = match ld_num_classes pred_label, ds_num_classes data_sample with
    | None, None => inl (ValueError SingleLabelMetric.missing_score_msg)
    | Some own, Some n => if own =? 0 then stored n else stored own
    | Some own, None =>
        if own =? 0 then inl (KeyError "num_classes") else stored own
    | None, Some n => stored n
    end.
Proof.
  intros data pred stored. unfold SingleLabelMetric.process_one.
  cbn [data pred p_pred_label p_gt_label d_data_sample getitem bind ret].
  rewrite Hgt. cbn [getitem bind ret]. rewrite Hscore, Hlabel.
  destruct (ld_num_classes pred_label) as [own |],
    (ds_num_classes data_sample) as [n |]; cbn [getitem bind ret];
    try destruct (own =? 0); cbn [getitem bind ret]; rewrite ?Hgtl;
    reflexivity.
Qed.

Lemma single_label_process_num_classes_witness :
  SingleLabelMetric.process_one
    {| d_data_sample :=
         Some {| ds_gt_label :=
                   Some {| ld_score := None; ld_label := Some [1];
                           ld_num_classes := None |};
                 ds_num_classes := Some 5 |} |}
    {| p_pred_label := Some {| ld_score := None; ld_label := Some [3];
                               ld_num_classes := Some 0 |};
       p_gt_label := None |}
  = inr {| r_pred_score := None; r_pred_label := Some [3];
           r_num_classes := Some 5; r_gt_label := [1] |}.
Proof.
  apply (single_label_process_num_classes
           {| ds_gt_label :=
                Some {| ld_score := None; ld_label := Some [1];
                        ld_num_classes := None |};
              ds_num_classes := Some 5 |}
           {| ld_score := None; ld_label := Some [3]; ld_num_classes := Some 0 |}
           {| ld_score := None; ld_label := Some [1]; ld_num_classes := None |}
           [3] [1] eq_refl eq_refl eq_refl eq_refl).
Defined.

(** ** Finalising *)

Lemma foldM_all_empty_batches
  (step : DataDict -> PredDict -> result ResultDict)
  (batches : list (list DataDict * list PredDict)) :
  Forall (fun b => fst b = [] \/ snd b = []) batches ->
  foldM (fun rs b => process_with step rs (fst b) (snd b)) [] batches = inr [].
Proof.
  induction 1 as [| b batches Hb _ IH]; [reflexivity |].
  cbn [foldM]. unfold process_with at 1.
  assert (Hc : combine (fst b) (snd b) = []).
  { destruct Hb as [-> | ->]; [reflexivity | apply combine_nil]. }
  rewrite Hc. cbn [foldM bind ret]. exact IH.
Qed.

(** X3.  A run that stored no record cannot be finalised: when every batch
    is empty (or there is no batch), both engines raise the RuntimeError of
    [torch.cat] on an empty list instead of returning metrics. *)
Theorem evaluate_without_samples_fails
  (acc_cfg : Accuracy.config) (slm_cfg : SingleLabelMetric.config)
  (batches : list (list DataDict * list PredDict))
  (Hempty : Forall (fun b => fst b = [] \/ snd b = []) batches) :
  Accuracy.evaluate acc_cfg batches
  = inl (RuntimeError "torch.cat(): expected a non-empty list of Tensors")
  /\ SingleLabelMetric.evaluate slm_cfg batches
     = inl (RuntimeError "torch.cat(): expected a non-empty list of Tensors").
Proof.
  unfold Accuracy.evaluate, SingleLabelMetric.evaluate,
    Accuracy.process, SingleLabelMetric.process.
  rewrite !(foldM_all_empty_batches _ _ Hempty). split; reflexivity.
Qed.

Lemma evaluate_without_samples_fails_witness :
  Accuracy.evaluate {| Accuracy.topk := [1]; Accuracy.thrs := [Some 0%Q] |}
                    [([], []); ([], [])]
  = inl (RuntimeError "torch.cat(): expected a non-empty list of Tensors").
Proof.
  apply (evaluate_without_samples_fails
           {| Accuracy.topk := [1]; Accuracy.thrs := [Some 0%Q] |}
           {| SingleLabelMetric.thrs := [Some 0%Q];
              SingleLabelMetric.items := [];
              SingleLabelMetric.average := None |}
           [([], []); ([], [])]).
  repeat constructor.
Defined.

Lemma mapM_getitem_missing {A B} (key : string) (f : A -> option B)
  (l : list A) :
  Exists (fun a => f a = None) l ->
  mapM (fun a => getitem key (f a)) l = inl (KeyError key).
Proof.
  induction 1 as [a l Ha | a l _ IH]; cbn [mapM].
  - rewrite Ha. reflexivity.
  - destruct (f a); cbn [getitem bind ret raise]; [| reflexivity].
    rewrite IH. reflexivity.
Qed.

(** X4.  The first stored record alone selects the score or the label
    path.  If it holds scores and some record holds none, or it holds no
    scores and some record holds no label, both [compute_metrics] raise
    KeyError for the missing field. *)
Theorem compute_metrics_mixed_records
  (acc_cfg : Accuracy.config) (slm_cfg : SingleLabelMetric.config)
  (first : ResultDict) (rest : list ResultDict) :
  (r_pred_score first <> None ->
   Exists (fun r => r_pred_score r = None) rest ->
   Accuracy.compute_metrics acc_cfg (first :: rest)
   = inl (KeyError "pred_score")
   /\ SingleLabelMetric.compute_metrics slm_cfg (first :: rest)
      = inl (KeyError "pred_score"))
  /\ (r_pred_score first = None ->
      Exists (fun r => r_pred_label r = None) (first :: rest) ->
      Accuracy.compute_metrics acc_cfg (first :: rest)
      = inl (KeyError "pred_label")
      /\ SingleLabelMetric.compute_metrics slm_cfg (first :: rest)
         = inl (KeyError "pred_label")).
Proof.
  split.
  - intros Hfirst Hex.
    assert (Hm : mapM (fun res => getitem "pred_score" (r_pred_score res))
                      (first :: rest) = inl (KeyError "pred_score")).
    { apply mapM_getitem_missing. apply Exists_cons_tl. exact Hex. }
    unfold Accuracy.compute_metrics, SingleLabelMetric.compute_metrics.
    cbn [map torch_cat bind ret index nth_error].
    destruct (r_pred_score first) as [s |] eqn:E; [| congruence].
    rewrite Hm. split; reflexivity.
  - intros Hfirst Hex.
    assert (Hm : mapM (fun res => getitem "pred_label" (r_pred_label res))
                      (first :: rest) = inl (KeyError "pred_label")).
    { apply mapM_getitem_missing. exact Hex. }
    unfold Accuracy.compute_metrics, SingleLabelMetric.compute_metrics.
    cbn [map torch_cat bind ret index nth_error].
    rewrite Hfirst, Hm. split; reflexivity.
Qed.

Lemma compute_metrics_mixed_records_witness :
  Accuracy.compute_metrics
    {| Accuracy.topk := [1]; Accuracy.thrs := [Some 0%Q] |}
    [ {| r_pred_score := Some [0.9; 0.1]%Q; r_pred_label := None;
         r_num_classes := None; r_gt_label := [0] |};
      {| r_pred_score := None; r_pred_label := Some [1];
         r_num_classes := None; r_gt_label := [1] |} ]
  = inl (KeyError "pred_score").
Proof.
  destruct (compute_metrics_mixed_records
              {| Accuracy.topk := [1]; Accuracy.thrs := [Some 0%Q] |}
              {| SingleLabelMetric.thrs := [Some 0%Q];
                 SingleLabelMetric.items := [];
                 SingleLabelMetric.average := None |}
              {| r_pred_score := Some [0.9; 0.1]%Q; r_pred_label := None;
                 r_num_classes := None; r_gt_label := [0] |}
              [ {| r_pred_score := None; r_pred_label := Some [1];
                   r_num_classes := None; r_gt_label := [1] |} ])
    as [H _].
  apply H; [discriminate | repeat constructor].
Defined.

(** ** The metric dict of [Accuracy] *)

Lemma foldM_enumerate_from {A S} (F : S -> nat -> A -> result S)
  (G : S -> A -> S) (pre l : list A) (s0 : S) :
  (forall s i x, nth_error (pre ++ l) i = Some x -> F s i x = inr (G s x)) ->
  foldM (fun s ix => F s (fst ix) (snd ix)) s0
        (combine (seq (length pre) (length l)) l)
  = inr (fold_left G l s0).
Proof.
  intros HF. revert pre s0 HF. induction l as [| a l IH]; intros pre s0 HF.
  - reflexivity.
  - cbn [length seq combine foldM fst snd fold_left].
    rewrite (HF s0 (length pre) a).
    + cbn [bind].
      specialize (IH (pre ++ [a]) (G s0 a)).
      rewrite length_app in IH. cbn [length] in IH.
      rewrite Nat.add_1_r in IH. apply IH.
      intros s i x Hx. apply HF. rewrite <- app_assoc in Hx. exact Hx.
    + rewrite nth_error_app2, Nat.sub_diag by lia. reflexivity.
Qed.

Lemma foldM_enumerate {A S} (F : S -> nat -> A -> result S)
  (G : S -> A -> S) (l : list A) (s0 : S) :
  (forall s i x, nth_error l i = Some x -> F s i x = inr (G s x)) ->
  foldM (fun s ix => F s (fst ix) (snd ix)) s0 (enumerate l)
  = inr (fold_left G l s0).
Proof.
  intros HF. apply (foldM_enumerate_from F G [] l s0 HF).
Qed.

Lemma fold_left_flat_map {A B S} (g : S -> B -> S) (f : A -> list B)
  (l : list A) (s0 : S) :
  fold_left g (flat_map f l) s0
  = fold_left (fun s a => fold_left g (f a) s) l s0.
Proof.
  revert s0. induction l as [| a l IH]; intros s0; cbn [flat_map fold_left].
  - reflexivity.
  - rewrite fold_left_app. apply IH.
Qed.

Lemma fold_left_map {A B S} (g : S -> B -> S) (f : A -> B) (l : list A)
  (s0 : S) :
  fold_left g (map f l) s0 = fold_left (fun s a => g s (f a)) l s0.
Proof.
  revert s0. induction l as [| a l IH]; intros s0; cbn [map fold_left];
    [reflexivity | apply IH].
Qed.

(** The records of a run on scores give the stacked score tensor. *)
Lemma score_records_stored (c : nat) (results : list ResultDict) :
  results <> [] -> Forall (score_record c) results ->
  mapM (fun res => getitem "pred_score" (r_pred_score res)) results
  = inr (stored_scores results)
  /\ torch_stack (stored_scores results)
     = inr {| size1 := Z.of_nat c; srows := stored_scores results |}
  /\ length (stored_targets results) = length results.
Proof.
  intros Hne Hall.
  assert (Hm : mapM (fun res => getitem "pred_score" (r_pred_score res)) results
               = inr (stored_scores results)).
  { apply mapM_getitem_some. eapply Forall_impl; [| exact Hall].
    intros r [[s [Hs _]] _]. rewrite Hs. reflexivity. }
  destruct (score_records_stack c results Hne Hall) as [scores (Hm' & Hst & _)].
  assert (scores = stored_scores results) by congruence. subst scores.
  split; [exact Hm |]. split; [exact Hst |].
  unfold stored_targets. apply length_concat_singletons.
  eapply Forall_impl; [| exact Hall]. intros r [_ Hr]. exact Hr.
Qed.

(** On the records of a run on scores, [compute_metrics] sets one name per
    (k, thr) pair, in the order of the two loops. *)
Lemma accuracy_compute_metrics_scores (self : Accuracy.config) (c : nat)
  (results : list ResultDict) :
  results <> [] -> Forall (score_record c) results ->
  Accuracy.topk self <> [] ->
  0 <= zmax_list (Accuracy.topk self) <= Z.of_nat c ->
  let pred := {| size1 := Z.of_nat c; srows := stored_scores results |} in
  let acc k thr :=
    (inject_Z (correct_k pred (stored_targets results) (Accuracy.topk self)
                         k thr)
     * (100 / inject_Z (Z.of_nat (length results))))%Q in
  Accuracy.compute_metrics self results
  = inr (fold_left
           (fun metrics kt =>
              dict_set
                (Accuracy.metric_name (1 <? length (Accuracy.thrs self))%nat
                                      (fst kt) (snd kt))
                (acc (fst kt) (snd kt)) metrics)
           (topk_thr_pairs self) []).
Proof.
  intros Hne Hall Htopk Hmax pred acc.
  destruct (score_records_stored c results Hne Hall) as (Hm & Hst & Hlen).
  unfold Accuracy.compute_metrics.
  destruct results as [| r0 results']; [congruence |].
  set (results := r0 :: results') in *.
  change (torch_cat (map r_gt_label results))
    with (@inr exn _ (stored_targets results)).
  cbn [bind ret]. unfold index at 1. cbn [results nth_error bind ret].
  fold results.
  inversion Hall as [| ? ? [[s0 [Hs0 _]] _] _]; subst.
  rewrite Hs0, Hm. cbn [bind]. rewrite Hst. cbn [bind].
  fold pred.
  rewrite (accuracy_scores_value pred (stored_targets results)); cycle 1.
  - cbn [pred srows]. unfold stored_scores. rewrite length_map.
    symmetry. exact Hlen.
  - intros Hnil. rewrite Hnil in Hlen. discriminate Hlen.
  - exact Htopk.
  - exact Hmax.
  - cbn [bind]. rewrite Hlen.
    unfold topk_thr_pairs. rewrite fold_left_flat_map.
    set (multi := (1 <? length (Accuracy.thrs self))%nat).
    set (table := map (fun k => map (fun thr => acc k thr) (Accuracy.thrs self))
                      (Accuracy.topk self)).
    apply (foldM_enumerate
             (fun metrics i k =>
                foldM (fun metrics0 jthr =>
                         row <- index table i ;;
                         a <- index row (fst jthr) ;;
                         ret (dict_set (Accuracy.metric_name multi k (snd jthr))
                                       a metrics0))
                      metrics (enumerate (Accuracy.thrs self)))
             (fun metrics k =>
                fold_left
                  (fun metrics0 kt =>
                     dict_set (Accuracy.metric_name multi (fst kt) (snd kt))
                              (acc (fst kt) (snd kt)) metrics0)
                  (map (fun thr => (k, thr)) (Accuracy.thrs self)) metrics)).
    intros metrics i k Hk. rewrite fold_left_map. cbn [fst snd].
    apply (foldM_enumerate
             (fun metrics0 j thr =>
                row <- index table i ;;
                a <- index row j ;;
                ret (dict_set (Accuracy.metric_name multi k thr) a metrics0))
             (fun metrics0 thr =>
                dict_set (Accuracy.metric_name multi k thr) (acc k thr)
                         metrics0)).
    intros metrics' j thr Hthr. unfold index, table.
    rewrite (map_nth_error _ _ _ Hk). cbn [bind ret].
    rewrite (map_nth_error _ _ _ Hthr). reflexivity.
Qed.






(** X7.  Two thresholds that print alike with two decimals share one
    metric name: with one k and thresholds thr1, thr2 of equal [.2f]
    text, [Accuracy.compute_metrics] returns a single entry, holding the
    accuracy of the later threshold thr2. *)
Theorem accuracy_threshold_names_collide (k : Z) (thr1 thr2 : Q)
  (c : nat) (results : list ResultDict)
  (Hfmt : format_2f thr1 = format_2f thr2)
  (Hne : results <> []) (Hall : Forall (score_record c) results)
  (Hk : 0 <= k <= Z.of_nat c) :
  Accuracy.compute_metrics
    {| Accuracy.topk := [k]; Accuracy.thrs := [Some thr1; Some thr2] |} results
  = inr [((("top" ++ str_of_int k) ++ "_thr-" ++ format_2f thr2)%string,
          (inject_Z
             (correct_k {| size1 := Z.of_nat c; srows := stored_scores results |}
                        (stored_targets results) [k] k (Some thr2))
           * (100 / inject_Z (Z.of_nat (length results))))%Q)].
Proof.
  rewrite (accuracy_compute_metrics_scores _ c results Hne Hall).
  - unfold topk_thr_pairs.
    cbn [Accuracy.topk Accuracy.thrs flat_map map app fold_left fst snd
         length Nat.ltb Nat.leb].
    unfold Accuracy.metric_name, thr_suffix. rewrite Hfmt.
    cbn [dict_set]. rewrite String.eqb_refl. reflexivity.
  - discriminate.
  - cbn [Accuracy.topk zmax_list fold_left]. exact Hk.
Qed.

Lemma accuracy_threshold_names_collide_witness :
  Accuracy.compute_metrics
    {| Accuracy.topk := [1]; Accuracy.thrs := [Some 0.499%Q; Some 0.501%Q] |}
    [ {| r_pred_score := Some [0.5; 0.3; 0.2]%Q; r_pred_label := None;
         r_num_classes := None; r_gt_label := [0] |} ]
  = inr [("top1_thr-0.50"%string, 0 # 1)]%Q.
Proof.
  rewrite (accuracy_threshold_names_collide 1 0.499%Q 0.501%Q 3%nat).
  - vm_compute. reflexivity.
  - vm_compute. reflexivity.
  - discriminate.
  - repeat constructor; eexists; split; reflexivity.
  - simpl. lia.
Defined.



(** ** The constructor and the items of [SingleLabelMetric] *)

(** X9.  [SingleLabelMetric.__init__] rejects an unsupported item with an
    AssertionError but stores any [average] unchecked; an [average] other
    than micro, macro or None only fails when the metrics are computed,
    with the AssertionError of [calculate]. *)
Theorem single_label_average_checked_late
  (thrs : thrs_arg) (items : list string) (average : string)
  (c : nat) (results : list ResultDict)
  (Hitems : Forall (fun item => In item supported_items) items)
  (Havg : average <> "micro"%string /\ average <> "macro"%string)
  (Hne : results <> []) (Hall : Forall (score_record c) results) :
  exists self,
    SingleLabelMetric_init thrs items (Some average) = inr self
    /\ SingleLabelMetric.average self = Some average
    /\ SingleLabelMetric.compute_metrics self results
       = inl (AssertionError invalid_average_msg).
Proof.
  assert (Hfind : find (fun item =>
                          negb (existsb (String.eqb item) supported_items))
                       items = None).
  { induction Hitems as [| item items Hin _ IH]; [reflexivity |].
    cbn [find].
    assert (Hex : existsb (String.eqb item) supported_items = true).
    { apply existsb_exists. exists item. split; [exact Hin |].
      apply String.eqb_refl. }
    rewrite Hex. cbn [negb]. exact IH. }
  unfold SingleLabelMetric_init. rewrite Hfind.
  eexists. split; [reflexivity |]. split; [reflexivity |].
  destruct (score_records_stored c results Hne Hall) as (Hm & Hst & _).
  unfold SingleLabelMetric.compute_metrics.
  destruct results as [| r0 results']; [congruence |].
  set (results := r0 :: results') in *.
  change (torch_cat (map r_gt_label results))
    with (@inr exn _ (stored_targets results)).
  cbn [bind ret]. unfold index at 1. cbn [results nth_error bind ret].
  fold results.
  inversion Hall as [| ? ? [[s0 [Hs0 _]] _] _]; subst.
  rewrite Hs0, Hm. cbn [bind]. rewrite Hst. cbn [bind].
  unfold SingleLabelMetric.calculate.
  cbn [SingleLabelMetric.average SingleLabelMetric.thrs].
  destruct Havg as [Hmi Hma].
  apply String.eqb_neq in Hmi. apply String.eqb_neq in Hma.
  unfold average_options_ok. rewrite Hmi, Hma. reflexivity.
Qed.

Lemma single_label_average_checked_late_witness :
  exists self,
    SingleLabelMetric_init (ThrsFloat 0) ["precision"; "recall"]%string
      (Some "weighted"%string) = inr self
    /\ SingleLabelMetric.compute_metrics self
         [ {| r_pred_score := Some [0.1; 0.7; 0.2]%Q; r_pred_label := None;
              r_num_classes := None; r_gt_label := [1] |} ]
       = inl (AssertionError invalid_average_msg).
Proof.
  destruct (single_label_average_checked_late
              (ThrsFloat 0) ["precision"; "recall"]%string "weighted"%string
              3%nat
              [ {| r_pred_score := Some [0.1; 0.7; 0.2]%Q; r_pred_label := None;
                   r_num_classes := None; r_gt_label := [1] |} ])
    as [self (Hinit & _ & Hcm)].
  - apply Forall_forall. intros x Hx. simpl in Hx.
    destruct Hx as [<- | [<- | []]]; simpl; auto.
  - split; discriminate.
  - discriminate.
  - repeat constructor; eexists; split; reflexivity.
  - exists self. split; assumption.
Defined.

(** X10.  [SingleLabelMetric.__init__] fails with an AssertionError naming
    the first item of [items] that is not precision, recall, f1-score or
    support, whatever follows it. *)
Theorem single_label_init_rejects_item (thrs : thrs_arg)
  (before after : list string) (item : string) (average : option string)
  (Hbefore : Forall (fun i => In i supported_items) before)
  (Hitem : ~ In item supported_items) :
  SingleLabelMetric_init thrs (before ++ item :: after) average
  = inl (AssertionError (unsupported_item_msg item)).
Proof.
  assert (Hbad : existsb (String.eqb item) supported_items = false).
  { destruct (existsb (String.eqb item) supported_items) eqn:E;
      [| reflexivity].
    apply existsb_exists in E. destruct E as [x [Hx Heq]].
    apply String.eqb_eq in Heq. subst x. contradiction. }
  assert (Hfind : find (fun i => negb (existsb (String.eqb i) supported_items))
                       (before ++ item :: after) = Some item).
  { induction Hbefore as [| i before Hin _ IH]; cbn [app find].
    - rewrite Hbad. reflexivity.
    - assert (Hex : existsb (String.eqb i) supported_items = true).
      { apply existsb_exists. exists i. split; [exact Hin |].
        apply String.eqb_refl. }
      rewrite Hex. cbn [negb]. exact IH. }
  unfold SingleLabelMetric_init. rewrite Hfind. reflexivity.
Qed.

Lemma single_label_init_rejects_item_witness :
  exists msg,
    SingleLabelMetric_init ThrsNone
      ["recall"; "accuracy"; "f1"]%string (Some "macro"%string)
    = inl (AssertionError msg)
    /\ msg = unsupported_item_msg "accuracy".
Proof.
  eexists. split; [| reflexivity].
  apply (single_label_init_rejects_item ThrsNone ["recall"%string]
           ["f1"%string] "accuracy"%string (Some "macro"%string)).
  - apply Forall_forall. intros x Hx. simpl in Hx.
    destruct Hx as [<- | []]. simpl. auto.
  - simpl. intros [H | [H | [H | [H | []]]]]; discriminate H.
Defined.

(** X11.  [pack_results] keeps exactly the requested items, always in the
    order precision, recall, f1-score, support, whatever the order (or
    repetition) of [items]. *)
Theorem pack_results_keys (self : SingleLabelMetric.config)
  (r : SingleLabelMetric.prfs) :
  map fst (SingleLabelMetric.pack_results self r)
  = filter (SingleLabelMetric.has_item self) supported_items.
Proof.
  destruct r as [[[precision recall] f1_score] support].
  unfold SingleLabelMetric.pack_results, supported_items. cbn [filter].
  destruct (SingleLabelMetric.has_item self "precision"),
    (SingleLabelMetric.has_item self "recall"),
    (SingleLabelMetric.has_item self "f1-score"),
    (SingleLabelMetric.has_item self "support"); reflexivity.
Qed.

(** ** [SingleLabelMetric.calculate] on labels, by counts *)

Lemma count_label_cons (l : Z) (labels : list Z) (c : Z) :
  count_label (l :: labels) c
  = (if c =? l then 1 else 0) + count_label labels c.
Proof.
  unfold count_label. cbn [map]. rewrite count_true_cons, (Z.eqb_sym l c).
  reflexivity.
Qed.

Lemma count_hit_cons (a b : Z) (pred target : list Z) (c : Z) :
  count_hit (a :: pred) (b :: target) c
  = Z.land (if c =? a then 1 else 0) (if c =? b then 1 else 0)
    + count_hit pred target c.
Proof.
  unfold count_hit. rewrite zip_with_cons, count_true_cons.
  rewrite (Z.eqb_sym a c), (Z.eqb_sym b c).
  destruct (c =? a), (c =? b); reflexivity.
Qed.

(** Column sums of a one-hot matrix count the labels of each class. *)
Lemma mat_sum0_one_hot (c : Z) (labels : list Z) :
  mat_sum0 {| ncols := c; rows := map (one_hot_row c) labels |}
  = map (count_label labels) (zrange c).
Proof.
  unfold mat_sum0. cbn [ncols rows].
  induction labels as [| l labels IH]; cbn [map fold_right].
  - reflexivity.
  - rewrite IH. unfold one_hot_row. rewrite zip_with_map_same.
    apply map_ext. intros j. rewrite count_label_cons. reflexivity.
Qed.

Lemma mat_sum0_one_hot_and (c : Z) (pred target : list Z) :
  mat_sum0 (mat_and {| ncols := c; rows := map (one_hot_row c) pred |}
                    {| ncols := c; rows := map (one_hot_row c) target |})
  = map (count_hit pred target) (zrange c).
Proof.
  unfold mat_sum0, mat_and. cbn [ncols rows]. revert target.
  induction pred as [| a pred IH]; intros [| b target]; try reflexivity.
  cbn [map]. rewrite zip_with_cons. cbn [fold_right]. rewrite IH.
  unfold one_hot_row. rewrite !zip_with_map_same.
  apply map_ext. intros j. rewrite count_hit_cons. reflexivity.
Qed.

(** [F.one_hot] succeeds on labels of the class range, empty or not. *)
Lemma one_hot_ok (labels : list Z) (c : Z) :
  0 < c -> Forall (fun l => 0 <= l < c) labels ->
  one_hot labels c = inr {| ncols := c; rows := map (one_hot_row c) labels |}.
Proof.
  intros Hc Hall. destruct labels as [| l labels].
  - unfold one_hot. destruct (Z.leb_spec c 0); [lia | reflexivity].
  - apply one_hot_in_range; [discriminate | lia | exact Hall].
Qed.

(** The reduction a label input reaches, whatever the average. *)
Lemma single_label_labels_reduce (pred target : list Z)
  (thrs : list (option Q)) (average : option string) (num_classes : Z) :
  average_options_ok average = true ->
  length pred = length target -> 0 < num_classes ->
  Forall (fun l => 0 <= l < num_classes) pred ->
  Forall (fun l => 0 <= l < num_classes) target ->
  SingleLabelMetric.calculate (Labels pred) target thrs average
    (Some num_classes)
  = (r <- _precision_recall_f1_support
            {| ncols := num_classes;
               rows := map (one_hot_row num_classes) pred |}
            {| ncols := num_classes;
               rows := map (one_hot_row num_classes) target |} average ;;
     ret (SingleLabelMetric.Single r)).
Proof.
  intros Havg Hlen Hc Hp Ht. unfold SingleLabelMetric.calculate.
  rewrite Havg. cbn [negb size0]. rewrite Hlen, Z.eqb_refl. cbn [negb].
  rewrite (one_hot_ok _ _ Hc Ht), (one_hot_ok _ _ Hc Hp). reflexivity.
Qed.

(** The per-class values of a label input, by counts. *)
Lemma single_label_classwise_by_counts_form (pred target : list Z)
  (thrs : list (option Q)) (num_classes : Z) :
  length pred = length target -> 0 < num_classes ->
  Forall (fun l => 0 <= l < num_classes) pred ->
  Forall (fun l => 0 <= l < num_classes) target ->
  let precision c := ratio100 (count_hit pred target c) (count_label pred c) in
  let recall c := ratio100 (count_hit pred target c) (count_label target c) in
  SingleLabelMetric.calculate (Labels pred) target thrs None (Some num_classes)
  = inr (SingleLabelMetric.Single
           (Vec (map Fin (map precision (zrange num_classes))),
            Vec (map Fin (map recall (zrange num_classes))),
            Vec (map Fin (map (fun c => f1_value (precision c) (recall c))
                              (zrange num_classes))),
            Vec (map (count_label target) (zrange num_classes)))).
Proof.
  intros Hlen Hc Hp Ht precision recall.
  rewrite (single_label_labels_reduce _ _ _ None _ eq_refl Hlen Hc Hp Ht).
  rewrite prfs_classwise. cbv zeta. cbn [bind ret].
  rewrite mat_sum0_one_hot_and, !mat_sum0_one_hot, !zip_with_map_same.
  reflexivity.
Qed.



(** ** Ranges of the values of [SingleLabelMetric.calculate] *)

Local Open Scope Q_scope.

Lemma ratio100_le_100 (tp s : Z) :
  (0 <= tp <= s)%Z -> ratio100 tp s <= 100.
Proof.
  intros [H0 Hs]. unfold ratio100.
  assert (Hm : 0 < Qmax (inject_Z s) 1).
  { apply (Qlt_le_trans _ 1); [reflexivity | apply Q.le_max_r]. }
  assert (Hle : inject_Z tp <= Qmax (inject_Z s) 1).
  { apply (Qle_trans _ (inject_Z s)); [| apply Q.le_max_l].
    rewrite <- Zle_Qle. exact Hs. }
  assert (Hd : inject_Z tp / Qmax (inject_Z s) 1 <= 1).
  { apply Qle_shift_div_r; [exact Hm |]. rewrite Qmult_1_l. exact Hle. }
  lra.
Qed.

Lemma f1_value_range (p r : Q) :
  0 <= p <= 100 -> 0 <= r <= 100 -> 0 <= f1_value p r <= 100.
Proof.
  intros [Hp0 Hp] [Hr0 Hr]. unfold f1_value.
  pose proof f1_eps_pos as He.
  assert (Hm : 0 < Qmax (p + r) f1_eps).
  { apply (Qlt_le_trans _ f1_eps); [exact He | apply Q.le_max_r]. }
  pose proof (Q.le_max_l (p + r) f1_eps) as Hl.
  split.
  - apply Qle_shift_div_l; [exact Hm |]. rewrite Qmult_0_l. nra.
  - apply Qle_shift_div_r; [exact Hm |]. nra.
Qed.

Lemma qsum_range (l : list Q) :
  Forall (fun q => 0 <= q <= 100) l ->
  0 <= qsum l <= 100 * inject_Z (Z.of_nat (length l)).
Proof.
  induction 1 as [| q l [Hq0 Hq] _ [IH0 IH]]; cbn [qsum fold_right length].
  - split; [apply Qle_refl |]. rewrite Qmult_0_r. apply Qle_refl.
  - fold (qsum l). rewrite Nat2Z.inj_succ, <- Z.add_1_r, inject_Z_plus.
    change (inject_Z 1) with 1. split; lra.
Qed.

Lemma mean_range (l : list Q) :
  l <> [] -> Forall (fun q => 0 <= q <= 100) l ->
  0 <= qsum l / inject_Z (Z.of_nat (length l)) <= 100.
Proof.
  intros Hne Hall. destruct (qsum_range l Hall) as [H0 H1].
  assert (Hn : 0 < inject_Z (Z.of_nat (length l))).
  { change 0 with (inject_Z 0). rewrite <- Zlt_Qlt.
    destruct l; [congruence | cbn [length]; lia]. }
  split.
  - apply Qle_shift_div_l; [exact Hn |]. rewrite Qmult_0_l. exact H0.
  - apply Qle_shift_div_r; [exact Hn |]. exact H1.
Qed.

Local Close Scope Q_scope.

Lemma fsum_Fin (l : list Q) : fsum (map Fin l) = Fin (qsum l).
Proof.
  unfold fsum, qsum. induction l as [| q l IH]; cbn [map fold_right].
  - reflexivity.
  - rewrite IH. reflexivity.
Qed.

Lemma tmean0_Fin (l : list Q) :
  l <> [] ->
  tmean0 (Vec (map Fin l))
  = Scalar (Fin (qsum l / inject_Z (Z.of_nat (length l)))%Q).
Proof.
  intros Hne. unfold tmean0. rewrite fsum_Fin, length_map. unfold tdiv.
  assert (Hz : Qeq_bool (inject_Z (Z.of_nat (length l))) 0 = false).
  { destruct (Qeq_bool _ 0) eqn:E; [| reflexivity].
    apply Qeq_bool_iff in E. exfalso. revert E. apply inject_Z_nonzero.
    destruct l; [congruence | cbn [length]; lia]. }
  rewrite Hz. reflexivity.
Qed.

Lemma prfs_macro (pp gp : matrix) :
  let tp := mat_sum0 (mat_and pp gp) in
  let P := zip_with ratio100 tp (mat_sum0 pp) in
  let R := zip_with ratio100 tp (mat_sum0 gp) in
  _precision_recall_f1_support pp gp (Some "macro"%string)
  = inr (tmean0 (Vec (map Fin P)), tmean0 (Vec (map Fin R)),
         tmean0 (Vec (map Fin (zip_with f1_value P R))),
         Scalar (zsum (mat_sum0 gp))).
Proof.
  intros tp P R. unfold _precision_recall_f1_support, confusion_sums.
  change (average_options_ok (Some "macro"%string)) with true.
  change (average_is (Some "macro"%string) "micro") with false.
  change (average_is (Some "macro"%string) "macro") with true.
  cbn [negb orb].
  rewrite precision_vec, recall_vec, f1_vec. reflexivity.
Qed.

Lemma count_hit_bounds (pred target : list Z) (c : Z) :
  0 <= count_hit pred target c
  /\ count_hit pred target c <= count_label pred c
  /\ count_hit pred target c <= count_label target c.
Proof.
  split; [apply count_true_nonneg |].
  revert target. induction pred as [| a pred IH]; intros [| b target].
  - split; reflexivity.
  - split; [reflexivity | apply count_true_nonneg].
  - split; [apply count_true_nonneg | reflexivity].
  - rewrite count_hit_cons, !count_label_cons.
    destruct (IH target) as [H1 H2].
    destruct (c =? a), (c =? b); simpl (Z.land _ _); lia.
Qed.

Lemma zsum_map_add {A} (f g : A -> Z) (l : list A) :
  zsum (map (fun x => f x + g x) l) = zsum (map f l) + zsum (map g l).
Proof.
  unfold zsum. induction l as [| a l IH]; cbn [map fold_right]; lia.
Qed.

(** Every label of the class range is counted in exactly one class. *)
Lemma zsum_count_label (labels : list Z) (c : Z) :
  Forall (fun l => 0 <= l < c) labels ->
  zsum (map (count_label labels) (zrange c)) = Z.of_nat (length labels).
Proof.
  induction 1 as [| l labels Hl _ IH].
  - apply (zsum_zeros (zrange c)).
  - rewrite (map_ext _ (fun j => (if j =? l then 1 else 0) + count_label labels j))
      by (intros j; apply count_label_cons).
    rewrite zsum_map_add, IH.
    change (map (fun j => if j =? l then 1 else 0) (zrange c))
      with (one_hot_row c l).
    rewrite (one_hot_row_sum _ _ Hl). cbn [length]. lia.
Qed.


Lemma zrange_nonempty {A} (f : Z -> A) (c : Z) : 0 < c -> map f (zrange c) <> [].
Proof.
  intros Hc H. apply (f_equal (@length A)) in H.
  unfold zrange in H. rewrite !length_map, length_seq in H. cbn [length] in H.
  lia.
Qed.

(** The macro average of a label input, by counts. *)
Lemma single_label_macro_by_counts (pred target : list Z)
  (thrs : list (option Q)) (num_classes : Z) :
  length pred = length target -> 0 < num_classes ->
  Forall (fun l => 0 <= l < num_classes) pred ->
  Forall (fun l => 0 <= l < num_classes) target ->
  let precision c := ratio100 (count_hit pred target c) (count_label pred c) in
  let recall c := ratio100 (count_hit pred target c) (count_label target c) in
  let mean l := (qsum l / inject_Z (Z.of_nat (length l)))%Q in
  SingleLabelMetric.calculate (Labels pred) target thrs (Some "macro"%string)
    (Some num_classes)
  = inr (SingleLabelMetric.Single
           (Scalar (Fin (mean (map precision (zrange num_classes)))),
            Scalar (Fin (mean (map recall (zrange num_classes)))),
            Scalar (Fin (mean (map (fun c => f1_value (precision c) (recall c))
                                   (zrange num_classes)))),
            Scalar (Z.of_nat (length target)))).
Proof.
  intros Hlen Hc Hp Ht precision recall mean.
  rewrite (single_label_labels_reduce _ _ _ (Some "macro"%string) _
             eq_refl Hlen Hc Hp Ht).
  rewrite prfs_macro. cbv zeta. cbn [bind ret].
  rewrite mat_sum0_one_hot_and, !mat_sum0_one_hot, !zip_with_map_same.
  rewrite !tmean0_Fin by (apply zrange_nonempty; exact Hc).
  rewrite (zsum_count_label _ _ Ht). reflexivity.
Qed.

(** The micro average of a label input, by counts. *)
Lemma single_label_micro_by_counts (pred target : list Z)
  (thrs : list (option Q)) (num_classes : Z) :
  length pred = length target -> 0 < num_classes ->
  Forall (fun l => 0 <= l < num_classes) pred ->
  Forall (fun l => 0 <= l < num_classes) target ->
  let p := ratio100 (count_true (zip_with Z.eqb pred target))
                    (Z.of_nat (length target)) in
  SingleLabelMetric.calculate (Labels pred) target thrs (Some "micro"%string)
    (Some num_classes)
  = inr (SingleLabelMetric.Single
           (Scalar (Fin p), Scalar (Fin p), Scalar (Fin (f1_value p p)),
            Scalar (Z.of_nat (length target)))).
Proof.
  intros Hlen Hc Hp Ht p.
  rewrite (single_label_labels_reduce _ _ _ (Some "micro"%string) _
             eq_refl Hlen Hc Hp Ht).
  rewrite (micro_on_one_hot _ _ _ Hp Ht Hlen). reflexivity.
Qed.

Lemma average_options_cases (average : option string) :
  average_options_ok average = true ->
  average = None \/ average = Some "micro"%string
  \/ average = Some "macro"%string.
Proof.
  destruct average as [a |]; [| auto]. cbn [average_options_ok].
  intros H. apply orb_true_iff in H.
  destruct H as [H | H]; apply String.eqb_eq in H; subst a; auto.
Qed.

Lemma ratio100_percent (tp s : Z) :
  0 <= tp <= s -> (0 <= ratio100 tp s <= 100)%Q.
Proof.
  intros H. split; [apply ratio100_nonneg; lia | apply ratio100_le_100; exact H].
Qed.

Lemma Forall_percent_map {A} (f : A -> Q) (l : list A) :
  (forall a, (0 <= f a <= 100)%Q) -> Forall percent (map Fin (map f l)).
Proof.
  intros Hf. rewrite map_map. apply Forall_forall. intros x Hx.
  apply in_map_iff in Hx. destruct Hx as [a [<- _]].
  exists (f a). split; [reflexivity | apply Hf].
Qed.

Lemma Forall_range_map {A} (f : A -> Q) (l : list A) :
  (forall a, (0 <= f a <= 100)%Q) ->
  Forall (fun q => (0 <= q <= 100)%Q) (map f l).
Proof.
  intros Hf. apply Forall_forall. intros x Hx.
  apply in_map_iff in Hx. destruct Hx as [a [<- _]]. apply Hf.
Qed.

(** X13.  On labels of the class range, with any accepted [average],
    [SingleLabelMetric.calculate] returns finite precision, recall and f1
    values between 0 and 100: no NaN, no infinity, no value outside the
    percent range. *)
Theorem single_label_values_are_percents (pred target : list Z)
  (thrs : list (option Q)) (average : option string) (num_classes : Z)
  (Havg : average_options_ok average = true)
  (Hlen : length pred = length target) (Hc : 0 < num_classes)
  (Hp : Forall (fun l => 0 <= l < num_classes) pred)
  (Ht : Forall (fun l => 0 <= l < num_classes) target) :
  exists precision recall f1_score support,
    SingleLabelMetric.calculate (Labels pred) target thrs average
      (Some num_classes)
    = inr (SingleLabelMetric.Single (precision, recall, f1_score, support))
    /\ tensor_all percent precision
    /\ tensor_all percent recall
    /\ tensor_all percent f1_score.
Proof.
  assert (HP : forall c,
             (0 <= ratio100 (count_hit pred target c) (count_label pred c)
              <= 100)%Q).
  { intros c. apply ratio100_percent.
    destruct (count_hit_bounds pred target c) as (H0 & H1 & _). lia. }
  assert (HR : forall c,
             (0 <= ratio100 (count_hit pred target c) (count_label target c)
              <= 100)%Q).
  { intros c. apply ratio100_percent.
    destruct (count_hit_bounds pred target c) as (H0 & _ & H2). lia. }
  assert (HF : forall c,
             (0 <= f1_value
                     (ratio100 (count_hit pred target c) (count_label pred c))
                     (ratio100 (count_hit pred target c) (count_label target c))
              <= 100)%Q).
  { intros c. apply f1_value_range; [apply HP | apply HR]. }
  destruct (average_options_cases _ Havg) as [-> | [-> | ->]].
  - do 4 eexists.
    split; [apply (single_label_classwise_by_counts_form _ _ _ _ Hlen Hc Hp Ht) |].
    cbn [tensor_all].
    split; [apply Forall_percent_map; exact HP |].
    split; [apply Forall_percent_map; exact HR |].
    apply (Forall_percent_map
             (fun c => f1_value
                         (ratio100 (count_hit pred target c) (count_label pred c))
                         (ratio100 (count_hit pred target c)
                                   (count_label target c)))).
    exact HF.
  - do 4 eexists.
    split; [apply (single_label_micro_by_counts _ _ _ _ Hlen Hc Hp Ht) |].
    assert (Hm : (0 <= ratio100 (count_true (zip_with Z.eqb pred target))
                                (Z.of_nat (length target)) <= 100)%Q).
    { apply ratio100_percent. split; [apply count_true_nonneg |].
      etransitivity; [apply count_true_le_length |].
      rewrite zip_with_length. lia. }
    cbn [tensor_all].
    split; [eexists; split; [reflexivity | exact Hm] |].
    split; [eexists; split; [reflexivity | exact Hm] |].
    eexists. split; [reflexivity | apply f1_value_range; exact Hm].
  - do 4 eexists.
    split; [apply (single_label_macro_by_counts _ _ _ _ Hlen Hc Hp Ht) |].
    cbn [tensor_all].
    split; [| split]; (eexists; split; [reflexivity |]);
      apply mean_range;
      try (apply zrange_nonempty; exact Hc);
      apply Forall_range_map; assumption.
Qed.

Lemma single_label_values_are_percents_witness :
  exists precision recall f1_score support,
    SingleLabelMetric.calculate (Labels [0; 1; 1; 3]) [0; 2; 1; 3] []
      (Some "macro"%string) (Some 4)
    = inr (SingleLabelMetric.Single (precision, recall, f1_score, support))
    /\ tensor_all percent precision
    /\ tensor_all percent recall
    /\ tensor_all percent f1_score.
Proof.
  apply (single_label_values_are_percents [0; 1; 1; 3] [0; 2; 1; 3] []
           (Some "macro"%string) 4).
  - reflexivity.
  - reflexivity.
  - lia.
  - repeat constructor; lia.
  - repeat constructor; lia.
Defined.

(** X14.  Under the macro and the micro average, the support
    [SingleLabelMetric.calculate] returns for a label input of the class
    range is the number of samples, whatever the predictions. *)
Theorem single_label_support_is_sample_count (pred target : list Z)
  (thrs : list (option Q)) (average : string) (num_classes : Z)
  (Havg : average = "macro"%string \/ average = "micro"%string)
  (Hlen : length pred = length target) (Hc : 0 < num_classes)
  (Hp : Forall (fun l => 0 <= l < num_classes) pred)
  (Ht : Forall (fun l => 0 <= l < num_classes) target) :
  exists precision recall f1_score,
    SingleLabelMetric.calculate (Labels pred) target thrs (Some average)
      (Some num_classes)
    = inr (SingleLabelMetric.Single
             (precision, recall, f1_score, Scalar (Z.of_nat (length target)))).
Proof.
  destruct Havg as [-> | ->]; do 3 eexists.
  - apply (single_label_macro_by_counts _ _ _ _ Hlen Hc Hp Ht).
  - apply (single_label_micro_by_counts _ _ _ _ Hlen Hc Hp Ht).
Qed.

Lemma single_label_support_is_sample_count_witness :
  exists precision recall f1_score,
    SingleLabelMetric.calculate (Labels [0; 1; 1; 3]) [0; 2; 1; 3] []
      (Some "micro"%string) (Some 4)
    = inr (SingleLabelMetric.Single (precision, recall, f1_score, Scalar 4)).
Proof.
  apply (single_label_support_is_sample_count [0; 1; 1; 3] [0; 2; 1; 3] []
           "micro"%string 4).
  - right. reflexivity.
  - reflexivity.
  - lia.
  - repeat constructor; lia.
  - repeat constructor; lia.
Defined.

(** ** The labels [topk] selects *)

Lemma split_snd_map {A B} (l : list (A * B)) : snd (split l) = map snd l.
Proof.
  induction l as [| [a b] l IH]; [reflexivity |].
  cbn [split map snd]. destruct (split l) as [la lb]. cbn [snd] in *.
  rewrite IH. reflexivity.
Qed.

Lemma split_fst_map {A B} (l : list (A * B)) : fst (split l) = map fst l.
Proof.
  induction l as [| [a b] l IH]; [reflexivity |].
  cbn [split map fst]. destruct (split l) as [la lb]. cbn [fst] in *.
  rewrite IH. reflexivity.
Qed.

Lemma insert_desc_length (x : Q * Z) (l : list (Q * Z)) :
  length (insert_desc x l) = S (length l).
Proof.
  induction l as [| y l IH]; [reflexivity |].
  cbn [insert_desc]. destruct (Qle_bool (fst y) (fst x)); cbn [length];
    [reflexivity | rewrite IH; reflexivity].
Qed.

Lemma insert_desc_count (x : Q * Z) (l : list (Q * Z)) (c : Z) :
  count_label (map snd (insert_desc x l)) c
  = count_label (snd x :: map snd l) c.
Proof.
  induction l as [| y l IH]; [reflexivity |].
  cbn [insert_desc]. destruct (Qle_bool (fst y) (fst x)); [reflexivity |].
  cbn [map]. rewrite count_label_cons, IH, !count_label_cons. lia.
Qed.

Lemma zrange_length (n : Z) : length (zrange n) = Z.to_nat n.
Proof. unfold zrange. rewrite length_map, length_seq. reflexivity. Qed.

Lemma map_snd_combine {A B} (l1 : list A) (l2 : list B) :
  length l1 = length l2 -> map snd (combine l1 l2) = l2.
Proof.
  revert l2. induction l1 as [| a l1 IH]; intros [| b l2] H;
    try discriminate; [reflexivity |].
  cbn [combine map snd]. rewrite IH; [reflexivity | ].
  cbn [length] in H. lia.
Qed.

Lemma sort_desc_length (row : list Q) : length (sort_desc row) = length row.
Proof.
  unfold sort_desc.
  assert (H : forall l : list (Q * Z),
             length (fold_right insert_desc [] l) = length l).
  { induction l as [| x l IH]; [reflexivity |].
    cbn [fold_right]. rewrite insert_desc_length, IH. reflexivity. }
  rewrite H, length_combine, zrange_length, Nat2Z.id. apply Nat.min_id.
Qed.

Lemma sort_desc_count (row : list Q) (c : Z) :
  count_label (map snd (sort_desc row)) c
  = count_label (zrange (Z.of_nat (length row))) c.
Proof.
  unfold sort_desc.
  assert (H : forall l : list (Q * Z),
             count_label (map snd (fold_right insert_desc [] l)) c
             = count_label (map snd l) c).
  { induction l as [| x l IH]; [reflexivity |].
    cbn [fold_right map]. rewrite insert_desc_count, !count_label_cons, IH.
    reflexivity. }
  rewrite H, map_snd_combine; [reflexivity |].
  rewrite zrange_length, Nat2Z.id. reflexivity.
Qed.

Lemma count_true_map_zsum {A} (f : A -> bool) (l : list A) :
  count_true (map f l) = zsum (map (fun x => if f x then 1 else 0) l).
Proof.
  induction l as [| a l IH]; [reflexivity |].
  cbn [map]. rewrite count_true_cons, IH. reflexivity.
Qed.

(** Every class of the range occurs once among the indices. *)
Lemma count_label_zrange (n c : Z) :
  count_label (zrange n) c = if (0 <=? c) && (c <? n) then 1 else 0.
Proof.
  unfold count_label, zrange. rewrite map_map, count_true_map_zsum.
  rewrite zsum_indicator_seq.
  destruct (Z.leb_spec (Z.of_nat 0) c), (Z.leb_spec 0 c),
    (Z.ltb_spec c (Z.of_nat (0 + Z.to_nat n))), (Z.ltb_spec c n);
    cbn [andb]; lia.
Qed.

Lemma count_label_firstn (k : nat) (l : list Z) (c : Z) :
  0 <= count_label (firstn k l) c <= count_label l c.
Proof.
  revert k. induction l as [| a l IH]; intros [| k]; cbn [firstn].
  - split; reflexivity.
  - split; reflexivity.
  - split; [reflexivity | apply count_true_nonneg].
  - rewrite !count_label_cons. specialize (IH k).
    destruct (c =? a); lia.
Qed.

(** The labels of the [k] highest scores of a row. *)
Lemma topk_row_labels (k : Z) (row : list Q) :
  snd (topk_row k row) = firstn (Z.to_nat k) (map snd (sort_desc row)).
Proof.
  unfold topk_row. rewrite split_snd_map, firstn_map. reflexivity.
Qed.

Lemma topk_row_labels_length (k : Z) (row : list Q) :
  0 <= k <= Z.of_nat (length row) ->
  length (snd (topk_row k row)) = Z.to_nat k.
Proof.
  intros Hk. rewrite topk_row_labels, length_firstn, length_map,
    sort_desc_length. lia.
Qed.

(** A class is selected at most once for a sample. *)
Lemma topk_row_count_le (k : Z) (row : list Q) (c : Z) :
  0 <= count_label (snd (topk_row k row)) c <= 1.
Proof.
  rewrite topk_row_labels.
  pose proof (count_label_firstn (Z.to_nat k) (map snd (sort_desc row)) c) as H.
  rewrite sort_desc_count, count_label_zrange in H.
  destruct ((0 <=? c) && (c <? Z.of_nat (length row))); lia.
Qed.

(** With all the classes requested, every class of the range is selected. *)
Lemma topk_row_count_all (row : list Q) (c : Z) :
  0 <= c < Z.of_nat (length row) ->
  count_label (snd (topk_row (Z.of_nat (length row)) row)) c = 1.
Proof.
  intros Hc. rewrite topk_row_labels, Nat2Z.id.
  rewrite <- (sort_desc_length row) at 1. rewrite <- (length_map snd).
  rewrite firstn_all, sort_desc_count, count_label_zrange.
  destruct (Z.leb_spec 0 c), (Z.ltb_spec c (Z.of_nat (length row)));
    cbn [andb]; lia.
Qed.

(** ** Counting through the transposition *)

Lemma count_true_concat (m : list (list bool)) :
  count_true (concat m) = zsum (map count_true m).
Proof.
  induction m as [| r m IH]; [reflexivity |].
  cbn [concat map]. rewrite count_true_app, IH. reflexivity.
Qed.

Lemma zip_with_nil_r {A B C} (f : A -> B -> C) (l : list A) :
  zip_with f l [] = [].
Proof. destruct l; reflexivity. Qed.

Lemma transpose_columns {A} (k : Z) (m : list (list A)) :
  transpose k m = map (fun j => column j m) (seq 0 (Z.to_nat k)).
Proof. reflexivity. Qed.

Lemma zsum_map_ext_in {A} (f g : A -> Z) (l : list A) :
  (forall a, In a l -> f a = g a) -> zsum (map f l) = zsum (map g l).
Proof.
  intros H. f_equal. apply map_ext_in. exact H.
Qed.

(** Summing the matches of the entries of a row, rank by rank. *)
Lemma zsum_ranks_of_row (t : Z) (r : list Z) (s : nat) :
  zsum (map (fun j => count_true
                        (map (fun y => y =? t) (firstn 1 (skipn (j - s) r))))
            (seq s (length r)))
  = count_label r t.
Proof.
  revert s. induction r as [| a r IH]; intros s.
  - reflexivity.
  - cbn [length seq map]. unfold zsum. cbn [fold_right].
    fold (zsum (map (fun j => count_true
                                (map (fun y => y =? t)
                                     (firstn 1 (skipn (j - s) (a :: r)))))
                    (seq (S s) (length r)))).
    rewrite Nat.sub_diag. cbn [skipn firstn map].
    rewrite (zsum_map_ext_in _
               (fun j => count_true
                           (map (fun y => y =? t)
                                (firstn 1 (skipn (j - S s) r))))).
    + rewrite IH, count_label_cons, count_true_cons.
      rewrite (Z.eqb_sym a t). cbn [count_true filter length]. 
      change (count_true []) with 0. lia.
    + intros j Hj. apply in_seq in Hj.
      replace (j - s)%nat with (S (j - S s)) by lia. reflexivity.
Qed.

(** The matches of a (k, N) table of selected labels, counted rank by rank,
    are the matches counted sample by sample. *)
Lemma count_columns (m : nat) (pl : list (list Z)) (target : list Z) :
  Forall (fun r => length r = m) pl ->
  zsum (map (fun j => count_true (zip_with Z.eqb (column j pl) target))
            (seq 0 m))
  = zsum (zip_with count_label pl target).
Proof.
  intros Hpl. revert target.
  induction Hpl as [| r pl Hr _ IH]; intros target.
  - cbn [column flat_map]. apply (zsum_zeros (seq 0 m)).
  - destruct target as [| t target].
    + rewrite zip_with_nil_r.
      rewrite (zsum_map_ext_in _ (fun _ => 0)).
      * apply (zsum_zeros (seq 0 m)).
      * intros j _. rewrite zip_with_nil_r. reflexivity.
    + rewrite zip_with_cons.
      rewrite (zsum_map_ext_in _
                 (fun j => count_true
                             (map (fun y => y =? t) (firstn 1 (skipn (j - 0) r)))
                           + count_true (zip_with Z.eqb (column j pl) target))).
      * rewrite zsum_map_add, <- Hr, zsum_ranks_of_row, Hr, IH.
        reflexivity.
      * intros j Hj. apply in_seq in Hj. rewrite Nat.sub_0_r.
        unfold column. cbn [flat_map]. fold (column j pl).
        destruct (skipn j r) as [| x rest] eqn:E.
        -- exfalso. apply (f_equal (@length Z)) in E.
           rewrite length_skipn in E. cbn [length] in E. lia.
        -- cbn [firstn app map]. rewrite zip_with_cons, !count_true_cons.
           change (count_true []) with 0. lia.
Qed.


(** ** Ranges of the values of [Accuracy.calculate] *)

Lemma zsum_zip_bounds {A B} (f : A -> B -> Z) (l1 : list A) (l2 : list B) :
  (forall a b, In a l1 -> 0 <= f a b <= 1) ->
  0 <= zsum (zip_with f l1 l2) <= Z.of_nat (length l2).
Proof.
  revert l2. induction l1 as [| a l1 IH]; intros [| b l2] Hf.
  - split; reflexivity.
  - cbn [length]. unfold zip_with. cbn [combine map zsum fold_right]. lia.
  - rewrite zip_with_nil_r. split; reflexivity.
  - rewrite zip_with_cons. change (zsum (f a b :: zip_with f l1 l2))
      with (f a b + zsum (zip_with f l1 l2)).
    assert (IH' : 0 <= zsum (zip_with f l1 l2) <= Z.of_nat (length l2)).
    { apply IH. intros x y Hx. apply Hf. right. exact Hx. }
    specialize (Hf a b (or_introl eq_refl)). cbn [length]. lia.
Qed.

Lemma zsum_zip_all_ones {A B} (f : A -> B -> Z) (l1 : list A) (l2 : list B) :
  length l1 = length l2 ->
  (forall a b, In a l1 -> In b l2 -> f a b = 1) ->
  zsum (zip_with f l1 l2) = Z.of_nat (length l2).
Proof.
  revert l2. induction l1 as [| a l1 IH]; intros [| b l2] Hlen Hf;
    try discriminate; [reflexivity |].
  rewrite zip_with_cons. change (zsum (f a b :: zip_with f l1 l2))
    with (f a b + zsum (zip_with f l1 l2)).
  rewrite IH.
  - rewrite Hf by (left; reflexivity). cbn [length]. lia.
  - cbn [length] in Hlen. lia.
  - intros x y Hx Hy. apply Hf; right; assumption.
Qed.

Lemma count_true_concat_slice (k : Z) (m : list (list bool)) :
  count_true (concat (slice_to k m)) <= count_true (concat m).
Proof.
  assert (H : forall n, count_true (concat (firstn n m))
                        <= count_true (concat m)).
  { intros n.
    pose proof (count_true_concat_firstn m n (Nat.max n (length m))
                  (Nat.le_max_l _ _)) as Hle.
    rewrite (@firstn_all2 _ (Nat.max n (length m)) m) in Hle
      by apply Nat.le_max_r.
    exact Hle. }
  unfold slice_to. destruct (k <? 0); apply H.
Qed.

Lemma count_true_masked_row {A} (g : A -> bool) (c : list bool) (s : list A) :
  count_true (zip_with (fun b x => b && g x) c s) <= count_true c.
Proof.
  revert s. induction c as [| b c IH]; intros [| x s].
  - reflexivity.
  - reflexivity.
  - rewrite zip_with_nil_r. apply count_true_nonneg.
  - rewrite zip_with_cons, !count_true_cons. specialize (IH s).
    destruct b, (g x); cbn [andb]; lia.
Qed.

Lemma count_true_apply_thr (thr : option Q) (correct : list (list bool))
  (scores : list (list Q)) :
  count_true (concat (Accuracy.apply_thr thr correct scores))
  <= count_true (concat correct).
Proof.
  destruct thr as [t |]; [| reflexivity]. cbn [Accuracy.apply_thr].
  revert scores. induction correct as [| c correct IH]; intros [| s scores].
  - reflexivity.
  - reflexivity.
  - rewrite zip_with_nil_r. apply count_true_nonneg.
  - rewrite zip_with_cons. cbn [concat]. rewrite !count_true_app.
    specialize (IH scores).
    pose proof (count_true_masked_row (fun x => negb (Qle_bool x t)) c s)
      as Hrow.
    cbv beta in Hrow. lia.
Qed.

(** The labels selected for every sample. *)
Lemma topk_labels_shape (pred : score_matrix) (maxk : Z) :
  well_shaped pred -> 0 <= maxk <= size1 pred ->
  Forall (fun r => length r = Z.to_nat maxk)
         (map snd (map (topk_row maxk) (srows pred))).
Proof.
  intros [H0 Hrows] Hk. rewrite map_map. apply Forall_forall.
  intros r Hr. apply in_map_iff in Hr. destruct Hr as [row [<- Hin]].
  rewrite Forall_forall in Hrows. specialize (Hrows row Hin).
  apply topk_row_labels_length. lia.
Qed.

(** All the matches of the table [correct], counted sample by sample. *)
Lemma topk_correct_total (pred : score_matrix) (target : list Z) (maxk : Z) :
  well_shaped pred -> 0 <= maxk <= size1 pred ->
  count_true (concat (topk_correct pred target maxk))
  = zsum (zip_with count_label
                   (map snd (map (topk_row maxk) (srows pred))) target).
Proof.
  intros Hw Hk. unfold topk_correct.
  rewrite transpose_columns, map_map, count_true_concat, map_map.
  apply count_columns. apply topk_labels_shape; assumption.
Qed.

Lemma correct_k_bounds (pred : score_matrix) (target topk : list Z)
  (k : Z) (thr : option Q) :
  well_shaped pred -> 0 <= zmax_list topk <= size1 pred ->
  0 <= correct_k pred target topk k thr <= Z.of_nat (length target).
Proof.
  intros Hw Hk. split; [apply count_true_nonneg |]. unfold correct_k.
  etransitivity; [apply count_true_concat_slice |].
  etransitivity; [apply count_true_apply_thr |].
  rewrite (topk_correct_total _ _ _ Hw Hk).
  apply zsum_zip_bounds. intros r t Hr.
  rewrite map_map in Hr. apply in_map_iff in Hr. destruct Hr as [row [<- _]].
  apply topk_row_count_le.
Qed.

Lemma scaled_count_percent (c n : Z) :
  0 <= c <= n -> 0 < n ->
  (0 <= inject_Z c * (100 / inject_Z n) <= 100)%Q.
Proof.
  intros [Hc0 Hcn] Hn.
  assert (Hq : (0 < inject_Z n)%Q).
  { change 0%Q with (inject_Z 0). rewrite <- Zlt_Qlt. exact Hn. }
  assert (Hc0' : (0 <= inject_Z c)%Q).
  { change 0%Q with (inject_Z 0). rewrite <- Zle_Qle. exact Hc0. }
  assert (Hcn' : (inject_Z c <= inject_Z n)%Q).
  { rewrite <- Zle_Qle. exact Hcn. }
  setoid_replace (inject_Z c * (100 / inject_Z n))%Q
    with (100 * inject_Z c / inject_Z n)%Q by (field; lra).
  split.
  - apply Qle_shift_div_l; [exact Hq | lra].
  - apply Qle_shift_div_r; [exact Hq | lra].
Qed.

(** X16.  On a well-shaped score input with N > 0 samples and
    0 <= max(topk) <= C, every entry of the table [Accuracy.calculate]
    returns is the scaling by 100/N of a count between 0 and N, for every
    k of [topk] (negative ones included) and every threshold: a sample is
    counted at most once, since its selected labels are distinct.  For
    N <= 2^24 the float32 scaling [correct_k.mul_(100. / num)] of that
    count lies between 0 and 100 * (1 + 2^-21). *)
Theorem accuracy_scores_count_bounds
  (pred : score_matrix) (target topk : list Z) (thrs : list (option Q))
  (i j : nat) (k : Z) (thr : option Q)
  (Hshape : well_shaped pred)
  (Hlen : length (srows pred) = length target)
  (Hne : target <> []) (Htopk : topk <> [])
  (Hmax : 0 <= zmax_list topk <= size1 pred)
  (Hk : nth_error topk i = Some k)
  (Hthr : nth_error thrs j = Some thr) :
  let n := Z.of_nat (length target) in
  let c := correct_k pred target topk k thr in
  exists accs row,
    Accuracy.calculate (Scores pred) target topk thrs
    = inr (Accuracy.AccTable accs)
    /\ nth_error accs i = Some row
    /\ nth_error row j = Some (inject_Z c * (100 / inject_Z n))%Q
    /\ 0 <= c <= n
    /\ (n <= 16777216 ->
        exists a,
          Float32.scale (Float32.of_int c) n = inr (Fin a)
          /\ (0 <= a <= 100 * (1 + (1 # 2097152)))%Q).
Proof.
  intros n c.
  rewrite (accuracy_scores_value _ _ _ _ Hlen Hne Htopk Hmax).
  do 2 eexists. split; [reflexivity |].
  split; [apply (map_nth_error _ _ _ Hk) |].
  split; [rewrite (map_nth_error _ _ _ Hthr); reflexivity |].
  assert (Hc : 0 <= c <= n) by (apply correct_k_bounds; assumption).
  split; [exact Hc |].
  intros Hn.
  assert (Hn1 : 1 <= n).
  { unfold n. destruct target; [congruence | cbn [length]; lia]. }
  destruct (scale_f32_tolerance c n Hc (conj Hn1 Hn)) as [H0 Htol].
  exists (scale_f32 c n).
  split; [apply scale_of_count; [exact Hc | split; assumption] |].
  split; [exact H0 |].
  destruct (scaled_count_percent c n Hc ltac:(lia)) as [Hx0 Hx1].
  apply Qabs_Qle_condition in Htol.
  generalize dependent (inject_Z c * (100 / inject_Z n))%Q. intros x Htol Hx0 Hx1.
  lra.
Qed.

Lemma accuracy_scores_count_bounds_witness :
  exists accs,
    Accuracy.calculate
      (Scores {| size1 := 3;
                 srows := [[0.1; 0.7; 0.2]; [0.5; 0.3; 0.2]; [0.2; 0.2; 0.6]]%Q |})
      [1; 1; 0] [-1; 3] [None]
    = inr (Accuracy.AccTable accs)
    /\ 0 <= correct_k
              {| size1 := 3;
                 srows := [[0.1; 0.7; 0.2]; [0.5; 0.3; 0.2]; [0.2; 0.2; 0.6]]%Q |}
              [1; 1; 0] [-1; 3] (-1) None <= 3.
Proof.
  destruct (accuracy_scores_count_bounds
              {| size1 := 3;
                 srows := [[0.1; 0.7; 0.2]; [0.5; 0.3; 0.2]; [0.2; 0.2; 0.6]]%Q |}
              [1; 1; 0] [-1; 3] [None] 0%nat 0%nat (-1) None)
    as (accs & row & Hcalc & _ & _ & Hc & _);
    [split; [simpl; lia | repeat constructor]
    | reflexivity | discriminate | discriminate | simpl; lia
    | reflexivity | reflexivity |].
  exists accs. split; [exact Hcalc | exact Hc].
Defined.

Lemma transpose_length {A} (k : Z) (m : list (list A)) :
  length (transpose k m) = Z.to_nat k.
Proof. unfold transpose. rewrite length_map, length_seq. reflexivity. Qed.

(** X17.  Asking for as many ranks as there are classes finds every target:
    on a well-shaped score input with N > 0 samples and targets in the class
    range, the count behind the accuracy for k = C without threshold is N,
    so that the entry is N * (100 / N); for N <= 2^24 the float32 scaling
    [correct_k.mul_(100. / num)] of that count is 100 up to a relative
    2^-21. *)
Theorem accuracy_top_all_classes_counts_every_sample
  (pred : score_matrix) (target topk : list Z) (thrs : list (option Q))
  (i j : nat)
  (Hshape : well_shaped pred)
  (Hlen : length (srows pred) = length target)
  (Hne : target <> []) (Htopk : topk <> [])
  (Hmax : zmax_list topk = size1 pred)
  (Hrange : Forall (fun t => 0 <= t < size1 pred) target)
  (Hk : nth_error topk i = Some (size1 pred))
  (Hthr : nth_error thrs j = Some None) :
  let n := Z.of_nat (length target) in
  exists accs row,
    Accuracy.calculate (Scores pred) target topk thrs
    = inr (Accuracy.AccTable accs)
    /\ nth_error accs i = Some row
    /\ nth_error row j = Some (inject_Z n * (100 / inject_Z n))%Q
    /\ correct_k pred target topk (size1 pred) None = n
    /\ (n <= 16777216 ->
        exists a,
          Float32.scale (Float32.of_int n) n = inr (Fin a)
          /\ (Qabs (a - 100) <= 100 * (1 # 2097152))%Q).
Proof.
  intros n.
  destruct Hshape as [H0 Hrows].
  assert (Hmax' : 0 <= zmax_list topk <= size1 pred) by lia.
  assert (Hcount : correct_k pred target topk (size1 pred) None = n).
  { unfold correct_k, slice_to. cbn [Accuracy.apply_thr].
    destruct (Z.ltb_spec (size1 pred) 0) as [Hlt | _]; [lia |].
    rewrite firstn_all2.
    - rewrite (topk_correct_total _ _ _ (conj H0 Hrows) Hmax').
      apply zsum_zip_all_ones.
      + rewrite !length_map. exact Hlen.
      + intros r t Hr Ht. rewrite map_map in Hr. apply in_map_iff in Hr.
        destruct Hr as [row [<- Hin]].
        rewrite Forall_forall in Hrows, Hrange.
        specialize (Hrows row Hin). specialize (Hrange t Ht).
        cbv beta in Hrange. rewrite Hmax.
        replace (size1 pred) with (Z.of_nat (length row)) by lia.
        apply topk_row_count_all. lia.
    - unfold topk_correct. rewrite length_map, transpose_length. lia. }
  rewrite (accuracy_scores_value _ _ _ _ Hlen Hne Htopk Hmax').
  do 2 eexists. split; [reflexivity |].
  split; [apply (map_nth_error _ _ _ Hk) |].
  split; [rewrite (map_nth_error _ _ _ Hthr), Hcount; reflexivity |].
  split; [exact Hcount |].
  intros Hn.
  assert (Hn1 : 1 <= n).
  { unfold n. destruct target; [congruence | cbn [length]; lia]. }
  destruct (scale_f32_tolerance n n ltac:(lia) (conj Hn1 Hn)) as [_ Htol].
  exists (scale_f32 n n).
  split; [apply scale_of_count; [lia | split; assumption] |].
  assert (Hq : (inject_Z n * (100 / inject_Z n) == 100)%Q).
  { field. apply inject_Z_nonzero. lia. }
  rewrite Hq in Htol. lra.
Qed.

Lemma accuracy_top_all_classes_counts_every_sample_witness :
  correct_k
    {| size1 := 3;
       srows := [[0.1; 0.7; 0.2]; [0.5; 0.3; 0.2]; [0.2; 0.2; 0.6]]%Q |}
    [1; 2; 0] [3] 3 None = 3.
Proof.
  destruct (accuracy_top_all_classes_counts_every_sample
              {| size1 := 3;
                 srows := [[0.1; 0.7; 0.2]; [0.5; 0.3; 0.2]; [0.2; 0.2; 0.6]]%Q |}
              [1; 2; 0] [3] [None] 0%nat 0%nat)
    as (accs & row & _ & _ & _ & Hc & _);
    [split; [simpl; lia | repeat constructor]
    | reflexivity | discriminate | discriminate | reflexivity
    | repeat constructor; simpl; lia | reflexivity | reflexivity |].
  exact Hc.
Defined.

Lemma firstn_zip_with {A B C} (f : A -> B -> C) (n : nat) l1 l2 :
  firstn n (zip_with f l1 l2) = zip_with f (firstn n l1) (firstn n l2).
Proof.
  revert l1 l2. induction n as [| n IH]; intros [| a l1] [| b l2];
    try reflexivity.
  rewrite zip_with_cons. cbn [firstn]. rewrite zip_with_cons, IH. reflexivity.
Qed.

Lemma correct_k_no_threshold_ge (pred : score_matrix) (target topk : list Z)
  (k : Z) (t : Q) :
  0 <= k ->
  correct_k pred target topk k (Some t) <= correct_k pred target topk k None.
Proof.
  intros Hk. unfold correct_k, slice_to.
  destruct (Z.ltb_spec k 0) as [Hlt | _]; [lia |].
  cbn [Accuracy.apply_thr]. rewrite firstn_zip_with.
  apply (count_true_apply_thr (Some t)).
Qed.

(** X18.  A threshold never adds correct predictions: on a valid score
    input, for a k >= 0 of [topk], the accuracy under any threshold is at
    most the accuracy without threshold (thr = None). *)
Theorem accuracy_threshold_at_most_unthresholded
  (pred : score_matrix) (target topk : list Z) (thrs : list (option Q))
  (i j1 j2 : nat) (k : Z) (t : Q)
  (Hlen : length (srows pred) = length target)
  (Hne : target <> []) (Htopk : topk <> [])
  (Hmax : 0 <= zmax_list topk <= size1 pred)
  (Hk : nth_error topk i = Some k) (Hk0 : 0 <= k)
  (Hthr1 : nth_error thrs j1 = Some None)
  (Hthr2 : nth_error thrs j2 = Some (Some t)) :
  exists accs row a_none a_thr,
    Accuracy.calculate (Scores pred) target topk thrs
    = inr (Accuracy.AccTable accs)
    /\ nth_error accs i = Some row
    /\ nth_error row j1 = Some a_none
    /\ nth_error row j2 = Some a_thr
    /\ (a_thr <= a_none)%Q.
Proof.
  rewrite (accuracy_scores_value _ _ _ _ Hlen Hne Htopk Hmax).
  do 4 eexists. split; [reflexivity |].
  split; [apply (map_nth_error _ _ _ Hk) |].
  split; [apply (map_nth_error _ _ _ Hthr1) |].
  split; [apply (map_nth_error _ _ _ Hthr2) |].
  apply scaled_count_le; [apply correct_k_no_threshold_ge; exact Hk0 |].
  apply Qle_shift_div_l.
  - change 0%Q with (inject_Z 0). rewrite <- Zlt_Qlt.
    destruct target; [congruence | cbn [length]; lia].
  - rewrite Qmult_0_l. discriminate.
Qed.

Lemma accuracy_threshold_at_most_unthresholded_witness :
  exists a_none a_thr,
    Accuracy.calculate
      (Scores {| size1 := 3;
                 srows := [[0.1; 0.7; 0.2]; [0.5; 0.3; 0.2]; [0.2; 0.2; 0.6]]%Q |})
      [1; 1; 0] [2] [None; Some 0.25%Q]
    = inr (Accuracy.AccTable [[a_none; a_thr]])
    /\ (a_thr <= a_none)%Q.
Proof.
  destruct (accuracy_threshold_at_most_unthresholded
              {| size1 := 3;
                 srows := [[0.1; 0.7; 0.2]; [0.5; 0.3; 0.2]; [0.2; 0.2; 0.6]]%Q |}
              [1; 1; 0] [2] [None; Some 0.25%Q] 0%nat 0%nat 1%nat 2 0.25%Q)
    as (accs & row & a1 & a2 & Hcalc & Hrow & Ha1 & Ha2 & Hle);
    try reflexivity; try discriminate; try (simpl; lia).
  vm_compute in Hcalc. inversion Hcalc; subst accs.
  simpl in Hrow. inversion Hrow; subst row.
  simpl in Ha1, Ha2. inversion Ha1; subst a1. inversion Ha2; subst a2.
  do 2 eexists. split; [vm_compute; reflexivity | exact Hle].
Defined.

(** ** Scores and labels in [SingleLabelMetric.calculate] *)

Lemma count_label_in (l : list Z) (x : Z) : In x l -> 1 <= count_label l x.
Proof.
  induction l as [| a l IH]; [contradiction |].
  intros [-> | Hin]; rewrite count_label_cons.
  - rewrite Z.eqb_refl. pose proof (count_true_nonneg (map (fun l0 => l0 =? x) l)).
    unfold count_label. lia.
  - specialize (IH Hin). destruct (x =? a); lia.
Qed.

(** The selected labels are classes of the row. *)
Lemma topk_row_labels_in_range (k : Z) (row : list Q) (x : Z) :
  In x (snd (topk_row k row)) -> 0 <= x < Z.of_nat (length row).
Proof.
  intros Hin. apply count_label_in in Hin.
  rewrite topk_row_labels in Hin.
  pose proof (count_label_firstn (Z.to_nat k) (map snd (sort_desc row)) x) as H.
  rewrite sort_desc_count, count_label_zrange in H.
  destruct (Z.leb_spec 0 x), (Z.ltb_spec x (Z.of_nat (length row)));
    cbn [andb] in H; lia.
Qed.

Lemma topk_row_scores_length (k : Z) (row : list Q) :
  0 <= k <= Z.of_nat (length row) ->
  length (fst (topk_row k row)) = Z.to_nat k.
Proof.
  intros Hk. unfold topk_row.
  rewrite split_fst_map, length_map, length_firstn, sort_desc_length. lia.
Qed.

Lemma length_concat_const {A B} (f : A -> list B) (n : nat) (l : list A) :
  Forall (fun a => length (f a) = n) l ->
  length (concat (map f l)) = (n * length l)%nat.
Proof.
  induction 1 as [| a l Ha _ IH]; cbn [map concat length].
  - lia.
  - rewrite length_app, Ha, IH. lia.
Qed.

Lemma argmax_labels_length (pred : score_matrix) :
  well_shaped pred -> 1 <= size1 pred ->
  length (argmax_labels pred) = length (srows pred).
Proof.
  intros [H0 Hrows] H1. unfold argmax_labels. rewrite map_map.
  rewrite (length_concat_const _ 1%nat); [lia |].
  eapply Forall_impl; [| exact Hrows]. intros row Hrow. cbv beta in *.
  rewrite topk_row_labels_length; lia.
Qed.

Lemma top_scores_length (pred : score_matrix) :
  well_shaped pred -> 1 <= size1 pred ->
  length (top_scores pred) = length (srows pred).
Proof.
  intros [H0 Hrows] H1. unfold top_scores. rewrite map_map.
  rewrite (length_concat_const _ 1%nat); [lia |].
  eapply Forall_impl; [| exact Hrows]. intros row Hrow. cbv beta in *.
  rewrite topk_row_scores_length; lia.
Qed.

Lemma argmax_labels_in_range (pred : score_matrix) :
  well_shaped pred ->
  Forall (fun l => 0 <= l < size1 pred) (argmax_labels pred).
Proof.
  intros [H0 Hrows]. apply Forall_forall. intros x Hx.
  unfold argmax_labels in Hx. rewrite map_map in Hx.
  apply in_concat in Hx. destruct Hx as [r [Hr Hx]].
  apply in_map_iff in Hr. destruct Hr as [row [<- Hin]].
  apply topk_row_labels_in_range in Hx.
  rewrite Forall_forall in Hrows. specialize (Hrows row Hin).
  cbv beta in Hrows. lia.
Qed.

(** A threshold below every highest score leaves the predictions as they
    are. *)
Lemma mask_rows_inactive (t : Q) (pred_positive : matrix) (scores : list Q) :
  length (rows pred_positive) = length scores ->
  Forall (fun s => (t < s)%Q) scores ->
  SingleLabelMetric.mask_rows t pred_positive scores = pred_positive.
Proof.
  destruct pred_positive as [c rs]. unfold SingleLabelMetric.mask_rows.
  cbn [ncols rows]. intros Hlen Hall. f_equal.
  revert rs Hlen. induction Hall as [| s scores Hs _ IH]; intros [| r rs] Hlen;
    try discriminate; [reflexivity |].
  rewrite zip_with_cons.
  assert (Hq : Qle_bool s t = false).
  { destruct (Qle_bool s t) eqn:E; [| reflexivity].
    apply Qle_bool_iff in E. exfalso. apply (Qlt_not_le _ _ Hs E). }
  rewrite Hq. f_equal. apply IH. cbn [length] in Hlen. lia.
Qed.

Lemma prfs_returns (pred_positive gt_positive : matrix)
  (average : option string) :
  average_options_ok average = true ->
  exists r,
    _precision_recall_f1_support pred_positive gt_positive average = inr r.
Proof.
  intros Havg. unfold _precision_recall_f1_support. rewrite Havg. cbn [negb].
  destruct (confusion_sums pred_positive gt_positive average) as [[tp ps] gs].
  destruct (average_is average "macro" || average_is average "micro");
    eexists; reflexivity.
Qed.

Lemma mapM_pure_in {A B} (f : A -> result B) (g : A -> B) (l : list A) :
  (forall a, In a l -> f a = inr (g a)) -> mapM f l = inr (map g l).
Proof.
  induction l as [| a l IH]; intros Hf; cbn [mapM map]; [reflexivity |].
  rewrite (Hf a (or_introl eq_refl)). cbn [bind].
  rewrite IH by (intros x Hx; apply Hf; right; exact Hx). reflexivity.
Qed.

(** X19.  On a well-shaped score input with at least one class,
    [SingleLabelMetric.calculate] under thresholds that no highest score
    fails (None, or a value below every highest score) gives, for each
    threshold, what it gives on the labels of the highest scores with
    [num_classes] = C; it fails exactly when that label call fails. *)
Theorem single_label_scores_as_argmax_labels
  (pred : score_matrix) (target : list Z) (thrs : list (option Q))
  (average : option string)
  (Hshape : well_shaped pred) (Hc : 1 <= size1 pred)
  (Hthrs : Forall (thr_inactive pred) thrs) :
  SingleLabelMetric.calculate (Scores pred) target thrs average None
  = (r <- SingleLabelMetric.calculate (Labels (argmax_labels pred)) target []
            average (Some (size1 pred)) ;;
     match r with
     | SingleLabelMetric.Single r =>
         ret (SingleLabelMetric.PerThr (map (fun _ => r) thrs))
     | SingleLabelMetric.PerThr rs => ret (SingleLabelMetric.PerThr rs)
     end).
Proof.
  unfold SingleLabelMetric.calculate.
  destruct (average_options_ok average) eqn:Havg; cbn [negb];
    [| reflexivity].
  cbn [size0]. rewrite (argmax_labels_length _ Hshape Hc).
  destruct (negb (Z.of_nat (length (srows pred)) =? Z.of_nat (length target)))
    eqn:Hsize; [reflexivity |].
  unfold tensor_topk.
  destruct (Z.ltb_spec 1 0) as [Hlt | _]; [lia |].
  destruct (Z.ltb_spec (size1 pred) 1) as [Hlt | _]; [lia |].
  cbn [orb bind ret fst snd].
  fold (argmax_labels pred). fold (top_scores pred).
  destruct (one_hot target (size1 pred)) as [e | gt_positive];
    cbn [bind]; [reflexivity |].
  assert (Hpos : 0 < size1 pred) by lia.
  rewrite (one_hot_ok _ _ Hpos (argmax_labels_in_range _ Hshape)).
  cbn [bind ret].
  set (pred_positive := {| ncols := size1 pred;
                           rows := map (one_hot_row (size1 pred))
                                       (argmax_labels pred) |}).
  destruct (prfs_returns pred_positive gt_positive average Havg) as [r Hr].
  rewrite Hr. cbn [bind ret].
  rewrite (mapM_pure_in _ (fun _ => r)); [reflexivity |].
  intros thr Hin. rewrite Forall_forall in Hthrs. specialize (Hthrs thr Hin).
  destruct thr as [t |]; [| exact Hr].
  rewrite mask_rows_inactive; [exact Hr | | exact Hthrs].
  cbn [pred_positive rows]. rewrite length_map.
  rewrite (argmax_labels_length _ Hshape Hc), (top_scores_length _ Hshape Hc).
  reflexivity.
Qed.

Lemma single_label_scores_as_argmax_labels_witness :
  let pred := {| size1 := 3;
                 srows := [[0.1; 0.7; 0.2]; [0.5; 0.3; 0.2]; [0.2; 0.2; 0.6]]%Q |} in
  argmax_labels pred = [1; 0; 2]
  /\ exists r,
      SingleLabelMetric.calculate (Labels [1; 0; 2]) [1; 1; 0] []
        (Some "macro"%string) (Some 3)
      = inr (SingleLabelMetric.Single r)
      /\ SingleLabelMetric.calculate (Scores pred) [1; 1; 0]
           [Some 0%Q; None] (Some "macro"%string) None
         = inr (SingleLabelMetric.PerThr [r; r]).
Proof.
  intros pred. split; [vm_compute; reflexivity |].
  eexists. split; [vm_compute; reflexivity |].
  rewrite (single_label_scores_as_argmax_labels pred).
  - vm_compute. reflexivity.
  - split; [simpl; lia | repeat constructor].
  - simpl. lia.
  - repeat constructor; vm_compute; reflexivity.
Defined.

(** ** The support under thresholds *)

Lemma mapM_all {A B} (f : A -> result B) (P : B -> Prop) (l : list A) :
  (forall a, In a l -> exists b, f a = inr b /\ P b) ->
  exists bs, mapM f l = inr bs /\ Forall P bs /\ length bs = length l.
Proof.
  induction l as [| a l IH]; intros Hf.
  - exists []. repeat split. constructor.
  - destruct (Hf a (or_introl eq_refl)) as [b [Hb HP]].
    destruct IH as [bs (Hm & Hall & Hlen)].
    { intros x Hx. apply Hf. right. exact Hx. }
    exists (b :: bs). cbn [mapM]. rewrite Hb, Hm. cbn [bind ret length].
    split; [reflexivity |]. split; [constructor; assumption | congruence].
Qed.

(** The support the reduction returns depends on the targets alone. *)
Lemma prfs_support (pred_positive : matrix) (c : Z) (target : list Z)
  (average : option string) :
  average_options_ok average = true ->
  Forall (fun l => 0 <= l < c) target ->
  exists precision recall f1_score,
    _precision_recall_f1_support pred_positive
      {| ncols := c; rows := map (one_hot_row c) target |} average
    = inr (precision, recall, f1_score,
           match average with
           | None => Vec (map (count_label target) (zrange c))
           | Some _ => Scalar (Z.of_nat (length target))
           end).
Proof.
  intros Havg Ht.
  destruct (average_options_cases _ Havg) as [-> | [-> | ->]]; do 3 eexists.
  - rewrite prfs_classwise. cbv zeta. rewrite mat_sum0_one_hot. reflexivity.
  - rewrite prfs_micro. cbv zeta. rewrite (mat_sum_one_hot _ _ Ht).
    reflexivity.
  - rewrite prfs_macro. cbv zeta.
    rewrite mat_sum0_one_hot, (zsum_count_label _ _ Ht). reflexivity.
Qed.

(** X20.  On a well-shaped score input with at least one class and targets
    of the class range, [SingleLabelMetric.calculate] returns one tuple per
    threshold, and every tuple has the same support, which the thresholds
    and the scores do not change: the number of targets of each class
    without averaging, the number of samples under macro and micro. *)
Theorem single_label_support_ignores_thresholds
  (pred : score_matrix) (target : list Z) (thrs : list (option Q))
  (average : option string)
  (Havg : average_options_ok average = true)
  (Hshape : well_shaped pred) (Hc : 1 <= size1 pred)
  (Hlen : length (srows pred) = length target)
  (Ht : Forall (fun l => 0 <= l < size1 pred) target) :
  exists results,
    SingleLabelMetric.calculate (Scores pred) target thrs average None
    = inr (SingleLabelMetric.PerThr results)
    /\ length results = length thrs
    /\ Forall (fun r =>
                 snd r = match average with
                         | None => Vec (map (count_label target)
                                            (zrange (size1 pred)))
                         | Some _ => Scalar (Z.of_nat (length target))
                         end) results.
Proof.
  unfold SingleLabelMetric.calculate. rewrite Havg. cbn [negb size0].
  rewrite Hlen, Z.eqb_refl. cbn [negb].
  unfold tensor_topk.
  destruct (Z.ltb_spec 1 0) as [Hlt | _]; [lia |].
  destruct (Z.ltb_spec (size1 pred) 1) as [Hlt | _]; [lia |].
  cbn [orb bind ret fst snd].
  fold (argmax_labels pred). fold (top_scores pred).
  assert (Hpos : 0 < size1 pred) by lia.
  rewrite (one_hot_ok _ _ Hpos Ht). cbn [bind ret].
  rewrite (one_hot_ok _ _ Hpos (argmax_labels_in_range _ Hshape)).
  cbn [bind ret].
  match goal with
  | |- context [mapM ?f thrs] =>
      destruct (mapM_all f
                  (fun r => snd r
                            = match average with
                              | None => Vec (map (count_label target)
                                                 (zrange (size1 pred)))
                              | Some _ => Scalar (Z.of_nat (length target))
                              end) thrs)
        as [results (Hm & Hall & Hl)]
  end.
  - intros thr _.
    destruct thr as [t |];
      match goal with
      | |- exists b, _precision_recall_f1_support ?pp _ _ = inr b /\ _ =>
          destruct (prfs_support pp (size1 pred) target average Havg Ht)
            as (p & r & f & Hr)
      end;
      rewrite Hr; eexists; split; reflexivity.
  - rewrite Hm. cbn [bind ret]. exists results.
    split; [reflexivity |]. split; assumption.
Qed.

Lemma single_label_support_ignores_thresholds_witness :
  exists r1 r2,
    SingleLabelMetric.calculate
      (Scores {| size1 := 3;
                 srows := [[0.1; 0.7; 0.2]; [0.5; 0.3; 0.2]; [0.2; 0.2; 0.6]]%Q |})
      [1; 1; 0] [None; Some 0.65%Q] None None
    = inr (SingleLabelMetric.PerThr [r1; r2])
    /\ snd r1 = Vec [1; 2; 0] /\ snd r2 = Vec [1; 2; 0].
Proof.
  destruct (single_label_support_ignores_thresholds
              {| size1 := 3;
                 srows := [[0.1; 0.7; 0.2]; [0.5; 0.3; 0.2]; [0.2; 0.2; 0.6]]%Q |}
              [1; 1; 0] [None; Some 0.65%Q] None)
    as (results & Hcalc & _ & Hall).
  - reflexivity.
  - split; [simpl; lia | repeat constructor].
  - simpl. lia.
  - reflexivity.
  - repeat constructor; simpl; lia.
  - vm_compute in Hcalc. inversion Hcalc; subst results.
    inversion Hall as [| ? ? H1 Hrest]; subst.
    inversion Hrest as [| ? ? H2 _]; subst.
    do 2 eexists. split; [vm_compute; reflexivity |].
    split; [exact H1 | exact H2].
Defined.

(** ** A score equal to the threshold *)

Lemma in_firstn {A} (n : nat) (l : list A) (x : A) :
  In x (firstn n l) -> In x l.
Proof.
  intros H. rewrite <- (firstn_skipn n l). apply in_or_app. left. exact H.
Qed.

Lemma in_skipn {A} (n : nat) (l : list A) (x : A) :
  In x (skipn n l) -> In x l.
Proof.
  intros H. rewrite <- (firstn_skipn n l). apply in_or_app. right. exact H.
Qed.

Lemma insert_desc_in (x p : Q * Z) (l : list (Q * Z)) :
  In p (insert_desc x l) -> p = x \/ In p l.
Proof.
  induction l as [| y l IH]; cbn [insert_desc].
  - intros [<- | []]. left. reflexivity.
  - destruct (Qle_bool (fst y) (fst x)).
    + intros [<- | H]; [left; reflexivity | right; exact H].
    + intros [<- | H]; [right; left; reflexivity |].
      destruct (IH H) as [-> | Hin]; [left; reflexivity | right; right; exact Hin].
Qed.

(** The sorted scores of a row are scores of the row. *)
Lemma sort_desc_in (row : list Q) (p : Q * Z) :
  In p (sort_desc row) -> In (fst p) row.
Proof.
  unfold sort_desc.
  assert (H : forall l : list (Q * Z),
             In p (fold_right insert_desc [] l) -> In p l).
  { induction l as [| x l IH]; cbn [fold_right]; [auto |].
    intros Hin. apply insert_desc_in in Hin.
    destruct Hin as [-> | Hin]; [left; reflexivity | right; apply IH; exact Hin]. }
  intros Hin. apply H in Hin. destruct p as [s i].
  apply in_combine_l in Hin. exact Hin.
Qed.

Lemma topk_scores_t_in (pred : score_matrix) (maxk : Z) (r : list Q) (s : Q) :
  In r (topk_scores_t pred maxk) -> In s r ->
  exists row, In row (srows pred) /\ In s row.
Proof.
  unfold topk_scores_t. rewrite transpose_columns. intros Hr Hs.
  apply in_map_iff in Hr. destruct Hr as [j [<- _]].
  unfold column in Hs. apply in_flat_map in Hs. destruct Hs as [r' [Hr' Hs]].
  apply in_firstn, in_skipn in Hs.
  rewrite map_map in Hr'. apply in_map_iff in Hr'.
  destruct Hr' as [row [<- Hrow]].
  exists row. split; [exact Hrow |].
  unfold topk_row in Hs. rewrite split_fst_map in Hs.
  apply in_map_iff in Hs. destruct Hs as [p [<- Hp]].
  apply in_firstn in Hp. apply sort_desc_in. exact Hp.
Qed.

Lemma count_true_all_masked (t : Q) (c : list bool) (s : list Q) :
  Forall (fun x => (x <= t)%Q) s ->
  count_true (zip_with (fun b x => b && negb (Qle_bool x t)) c s) = 0.
Proof.
  intros Hs. revert c. induction Hs as [| x s Hx _ IH]; intros [| b c].
  - reflexivity.
  - apply (f_equal count_true (zip_with_nil_r _ _)).
  - reflexivity.
  - rewrite zip_with_cons, count_true_cons, IH.
    apply Qle_bool_iff in Hx. rewrite Hx. destruct b; reflexivity.
Qed.

Lemma count_true_apply_thr_all_masked (t : Q) (correct : list (list bool))
  (scores : list (list Q)) :
  Forall (Forall (fun x => (x <= t)%Q)) scores ->
  count_true (concat (Accuracy.apply_thr (Some t) correct scores)) = 0.
Proof.
  cbn [Accuracy.apply_thr]. intros Hs. revert correct.
  induction Hs as [| s scores Hrow _ IH]; intros [| c correct].
  - reflexivity.
  - rewrite zip_with_nil_r. reflexivity.
  - reflexivity.
  - rewrite zip_with_cons. cbn [concat]. rewrite count_true_app, IH.
    rewrite (count_true_all_masked _ _ _ Hrow). reflexivity.
Qed.

(** X21.  The threshold is strict: on a valid score input in which no score
    exceeds thr (scores equal to thr included), the accuracy under thr is 0
    for every k of [topk]. *)
Theorem accuracy_zero_when_no_score_exceeds_threshold
  (pred : score_matrix) (target topk : list Z) (thrs : list (option Q))
  (i j : nat) (k : Z) (t : Q)
  (Hlen : length (srows pred) = length target)
  (Hne : target <> []) (Htopk : topk <> [])
  (Hmax : 0 <= zmax_list topk <= size1 pred)
  (Hscores : Forall (Forall (fun s => (s <= t)%Q)) (srows pred))
  (Hk : nth_error topk i = Some k)
  (Hthr : nth_error thrs j = Some (Some t)) :
  exists accs row acc,
    Accuracy.calculate (Scores pred) target topk thrs
    = inr (Accuracy.AccTable accs)
    /\ nth_error accs i = Some row
    /\ nth_error row j = Some acc
    /\ (acc == 0)%Q.
Proof.
  rewrite (accuracy_scores_value _ _ _ _ Hlen Hne Htopk Hmax).
  do 3 eexists. split; [reflexivity |].
  split; [apply (map_nth_error _ _ _ Hk) |].
  split; [apply (map_nth_error _ _ _ Hthr) |].
  assert (Hzero : correct_k pred target topk k (Some t) = 0).
  { pose proof (count_true_nonneg
                  (concat (slice_to k
                             (Accuracy.apply_thr (Some t)
                                (topk_correct pred target (zmax_list topk))
                                (topk_scores_t pred (zmax_list topk)))))) as H0.
    pose proof (count_true_concat_slice k
                  (Accuracy.apply_thr (Some t)
                     (topk_correct pred target (zmax_list topk))
                     (topk_scores_t pred (zmax_list topk)))) as H1.
    rewrite count_true_apply_thr_all_masked in H1.
    - unfold correct_k. lia.
    - apply Forall_forall. intros r Hr. apply Forall_forall. intros s Hs.
      destruct (topk_scores_t_in _ _ _ _ Hr Hs) as [row [Hrow Hin]].
      rewrite Forall_forall in Hscores. specialize (Hscores row Hrow).
      rewrite Forall_forall in Hscores. apply Hscores. exact Hin. }
  rewrite Hzero. unfold Qeq. simpl. reflexivity.
Qed.

Lemma accuracy_zero_when_no_score_exceeds_threshold_witness :
  exists acc,
    Accuracy.calculate
      (Scores {| size1 := 2; srows := [[0.5; 0.5]; [0.5; 0.25]]%Q |})
      [0; 0] [1] [Some 0.5%Q]
    = inr (Accuracy.AccTable [[acc]])
    /\ (acc == 0)%Q.
Proof.
  destruct (accuracy_zero_when_no_score_exceeds_threshold
              {| size1 := 2; srows := [[0.5; 0.5]; [0.5; 0.25]]%Q |}
              [0; 0] [1] [Some 0.5%Q] 0%nat 0%nat 1 0.5%Q)
    as (accs & row & acc & Hcalc & Hrow & Hacc & Heq);
    try reflexivity; try discriminate; try (simpl; lia).
  - repeat constructor; vm_compute; discriminate.
  - vm_compute in Hcalc. inversion Hcalc; subst accs.
    simpl in Hrow. inversion Hrow; subst row.
    simpl in Hacc. inversion Hacc; subst acc.
    eexists. split; [vm_compute; reflexivity | exact Heq].
Defined.

(** ** The metric dict of [SingleLabelMetric] on label records *)

Lemma label_records_stored (results : list ResultDict) :
  Forall label_record results ->
  mapM (fun res => getitem "pred_label" (r_pred_label res)) results
  = inr (map (fun r => match r_pred_label r with
                       | Some l => l
                       | None => []
                       end) results)
  /\ length (stored_targets results) = length results
  /\ length (stored_labels results) = length results.
Proof.
  intros Hall. split; [| split].
  - apply mapM_getitem_some. eapply Forall_impl; [| exact Hall].
    intros r (_ & [l Hl] & _). rewrite Hl. reflexivity.
  - unfold stored_targets. apply length_concat_singletons.
    eapply Forall_impl; [| exact Hall]. intros r (_ & _ & Hr). exact Hr.
  - unfold stored_labels. apply length_concat_singletons.
    eapply Forall_impl; [| exact Hall].
    intros r (_ & [l Hl] & _). rewrite Hl. reflexivity.
Qed.

(** On label records, [compute_metrics] calls [calculate] on the stored
    labels with the class count of the first record. *)
Lemma single_label_compute_on_labels (self : SingleLabelMetric.config)
  (first : ResultDict) (rest : list ResultDict) (num_classes : Z)
  (r : SingleLabelMetric.prfs) :
  Forall label_record (first :: rest) ->
  r_num_classes first = Some num_classes ->
  SingleLabelMetric.calculate (Labels (stored_labels (first :: rest)))
    (stored_targets (first :: rest)) [Some 0%Q]
    (SingleLabelMetric.average self) (Some num_classes)
  = inr (SingleLabelMetric.Single r) ->
  SingleLabelMetric.compute_metrics self (first :: rest)
  = foldM (fun result_metrics kv =>
             match SingleLabelMetric.average self with
             | None =>
                 ret (dict_set (fst kv ++ "_classwise")%string
                               (SingleLabelMetric.tolist (snd kv))
                               result_metrics)
             | Some a =>
                 v <- SingleLabelMetric.item (snd kv) ;;
                 if (a =? "micro")%string
                 then ret (dict_set (fst kv ++ "_" ++ a)%string v result_metrics)
                 else ret (dict_set (fst kv) v result_metrics)
             end) [] (SingleLabelMetric.pack_results self r).
Proof.
  intros Hall Hnc Hcalc.
  destruct (label_records_stored _ Hall) as (Hm & _ & _).
  unfold SingleLabelMetric.compute_metrics.
  set (results := first :: rest) in *.
  change (torch_cat (map r_gt_label results))
    with (@inr exn _ (stored_targets results)).
  cbn [bind ret]. unfold index at 1. cbn [results nth_error bind ret].
  fold results.
  inversion Hall as [| ? ? (Hs0 & _ & _) _]; subst.
  rewrite Hs0, Hm. cbn [bind].
  change (torch_cat (map (fun r => match r_pred_label r with
                                   | Some l => l
                                   | None => []
                                   end) results))
    with (@inr exn _ (stored_labels results)).
  cbn [bind]. rewrite Hnc. cbn [getitem bind ret].
  rewrite Hcalc. cbn [bind ret]. reflexivity.
Qed.

(** X22.  On the stored records of a run on label predictions of the class
    range, [SingleLabelMetric.compute_metrics] uses the class count of the
    first record and returns exactly the requested items, in the order
    precision, recall, f1-score, support, each named item_classwise
    without averaging, item_micro under micro and item under macro. *)
Theorem single_label_metric_names_on_labels (self : SingleLabelMetric.config)
  (first : ResultDict) (rest : list ResultDict) (num_classes : Z)
  (Hall : Forall label_record (first :: rest))
  (Hnc : r_num_classes first = Some num_classes)
  (Hc : 0 < num_classes)
  (Havg : average_options_ok (SingleLabelMetric.average self) = true)
  (Hp : Forall (fun l => 0 <= l < num_classes)
               (stored_labels (first :: rest)))
  (Ht : Forall (fun l => 0 <= l < num_classes)
               (stored_targets (first :: rest))) :
  exists metrics,
    SingleLabelMetric.compute_metrics self (first :: rest) = inr metrics
    /\ map fst metrics
       = map (item_name (SingleLabelMetric.average self))
             (filter (SingleLabelMetric.has_item self) supported_items).
Proof.
  destruct (label_records_stored _ Hall) as (_ & Hlt & Hll).
  assert (Hlen : length (stored_labels (first :: rest))
                 = length (stored_targets (first :: rest))) by congruence.
  destruct (average_options_cases _ Havg) as [Ha | [Ha | Ha]].
  - rewrite (single_label_compute_on_labels self first rest num_classes _
               Hall Hnc
               ltac:(rewrite Ha;
                     apply (single_label_classwise_by_counts_form
                              _ _ _ _ Hlen Hc Hp Ht))).
    rewrite Ha. unfold SingleLabelMetric.pack_results, supported_items.
    cbn [filter].
    destruct (SingleLabelMetric.has_item self "precision"),
      (SingleLabelMetric.has_item self "recall"),
      (SingleLabelMetric.has_item self "f1-score"),
      (SingleLabelMetric.has_item self "support");
      eexists; (split; [reflexivity | reflexivity]).
  - rewrite (single_label_compute_on_labels self first rest num_classes _
               Hall Hnc
               ltac:(rewrite Ha;
                     apply (single_label_micro_by_counts
                              _ _ _ _ Hlen Hc Hp Ht))).
    rewrite Ha. unfold SingleLabelMetric.pack_results, supported_items.
    cbn [filter].
    destruct (SingleLabelMetric.has_item self "precision"),
      (SingleLabelMetric.has_item self "recall"),
      (SingleLabelMetric.has_item self "f1-score"),
      (SingleLabelMetric.has_item self "support");
      eexists; (split; [reflexivity | reflexivity]).
  - rewrite (single_label_compute_on_labels self first rest num_classes _
               Hall Hnc
               ltac:(rewrite Ha;
                     apply (single_label_macro_by_counts
                              _ _ _ _ Hlen Hc Hp Ht))).
    rewrite Ha. unfold SingleLabelMetric.pack_results, supported_items.
    cbn [filter].
    destruct (SingleLabelMetric.has_item self "precision"),
      (SingleLabelMetric.has_item self "recall"),
      (SingleLabelMetric.has_item self "f1-score"),
      (SingleLabelMetric.has_item self "support");
      eexists; (split; [reflexivity | reflexivity]).
Qed.

Lemma single_label_metric_names_on_labels_witness :
  exists metrics,
    SingleLabelMetric.compute_metrics
      {| SingleLabelMetric.thrs := [Some 0%Q];
         SingleLabelMetric.items := ["support"; "recall"]%string;
         SingleLabelMetric.average := Some "micro"%string |}
      [ {| r_pred_score := None; r_pred_label := Some [0];
           r_num_classes := Some 3; r_gt_label := [0] |};
        {| r_pred_score := None; r_pred_label := Some [2];
           r_num_classes := Some 7; r_gt_label := [1] |} ]
    = inr metrics
    /\ map fst metrics = ["recall_micro"; "support_micro"]%string.
Proof.
  apply (single_label_metric_names_on_labels
           {| SingleLabelMetric.thrs := [Some 0%Q];
              SingleLabelMetric.items := ["support"; "recall"]%string;
              SingleLabelMetric.average := Some "micro"%string |}
           {| r_pred_score := None; r_pred_label := Some [0];
              r_num_classes := Some 3; r_gt_label := [0] |}
           [ {| r_pred_score := None; r_pred_label := Some [2];
                r_num_classes := Some 7; r_gt_label := [1] |} ] 3).
  - repeat constructor; eexists; reflexivity.
  - reflexivity.
  - lia.
  - reflexivity.
  - repeat constructor; simpl; lia.
  - repeat constructor; simpl; lia.
Defined.

(** ** Empty configurations and empty inputs *)

(** X23.  With an empty [topk], [max(topk)] raises ValueError on score
    input; [Accuracy.compute_metrics] catches it like the top-k error and
    raises it again with the config hint appended. *)
Theorem accuracy_empty_topk (thrs : list (option Q)) (c : nat)
  (results : list ResultDict)
  (Hne : results <> []) (Hall : Forall (score_record c) results) :
  Accuracy.calculate
    (Scores {| size1 := Z.of_nat c; srows := stored_scores results |})
    (stored_targets results) [] thrs
  = inl (ValueError "max() arg is an empty sequence")
  /\ Accuracy.compute_metrics
       {| Accuracy.topk := []; Accuracy.thrs := thrs |} results
     = inl (ValueError
              ("max() arg is an empty sequence" ++ Accuracy.check_config_msg)).
Proof.
  destruct (score_records_stored c results Hne Hall) as (Hm & Hst & Hlen).
  assert (Hcalc : Accuracy.calculate
                    (Scores {| size1 := Z.of_nat c;
                               srows := stored_scores results |})
                    (stored_targets results) [] thrs
                  = inl (ValueError "max() arg is an empty sequence")).
  { unfold Accuracy.calculate. cbn [size0 srows].
    unfold stored_scores at 1. rewrite length_map, Hlen, Z.eqb_refl.
    reflexivity. }
  split; [exact Hcalc |].
  unfold Accuracy.compute_metrics.
  destruct results as [| r0 results']; [congruence |].
  set (results := r0 :: results') in *.
  change (torch_cat (map r_gt_label results))
    with (@inr exn _ (stored_targets results)).
  cbn [bind ret]. unfold index at 1. cbn [results nth_error bind ret].
  fold results.
  inversion Hall as [| ? ? [[s0 [Hs0 _]] _] _]; subst.
  rewrite Hs0, Hm. cbn [bind]. rewrite Hst. cbn [bind Accuracy.topk Accuracy.thrs].
  rewrite Hcalc. reflexivity.
Qed.

Lemma accuracy_empty_topk_witness :
  Accuracy.compute_metrics
    {| Accuracy.topk := []; Accuracy.thrs := [Some 0%Q] |}
    [ {| r_pred_score := Some [0.1; 0.7; 0.2]%Q; r_pred_label := None;
         r_num_classes := None; r_gt_label := [1] |} ]
  = inl (ValueError
           "max() arg is an empty sequence Please check the `val_evaluator` and `test_evaluator` fields in your config file.").
Proof.
  apply (accuracy_empty_topk [Some 0%Q] 3%nat).
  - discriminate.
  - repeat constructor; eexists; split; reflexivity.
Defined.

(** X24.  With an empty [thrs], [Accuracy.compute_metrics] on the stored
    records of a run on scores returns an empty dict: no metric is
    reported and no error is raised. *)
Theorem accuracy_empty_thrs_reports_nothing (topk : list Z) (c : nat)
  (results : list ResultDict)
  (Hne : results <> []) (Hall : Forall (score_record c) results)
  (Htopk : topk <> []) (Hmax : 0 <= zmax_list topk <= Z.of_nat c) :
  Accuracy.compute_metrics
    {| Accuracy.topk := topk; Accuracy.thrs := [] |} results
  = inr [].
Proof.
  rewrite (accuracy_compute_metrics_scores
             {| Accuracy.topk := topk; Accuracy.thrs := [] |}
             c results Hne Hall Htopk Hmax).
  unfold topk_thr_pairs. cbn [Accuracy.topk Accuracy.thrs map].
  assert (H : flat_map (fun _ : Z => @nil (Z * option Q)) topk = []).
  { clear. induction topk as [| k topk IH]; [reflexivity | exact IH]. }
  rewrite H. reflexivity.
Qed.

Lemma accuracy_empty_thrs_reports_nothing_witness :
  Accuracy.compute_metrics
    {| Accuracy.topk := [1; 2]; Accuracy.thrs := [] |}
    [ {| r_pred_score := Some [0.1; 0.7; 0.2]%Q; r_pred_label := None;
         r_num_classes := None; r_gt_label := [1] |} ]
  = inr [].
Proof.
  apply (accuracy_empty_thrs_reports_nothing [1; 2] 3%nat).
  - discriminate.
  - repeat constructor; eexists; split; reflexivity.
  - discriminate.
  - simpl. lia.
Defined.

Lemma mapM_first_fails {A B} (f : A -> result B) (a : A) (l : list A) (e : exn) :
  f a = inl e -> mapM f (a :: l) = inl e.
Proof. intros H. cbn [mapM]. rewrite H. reflexivity. Qed.

(** X25.  [Accuracy.calculate] divides by the sample count: on an empty
    label input, and on a score input without rows when [topk] and [thrs]
    are not empty and 0 <= max(topk) <= C, it raises ZeroDivisionError. *)
Theorem accuracy_empty_input_divides_by_zero
  (c : Z) (topk : list Z) (thrs : list (option Q))
  (Htopk : topk <> []) (Hthrs : thrs <> [])
  (Hmax : 0 <= zmax_list topk <= c) :
  Accuracy.calculate (Labels []) [] topk thrs
  = inl (ZeroDivisionError "float division by zero")
  /\ Accuracy.calculate (Scores {| size1 := c; srows := [] |}) [] topk thrs
     = inl (ZeroDivisionError "float division by zero").
Proof.
  split; [reflexivity |].
  unfold Accuracy.calculate. cbn [size0 srows length negb Z.eqb Z.of_nat].
  rewrite (py_max_nonempty _ Htopk). cbn [bind size1].
  destruct (Z.ltb_spec c (zmax_list topk)) as [Hlt | _]; [lia |].
  unfold tensor_topk. cbn [size1].
  destruct (Z.ltb_spec (zmax_list topk) 0) as [Hlt | _]; [lia |].
  destruct (Z.ltb_spec c (zmax_list topk)) as [Hlt | _]; [lia |].
  cbn [orb bind ret srows map].
  destruct topk as [| k topk]; [congruence |].
  destruct thrs as [| thr thrs]; [congruence |].
  rewrite (mapM_first_fails _ _ _ (ZeroDivisionError "float division by zero"));
    [reflexivity |].
  apply mapM_first_fails. reflexivity.
Qed.

Lemma accuracy_empty_input_divides_by_zero_witness :
  Accuracy.calculate (Scores {| size1 := 5; srows := [] |}) [] [1; 5]
                     [Some 0%Q]
  = inl (ZeroDivisionError "float division by zero").
Proof.
  apply (accuracy_empty_input_divides_by_zero 5 [1; 5] [Some 0%Q]).
  - discriminate.
  - discriminate.
  - simpl. lia.
Defined.

(** ** [SingleLabelMetric.calculate] on scores, by counts *)

Lemma zrange_nonneg (c j : Z) : In j (zrange c) -> 0 <= j.
Proof.
  unfold zrange. intros H. apply in_map_iff in H.
  destruct H as [n [<- _]]. lia.
Qed.

(** The one-hot row of no class is a row of zeros. *)
Lemma one_hot_row_no_class (c : Z) :
  one_hot_row c (-1) = map (fun _ => 0) (zrange c).
Proof.
  unfold one_hot_row. apply map_ext_in. intros j Hj.
  apply zrange_nonneg in Hj.
  destruct (Z.eqb_spec j (-1)); [lia | reflexivity].
Qed.

(** Zeroing the rows of the samples that fail the threshold is the one-hot
    encoding of the gated labels. *)
Lemma mask_rows_gated (t : Q) (c : Z) (labels : list Z) (scores : list Q) :
  length labels = length scores ->
  SingleLabelMetric.mask_rows t
    {| ncols := c; rows := map (one_hot_row c) labels |} scores
  = {| ncols := c;
       rows := map (one_hot_row c)
                   (zip_with (fun l s => if Qle_bool s t then -1 else l)
                             labels scores) |}.
Proof.
  unfold SingleLabelMetric.mask_rows. cbn [ncols rows]. intros Hlen. f_equal.
  revert scores Hlen. induction labels as [| l labels IH];
    intros [| s scores] Hlen; try discriminate; [reflexivity |].
  cbn [map]. rewrite !zip_with_cons. cbn [map].
  rewrite IH by (cbn [length] in Hlen; lia). f_equal.
  destruct (Qle_bool s t); [| reflexivity].
  rewrite one_hot_row_no_class. unfold one_hot_row. rewrite map_map.
  reflexivity.
Qed.

(** Every threshold's tuple of a score input without averaging. *)
Lemma single_label_scores_classwise_form
  (pred : score_matrix) (target : list Z) (thrs : list (option Q)) :
  well_shaped pred -> 1 <= size1 pred ->
  length (srows pred) = length target ->
  Forall (fun l => 0 <= l < size1 pred) target ->
  SingleLabelMetric.calculate (Scores pred) target thrs None None
  = inr (SingleLabelMetric.PerThr
           (map (fun thr =>
                   classwise_by_counts (gated_labels pred thr) target
                                       (size1 pred))
                thrs)).
Proof.
  intros Hshape Hc Hlen Ht.
  unfold SingleLabelMetric.calculate.
  cbn [average_options_ok negb size0].
  rewrite Hlen, Z.eqb_refl. cbn [negb].
  unfold tensor_topk.
  destruct (Z.ltb_spec 1 0) as [Hlt | _]; [lia |].
  destruct (Z.ltb_spec (size1 pred) 1) as [Hlt | _]; [lia |].
  cbn [orb bind ret fst snd].
  fold (argmax_labels pred). fold (top_scores pred).
  assert (Hpos : 0 < size1 pred) by lia.
  rewrite (one_hot_ok _ _ Hpos Ht). cbn [bind ret].
  rewrite (one_hot_ok _ _ Hpos (argmax_labels_in_range _ Hshape)).
  cbn [bind ret].
  rewrite (mapM_pure _
             (fun thr => classwise_by_counts (gated_labels pred thr) target
                                             (size1 pred))).
  - reflexivity.
  - intros thr. destruct thr as [t |].
    + rewrite mask_rows_gated
        by (rewrite (argmax_labels_length _ Hshape Hc),
              (top_scores_length _ Hshape Hc); reflexivity).
      rewrite prfs_classwise. cbv zeta.
      rewrite mat_sum0_one_hot_and, !mat_sum0_one_hot, !zip_with_map_same.
      reflexivity.
    + rewrite prfs_classwise. cbv zeta.
      rewrite mat_sum0_one_hot_and, !mat_sum0_one_hot, !zip_with_map_same.
      reflexivity.
Qed.

(** X26.  Without averaging, [SingleLabelMetric.calculate] on a well-shaped
    score input with targets of the class range returns, for every
    threshold, the per-class precision, recall, f1 and support computed
    from counts, where a sample counts as predicted for the class of its
    highest score, and for no class when that score does not exceed the
    threshold. *)
Theorem single_label_scores_by_counts
  (pred : score_matrix) (target : list Z) (thrs : list (option Q))
  (Hshape : well_shaped pred) (Hc : 1 <= size1 pred)
  (Hlen : length (srows pred) = length target)
  (Ht : Forall (fun l => 0 <= l < size1 pred) target) :
  SingleLabelMetric.calculate (Scores pred) target thrs None None
  = inr (SingleLabelMetric.PerThr
           (map (fun thr =>
                   classwise_by_counts (gated_labels pred thr) target
                                       (size1 pred))
                thrs)).
Proof.
  apply single_label_scores_classwise_form; assumption.
Qed.

Lemma single_label_scores_by_counts_witness :
  let pred := {| size1 := 3;
                 srows := [[0.1; 0.7; 0.2]; [0.5; 0.3; 0.2]; [0.2; 0.2; 0.6]]%Q |} in
  gated_labels pred (Some 0.5%Q) = [1; -1; 2]
  /\ SingleLabelMetric.calculate (Scores pred) [1; 1; 0] [Some 0.5%Q] None None
     = inr (SingleLabelMetric.PerThr
              [classwise_by_counts [1; -1; 2] [1; 1; 0] 3]).
Proof.
  intros pred. split; [vm_compute; reflexivity |].
  rewrite (single_label_scores_by_counts pred).
  - vm_compute. reflexivity.
  - split; [simpl; lia | repeat constructor].
  - simpl. lia.
  - reflexivity.
  - repeat constructor; simpl; lia.
Defined.

(** *** Recall and the threshold *)

Lemma count_hit_gated_mono (t1 t2 : Q) (labels : list Z) (scores : list Q)
  (target : list Z) (c : Z) :
  (t1 <= t2)%Q -> 0 <= c ->
  count_hit (zip_with (fun l s => if Qle_bool s t2 then -1 else l)
                      labels scores) target c
  <= count_hit (zip_with (fun l s => if Qle_bool s t1 then -1 else l)
                         labels scores) target c.
Proof.
  intros Ht Hc. revert scores target.
  induction labels as [| l labels IH]; intros [| s scores] target;
    try reflexivity.
  rewrite !zip_with_cons. destruct target as [| b target]; [reflexivity |].
  rewrite !count_hit_cons. specialize (IH scores target).
  destruct (Qle_bool s t1) eqn:E1.
  - apply Qle_bool_iff in E1.
    assert (E2 : Qle_bool s t2 = true).
    { apply Qle_bool_iff. apply (Qle_trans _ t1); assumption. }
    rewrite E2. lia.
  - destruct (Qle_bool s t2).
    + destruct (Z.eqb_spec c (-1)); [lia |].
      pose proof (Z.land_nonneg (if c =? l then 1 else 0)
                                (if c =? b then 1 else 0)) as Hn.
      assert (0 <= Z.land (if c =? l then 1 else 0) (if c =? b then 1 else 0)).
      { apply Hn. left. destruct (c =? l); lia. }
      simpl (Z.land 0 _). lia.
    + lia.
Qed.

Lemma count_hit_gated_le_argmax (t : Q) (labels : list Z) (scores : list Q)
  (target : list Z) (c : Z) :
  0 <= c ->
  count_hit (zip_with (fun l s => if Qle_bool s t then -1 else l)
                      labels scores) target c
  <= count_hit labels target c.
Proof.
  intros Hc. revert scores target.
  induction labels as [| l labels IH]; intros [| s scores] target;
    try reflexivity.
  - apply count_true_nonneg.
  - rewrite zip_with_cons. destruct target as [| b target]; [reflexivity |].
    rewrite !count_hit_cons. specialize (IH scores target).
    destruct (Qle_bool s t); [| lia].
    destruct (Z.eqb_spec c (-1)); [lia |].
    assert (0 <= Z.land (if c =? l then 1 else 0) (if c =? b then 1 else 0)).
    { apply Z.land_nonneg. left. destruct (c =? l); lia. }
    simpl (Z.land 0 _). lia.
Qed.

Lemma ratio100_mono (tp1 tp2 s : Z) :
  tp1 <= tp2 -> (ratio100 tp1 s <= ratio100 tp2 s)%Q.
Proof.
  intros H. unfold ratio100.
  assert (Hm : (0 < Qmax (inject_Z s) 1)%Q).
  { apply (Qlt_le_trans _ 1); [reflexivity | apply Q.le_max_r]. }
  apply Qmult_le_compat_r; [| discriminate].
  unfold Qdiv. apply Qmult_le_compat_r.
  - rewrite <- Zle_Qle. exact H.
  - apply Qlt_le_weak, Qinv_lt_0_compat. exact Hm.
Qed.

(** X27.  Raising the threshold never raises a recall: without averaging,
    on a well-shaped score input with targets of the class range, the
    recall of every class under a threshold thr2 is at most its recall
    under a threshold thr1 <= thr2, and at most its recall without
    threshold. *)
Theorem single_label_recall_nonincreasing_in_threshold
  (pred : score_matrix) (target : list Z) (thr1 thr2 : Q)
  (Hshape : well_shaped pred) (Hc : 1 <= size1 pred)
  (Hlen : length (srows pred) = length target)
  (Ht : Forall (fun l => 0 <= l < size1 pred) target)
  (Hle : (thr1 <= thr2)%Q) :
  exists p0 r0 f0 s0 p1 r1 f1 s1 p2 r2 f2 s2,
    SingleLabelMetric.calculate (Scores pred) target
      [None; Some thr1; Some thr2] None None
    = inr (SingleLabelMetric.PerThr
             [(p0, Vec (map Fin r0), f0, s0);
              (p1, Vec (map Fin r1), f1, s1);
              (p2, Vec (map Fin r2), f2, s2)])
    /\ Forall2 Qle r2 r1
    /\ Forall2 Qle r1 r0.
Proof.
  rewrite (single_label_scores_classwise_form _ _ _ Hshape Hc Hlen Ht).
  unfold classwise_by_counts. cbn [map].
  do 12 eexists. split; [reflexivity |].
  split.
  - cbn [gated_labels].
    generalize (zrange_nonneg (size1 pred)).
    induction (zrange (size1 pred)) as [| c l IH]; intros Hnn; cbn [map];
      constructor.
    + apply ratio100_mono, count_hit_gated_mono;
        [exact Hle | apply Hnn; left; reflexivity].
    + apply IH. intros j Hj. apply Hnn. right. exact Hj.
  - cbn [gated_labels].
    generalize (zrange_nonneg (size1 pred)).
    induction (zrange (size1 pred)) as [| c l IH]; intros Hnn; cbn [map];
      constructor.
    + apply ratio100_mono, count_hit_gated_le_argmax.
      apply Hnn. left. reflexivity.
    + apply IH. intros j Hj. apply Hnn. right. exact Hj.
Qed.

Lemma single_label_recall_nonincreasing_in_threshold_witness :
  exists t0 t1 t2,
    SingleLabelMetric.calculate
      (Scores {| size1 := 3;
                 srows := [[0.1; 0.7; 0.2]; [0.5; 0.3; 0.2]; [0.2; 0.2; 0.6]]%Q |})
      [1; 0; 2] [None; Some 0.55%Q; Some 0.65%Q] None None
    = inr (SingleLabelMetric.PerThr [t0; t1; t2])
    /\ snd (fst (fst t0)) = Vec [Fin (100 # 1); Fin (100 # 1); Fin (100 # 1)]%Q
    /\ snd (fst (fst t1)) = Vec [Fin (0 # 1); Fin (100 # 1); Fin (100 # 1)]%Q
    /\ snd (fst (fst t2)) = Vec [Fin (0 # 1); Fin (100 # 1); Fin (0 # 1)]%Q.
Proof.
  destruct (single_label_recall_nonincreasing_in_threshold
              {| size1 := 3;
                 srows := [[0.1; 0.7; 0.2]; [0.5; 0.3; 0.2]; [0.2; 0.2; 0.6]]%Q |}
              [1; 0; 2] 0.55%Q 0.65%Q)
    as (p0 & r0 & f0 & s0 & p1 & r1 & f1 & s1 & p2 & r2 & f2 & s2
        & Hcalc & _ & _).
  - split; [simpl; lia | repeat constructor].
  - simpl. lia.
  - reflexivity.
  - repeat constructor; simpl; lia.
  - vm_compute. discriminate.
  - do 3 eexists. split; [vm_compute; reflexivity |].
    repeat split; vm_compute; reflexivity.
Defined.
